(** * ChainTap: a shallow embedding of the indexing engine

    The development follows the TypeScript sources: the rate-limit
    classifier ([src/providers/rate-limiter.ts]), the event decoder
    ([src/abi/decoder.ts]), the SQLite storage adapter
    ([src/storage/sqlite.ts]), the provider pool
    ([src/providers/provider-pool.ts]), the event fetcher
    ([src/core/event-fetcher.ts]) and the indexer
    ([src/core/indexer.ts]).

    Conventions.
    - JavaScript numbers that hold block numbers, counters, priorities and
      timestamps are integers in every use the sources make of them; they
      are modelled by [Z].
    - A [throw] is the [Throw] constructor of [outcome]; [try]/[catch] is a
      match on it.
    - Mutable objects are passed explicitly; objects reachable through two
      paths (the pool's entries) live in a store and are named by index.
    - [Date.now()] is a parameter [now] of every operation that reads the
      clock.
    - Remote endpoints are oracles indexed by the number of calls already
      made, so that an endpoint may answer the same request differently
      over time; every call is appended to a trace. *)

From Stdlib Require Import ZArith Ascii String List Lia Bool Sorted Permutation.
From stdpp Require Import base option list gmap strings pretty.
Import ListNotations.
Set Warnings "-register-all".
Local Open Scope string_scope.
Local Open Scope Z_scope.

(** ** Exceptions *)

(** A JavaScript [Error] object as far as the sources look at it: the
    class name and the message. *)
Record JsError := mkError { err_name : string; err_message : string }.

Inductive outcome (A : Type) : Type :=
| Ok (a : A)
| Throw (e : JsError).
Arguments Ok {A} a.
Arguments Throw {A} e.

Definition is_ok {A} (o : outcome A) : bool :=
  match o with Ok _ => true | Throw _ => false end.

Definition isSome {A} (o : option A) : bool :=
  match o with Some _ => true | None => false end.

(** ** JavaScript strings *)

Module Js.


(** [String.prototype.toLowerCase] on the ASCII range: on a text of
    ASCII characters this is what the method does. Other characters are
    kept as they are, although the method lower-cases some of them too
    (U+212A KELVIN SIGN becomes "k"): a statement that depends on this
    takes the text to be ASCII. *)
Definition lower_ascii (c : ascii) : ascii :=
  let n := nat_of_ascii c in
  if ((65 <=? n)%nat && (n <=? 90)%nat)%bool then ascii_of_nat (n + 32) else c.

Fixpoint toLowerCase (s : string) : string :=
  match s with
  | EmptyString => EmptyString
  | String c s' => String (lower_ascii c) (toLowerCase s')
  end.

Fixpoint startsWith (s sub : string) : bool :=
  match sub, s with
  | EmptyString, _ => true
  | String _ _, EmptyString => false
  | String b sub', String a s' => (if ascii_dec a b then true else false) && startsWith s' sub'
  end.

(** [String.prototype.includes]. *)
Fixpoint includes (s sub : string) : bool :=
  startsWith s sub ||
  match s with
  | EmptyString => false
  | String _ s' => includes s' sub
  end.

(** [Math.floor(ms / 1000)] *)
Definition unix_seconds (now_ms : Z) : Z := now_ms / 1000.

End Js.

(** ** Rate-limit classification ([src/providers/rate-limiter.ts]) *)

Module RateLimiter.















End RateLimiter.

(** ** Decoded values and events ([src/core/types.ts], [src/abi/decoder.ts]) *)

Module Decoder.

(** Values as they come out of the ABI coder and as they are stored in
    [eventData]. [JResult] is an ethers [Result]: an [Array] subclass
    whose entries may carry a name. Objects hold data only, so a
    property named [toObject] is never callable. *)
Inductive jsval : Type :=
| JUndefined
| JNull
| JBool (b : bool)
| JNumber (n : Z)
| JBigInt (n : Z)
| JString (s : string)
| JArray (xs : list jsval)
| JResult (xs : list (option string * jsval))
| JRecord (props : list (string * jsval)).

Definition Result := list (option string * jsval).

(** [obj[key] = v] on an object kept as its list of own properties in
    insertion order. *)
Fixpoint setProp (key : string) (v : jsval) (obj : list (string * jsval))
  : list (string * jsval) :=
  match obj with
  | [] => [(key, v)]
  | (k, w) :: rest =>
    if String.eqb k key then (k, v) :: rest else (k, w) :: setProp key v rest
  end.

Definition hasProp (key : string) (obj : list (string * jsval)) : bool :=
  existsb (fun kv => String.eqb (fst kv) key) obj.

(** [Result.prototype.toObject()]: an object keyed by the entries'
    names; ethers throws when an entry has no name. *)
Fixpoint toObject (args : Result) (acc : list (string * jsval))
  : outcome (list (string * jsval)) :=
  match args with
  | [] => Ok acc
  | (None, _) :: _ => Throw (mkError "Error" "value at index unnamed")
  | (Some name, v) :: rest => toObject rest (setProp name v acc)
  end.

Definition mapM {A B} (f : A -> outcome B) : list A -> outcome (list B) :=
  fix go (l : list A) : outcome (list B) :=
    match l with
    | [] => Ok []
    | x :: l' =>
      match f x with
      | Throw e => Throw e
      | Ok y => match go l' with Throw e => Throw e | Ok ys => Ok (y :: ys) end
      end
    end.

(** [serializeValue], in the order of its tests: bigint, then
    [Array.isArray] (which a [Result] satisfies), then an object with
    [toObject], then the [_isIndexed]/[_isBigNumber] objects, else the
    value as it is. *)
Fixpoint serializeValue (value : jsval) : outcome jsval :=
  match value with
  | JBigInt n => Ok (JString (pretty n))
  | JArray xs =>
    match mapM serializeValue xs with
    | Throw e => Throw e
    | Ok ys => Ok (JArray ys)
    end
  | JResult xs =>
    match mapM (fun item => serializeValue (snd item)) xs with
    | Throw e => Throw e
    | Ok ys => Ok (JArray ys)
    end
  | JRecord props =>
    if hasProp "toObject" props
    then Throw (mkError "TypeError" "args.toObject is not a function")
    else if hasProp "_isIndexed" props || hasProp "_isBigNumber" props
    then Ok (JString "[object Object]")
    else Ok value
  | _ => Ok value
  end.

(** [serializeEventData]: [toObject()], then every key through
    [serializeValue]. *)
Definition serializeEventData (args : Result) : outcome (list (string * jsval)) :=
  match toObject args [] with
  | Throw e => Throw e
  | Ok obj =>
    mapM (fun kv : string * jsval =>
            match serializeValue (snd kv) with
            | Throw e => Throw e
            | Ok v => Ok (fst kv, v)
            end) obj
  end.

Record Log := mkLog {
  log_address : string;
  log_blockNumber : Z;
  log_transactionHash : string;
  log_index : Z;
  log_topics : list string;
  log_data : string
}.

Record DecodedEvent := mkEvent {
  contractAddress : string;
  blockNumber : Z;
  blockTimestamp : Z;
  transactionHash : string;
  logIndex : Z;
  eventName : string;
  eventData : list (string * jsval)
}.

Record LogDescription := mkParsed { parsed_name : string; parsed_args : Result }.

(** The ethers [Interface], an external collaborator: [parseLog] answers
    [null] for a topic-0 that no event of the ABI has, and throws on data
    that does not decode; [getEvent] gives the topic hash of a named
    event, or [null] when the ABI has no such event, and throws on a
    name that several events of the ABI share or on a signature that does
    not parse. *)
Record Interface := mkInterface {
  parseLog : list string -> string -> outcome (option LogDescription);
  getEvent : string -> outcome (option string)
}.

(** [EventDecoder.decode] before its [try]/[catch]. *)
Definition decode_body (iface : Interface) (log : Log) : outcome (option DecodedEvent) :=
  match parseLog iface (log_topics log) (log_data log) with
  | Throw e => Throw e
  | Ok None => Ok None
  | Ok (Some parsed) =>
    match serializeEventData (parsed_args parsed) with
    | Throw e => Throw e
    | Ok data =>
      Ok (Some {| contractAddress := log_address log;
                  blockNumber := log_blockNumber log;
                  blockTimestamp := 0;
                  transactionHash := log_transactionHash log;
                  logIndex := log_index log;
                  eventName := parsed_name parsed;
                  eventData := data |})
    end
  end.

(** [EventDecoder.decode]: the [catch] turns every exception into
    [null]. *)
Definition decode (iface : Interface) (log : Log) : outcome (option DecodedEvent) :=
  match decode_body iface log with
  | Throw _ => Ok None
  | Ok r => Ok r
  end.

End Decoder.

(** ** Storage ([src/storage/adapter.ts], [src/storage/sqlite.ts]) *)

Module Storage.
Import Decoder.

Definition StorageError (msg : string) : JsError := mkError "StorageError" msg.

(** [JSON.stringify] on a value, as the document that the produced text
    denotes (so that [JSON.parse] of the stored text is the identity on
    it): a bigint throws a [TypeError], [undefined] is dropped from
    objects and becomes [null] in arrays, a [Result] is written as the
    array it is. *)
Definition bigintTypeError : JsError :=
  mkError "TypeError" "Do not know how to serialize a BigInt".

Definition undefinedToNull (v : jsval) : jsval :=
  match v with JUndefined => JNull | _ => v end.

Definition stringifyProps (f : jsval -> outcome jsval)
  : list (string * jsval) -> outcome (list (string * jsval)) :=
  fix go (l : list (string * jsval)) :=
    match l with
    | [] => Ok []
    | (k, v) :: l' =>
      match f v with
      | Throw e => Throw e
      | Ok w =>
        match go l' with
        | Throw e => Throw e
        | Ok ws => Ok (match w with JUndefined => ws | _ => (k, w) :: ws end)
        end
      end
    end.

Fixpoint stringifyValue (v : jsval) : outcome jsval :=
  match v with
  | JBigInt _ => Throw bigintTypeError
  | JArray xs =>
    match mapM (fun x => match stringifyValue x with
                         | Throw e => Throw e
                         | Ok w => Ok (undefinedToNull w)
                         end) xs with
    | Throw e => Throw e
    | Ok ys => Ok (JArray ys)
    end
  | JResult xs =>
    match mapM (fun x : option string * jsval =>
                  match stringifyValue (snd x) with
                  | Throw e => Throw e
                  | Ok w => Ok (undefinedToNull w)
                  end) xs with
    | Throw e => Throw e
    | Ok ys => Ok (JArray ys)
    end
  | JRecord props =>
    match stringifyProps stringifyValue props with
    | Throw e => Throw e
    | Ok ps => Ok (JRecord ps)
    end
  | _ => Ok v
  end.

(** [JSON.stringify(event.eventData)] *)
Definition stringify (eventData : list (string * jsval))
  : outcome (list (string * jsval)) :=
  stringifyProps stringifyValue eventData.

(** A row of [events]; [event_data] holds the JSON document of the TEXT
    column. *)
Record EventRow := mkRow {
  row_id : Z;
  contract_address : string;
  block_number : Z;
  block_timestamp : Z;
  transaction_hash : string;
  log_index : Z;
  event_name : string;
  event_data : list (string * jsval);
  indexed_at : Z
}.

(** A row of [sync_state], keyed by [contract_address]. *)
Record SyncStateRow := mkSync {
  chain_id : Z;
  last_block : Z;
  last_sync : Z;
  status : string
}.

(** The database file: the two tables and the AUTOINCREMENT counter of
    [events]. *)
Record Database := mkDb {
  events : list EventRow;
  events_seq : Z;
  sync_state : gmap string SyncStateRow
}.

(** What [init] creates on a fresh file. *)
Definition emptyDatabase : Database := mkDb [] 0 ∅.

(** [this.db]: [None] before [init] and after [close]. *)
Record SQLiteAdapter := mkAdapter { db : option Database }.

(** [init]: the tables are created only if they do not exist, so the
    content of the file is kept. *)
Definition init (file : Database) : SQLiteAdapter := mkAdapter (Some file).

Definition close (a : SQLiteAdapter) : SQLiteAdapter := mkAdapter None.

(** [db.transaction(fn)]: COMMIT when [fn] returns, ROLLBACK when it
    throws. *)
Definition transaction {A} (fn : Database -> outcome A * Database) (d : Database)
  : outcome A * Database :=
  match fn d with
  | (Ok a, d') => (Ok a, d')
  | (Throw e, _) => (Throw e, d)
  end.

(** UNIQUE(transaction_hash, log_index) *)
Definition conflicts (tx : string) (li : Z) (d : Database) : bool :=
  existsb (fun r => String.eqb (transaction_hash r) tx && Z.eqb (log_index r) li) (events d).

(** [INSERT OR IGNORE INTO events (...) VALUES (...)]: the new database
    and [result.changes]. The id of an AUTOINCREMENT column is taken
    before the UNIQUE constraint is checked, so an ignored row uses up
    an id as well. *)
Definition insertOrIgnore (event : DecodedEvent) (data : list (string * jsval))
    (indexedAt : Z) (d : Database) : Database * Z :=
  if conflicts (transactionHash event) (logIndex event) d
  then (mkDb (events d) (events_seq d + 1) (sync_state d), 0)
  else
    let row := {| row_id := events_seq d + 1;
                  contract_address := contractAddress event;
                  block_number := blockNumber event;
                  block_timestamp := blockTimestamp event;
                  transaction_hash := transactionHash event;
                  log_index := logIndex event;
                  event_name := eventName event;
                  event_data := data;
                  indexed_at := indexedAt |} in
    (mkDb (events d ++ [row]) (events_seq d + 1) (sync_state d), 1).

(** The body of [insertMany]. *)
Fixpoint insertMany (now : Z) (evs : list DecodedEvent) (insertedCount : Z)
    (d : Database) : outcome Z * Database :=
  match evs with
  | [] => (Ok insertedCount, d)
  | event :: rest =>
    match stringify (eventData event) with
    | Throw e => (Throw e, d)
    | Ok data =>
      let '(d', changes) := insertOrIgnore event data (Js.unix_seconds now) d in
      insertMany now rest (if 0 <? changes then insertedCount + 1 else insertedCount) d'
    end
  end.

Definition ensureDb {A} (a : SQLiteAdapter) (k : Database -> outcome A * SQLiteAdapter)
  : outcome A * SQLiteAdapter :=
  match db a with
  | None => (Throw (StorageError "Database not initialized or already closed"), a)
  | Some d => k d
  end.

Definition insertEvents (now : Z) (evs : list DecodedEvent) (a : SQLiteAdapter)
  : outcome Z * SQLiteAdapter :=
  ensureDb a (fun d =>
    if (length evs =? 0)%nat then (Ok 0, a)
    else
      match transaction (insertMany now evs 0) d with
      | (Ok n, d') => (Ok n, mkAdapter (Some d'))
      | (Throw e, d') =>
        (Throw (StorageError ("Failed to insert events: " ++ err_message e)),
         mkAdapter (Some d'))
      end).

Definition getLastSyncedBlock (address : string) (a : SQLiteAdapter)
  : outcome (option Z) * SQLiteAdapter :=
  ensureDb a (fun d => (Ok (last_block <$> sync_state d !! address), a)).

(** [INSERT INTO sync_state ... ON CONFLICT(contract_address) DO UPDATE
    SET last_block, last_sync] *)
Definition upsertSyncState (address : string) (chainId blockNum lastSync : Z)
    (d : Database) : Database :=
  let row :=
    match sync_state d !! address with
    | None => mkSync chainId blockNum lastSync "active"
    | Some old => mkSync (chain_id old) blockNum lastSync (status old)
    end in
  mkDb (events d) (events_seq d) (<[address := row]> (sync_state d)).

(** The [for] loop of [updateTransaction]. *)
Fixpoint insertEach (now : Z) (evs : list DecodedEvent) (d : Database)
  : outcome unit * Database :=
  match evs with
  | [] => (Ok tt, d)
  | event :: rest =>
    match stringify (eventData event) with
    | Throw e => (Throw e, d)
    | Ok data =>
      insertEach now rest (fst (insertOrIgnore event data (Js.unix_seconds now) d))
    end
  end.

Definition updateTransaction (now : Z) (address : string) (chainId blockNum : Z)
    (evs : list DecodedEvent) (d : Database) : outcome unit * Database :=
  let d1 := upsertSyncState address chainId blockNum (Js.unix_seconds now) d in
  if (0 <? length evs)%nat then insertEach now evs d1 else (Ok tt, d1).

Definition updateSyncStateAndInsertEvents (now : Z) (address : string)
    (chainId blockNum : Z) (evs : list DecodedEvent) (a : SQLiteAdapter)
  : outcome unit * SQLiteAdapter :=
  ensureDb a (fun d =>
    match transaction (updateTransaction now address chainId blockNum evs) d with
    | (Ok _, d') => (Ok tt, mkAdapter (Some d'))
    | (Throw e, d') =>
      (Throw (StorageError
                ("Failed to update sync state and insert events: " ++ err_message e)),
       mkAdapter (Some d'))
    end).

Record EventFilter := mkFilter {
  filter_contractAddress : option string;
  filter_eventName : option string;
  filter_fromBlock : option Z;
  filter_toBlock : option Z;
  filter_limit : option Z;
  filter_offset : option Z
}.

(** [if (filter.contractAddress)]: an absent or empty string adds no
    condition. *)
Definition truthy (s : option string) : option string :=
  match s with
  | Some "" => None
  | _ => s
  end.

Definition whereClause (f : EventFilter) (r : EventRow) : bool :=
  match truthy (filter_contractAddress f) with
  | Some a => String.eqb (contract_address r) a | None => true end &&
  match truthy (filter_eventName f) with
  | Some n => String.eqb (event_name r) n | None => true end &&
  match filter_fromBlock f with Some b => b <=? block_number r | None => true end &&
  match filter_toBlock f with Some b => block_number r <=? b | None => true end.

(** ORDER BY block_number ASC, log_index ASC, as an insertion sort. *)
Definition rowLe (r1 r2 : EventRow) : bool :=
  (block_number r1 <? block_number r2) ||
  (Z.eqb (block_number r1) (block_number r2) && (log_index r1 <=? log_index r2)).

Fixpoint insertRow (r : EventRow) (sorted : list EventRow) : list EventRow :=
  match sorted with
  | [] => [r]
  | r' :: rest => if rowLe r r' then r :: sorted else r' :: insertRow r rest
  end.

Definition orderBy (rows : list EventRow) : list EventRow :=
  foldr insertRow [] rows.

(** LIMIT and OFFSET; SQLite reads a negative LIMIT as no limit and a
    negative OFFSET as zero. *)
Definition MAX_SAFE_INTEGER : Z := 9007199254740991.

Definition limitOffset (limit offset : Z) (rows : list EventRow) : list EventRow :=
  let rest := drop (Z.to_nat offset) rows in
  if limit <? 0 then rest else take (Z.to_nat limit) rest.

Definition page (f : EventFilter) (rows : list EventRow) : list EventRow :=
  match filter_limit f, filter_offset f with
  | Some l, Some o => limitOffset l o rows
  | Some l, None => limitOffset l 0 rows
  | None, Some o => limitOffset MAX_SAFE_INTEGER o rows
  | None, None => rows
  end.

Definition rowToEvent (r : EventRow) : DecodedEvent :=
  {| contractAddress := contract_address r;
     blockNumber := block_number r;
     blockTimestamp := block_timestamp r;
     transactionHash := transaction_hash r;
     logIndex := log_index r;
     eventName := event_name r;
     eventData := event_data r |}.

Definition queryEvents (f : EventFilter) (a : SQLiteAdapter)
  : outcome (list DecodedEvent) * SQLiteAdapter :=
  ensureDb a (fun d =>
    (Ok (map rowToEvent (page f (orderBy (List.filter (whereClause f) (events d))))), a)).

Definition byContract (address : string) : EventFilter :=
  mkFilter (Some address) None None None None None.

End Storage.

(** ** Provider pool ([src/providers/provider-pool.ts]) *)

Module Pool.

Record ProviderConfig := mkConfig { cfg_url : string; cfg_priority : Z }.

Record ProviderPoolOptions := mkOptions {
  opt_failureThreshold : option Z;
  opt_cooldownPeriod : option Z
}.

(** [ProviderEntry]; the ethers client it carries is determined by
    [url]. *)
Record ProviderEntry := mkEntry {
  id : string;
  url : string;
  priority : Z;
  healthy : bool;
  consecutiveFailures : Z;
  lastFailure : option Z;
  lastSuccess : option Z;
  lastError : option string
}.

Record ProviderInfo := mkInfo {
  info_id : string;
  info_url : string;
  info_priority : Z
}.

(** The entries are objects shared by [providers] (the Map) and
    [providerList] (the sorted array): [store] holds them in allocation
    order and both containers hold indices into it. *)
Record ProviderPool := mkPool {
  store : list ProviderEntry;
  providers : gmap string nat;
  providerList : list nat;
  failureThreshold : Z;
  cooldownPeriod : Z;
  roundRobinIndex : Z
}.

(** [x | 0]: wrap to a signed 32-bit integer. *)
Definition toInt32 (z : Z) : Z := (z + 2147483648) mod 4294967296 - 2147483648.

(** The loop of [generateProviderId]; [charCodeAt] is the byte for the
    ASCII text of a URL. *)
Fixpoint hashLoop (hash : Z) (u : string) : Z :=
  match u with
  | EmptyString => hash
  | String c rest =>
    let char := Z.of_nat (nat_of_ascii c) in
    hashLoop (toInt32 (toInt32 (Z.shiftl hash 5) - hash + char)) rest
  end.

Definition generateProviderId (u : string) : string :=
  "provider-" ++ pretty (Z.abs (hashLoop 0 u)).

Definition newEntry (config : ProviderConfig) : ProviderEntry :=
  {| id := generateProviderId (cfg_url config);
     url := cfg_url config;
     priority := cfg_priority config;
     healthy := true;
     consecutiveFailures := 0;
     lastFailure := None;
     lastSuccess := None;
     lastError := None |}.

(** [this.providers.set(id, entry)] for every entry in turn: a later
    entry with the same id replaces the earlier one. *)
Fixpoint registerAll (entries : list ProviderEntry) (next : nat) (m : gmap string nat)
  : gmap string nat :=
  match entries with
  | [] => m
  | e :: rest => registerAll rest (S next) (<[id e := next]> m)
  end.

Definition priorityOf (st : list ProviderEntry) (r : nat) : Z :=
  match st !! r with Some e => priority e | None => 0 end.

(** [providerList.sort((a, b) => b.priority - a.priority)]: a stable
    sort, highest priority first. *)
Fixpoint insertByPriority (st : list ProviderEntry) (r : nat) (sorted : list nat)
  : list nat :=
  match sorted with
  | [] => [r]
  | r' :: rest =>
    if priorityOf st r' <=? priorityOf st r then r :: sorted
    else r' :: insertByPriority st r rest
  end.

Definition sortByPriority (st : list ProviderEntry) (refs : list nat) : list nat :=
  foldr (insertByPriority st) [] refs.

Definition constructor (providerConfigs : list ProviderConfig)
    (options : option ProviderPoolOptions) : outcome ProviderPool :=
  if (length providerConfigs =? 0)%nat
  then Throw (mkError "Error" "At least one provider configuration is required")
  else
    let entries := map newEntry providerConfigs in
    Ok {| store := entries;
          providers := registerAll entries 0 ∅;
          providerList := sortByPriority entries (seq 0 (length entries));
          failureThreshold := default 3 (options ≫= opt_failureThreshold);
          cooldownPeriod := default 30000 (options ≫= opt_cooldownPeriod);
          roundRobinIndex := 0 |}.

Definition isHealthy (p : ProviderPool) (r : nat) : bool :=
  match store p !! r with Some e => healthy e | None => false end.

(** [healthyProviders]: the healthy entries in [providerList] order. *)
Definition healthyProviders (p : ProviderPool) : list nat :=
  List.filter (isHealthy p) (providerList p).

Definition pastCooldown (p : ProviderPool) (now : Z) (r : nat) : bool :=
  match store p !! r with
  | Some e =>
    negb (healthy e) &&
    match lastFailure e with
    | Some t => cooldownPeriod p <=? now - t
    | None => false
    end
  | None => false
  end.

(** [bestUnhealthyProvider]: the loop overwrites it, so the last
    candidate in [providerList] order stays. *)
Definition bestUnhealthyProvider (p : ProviderPool) (now : Z) : option nat :=
  last (List.filter (pastCooldown p now) (providerList p)).

Definition basePriority (p : ProviderPool) : Z :=
  match last (healthyProviders p) with
  | Some r => Z.max 0 (priorityOf (store p) r)
  | None => 0
  end.

Definition weight (p : ProviderPool) (r : nat) : Z :=
  Z.max 1 (priorityOf (store p) r - basePriority p + 1).

Definition weightedList (p : ProviderPool) : list nat :=
  flat_map (fun r => replicate (Z.to_nat (weight p r)) r) (healthyProviders p).

Definition infoOf (e : ProviderEntry) : ProviderInfo :=
  mkInfo (id e) (url e) (priority e).

Definition noProviders : JsError := mkError "Error" "No healthy providers available".

Definition getProvider (now : Z) (p : ProviderPool) : outcome ProviderInfo * ProviderPool :=
  if (0 <? length (healthyProviders p))%nat then
    let wl := weightedList p in
    match wl !! Z.to_nat (roundRobinIndex p mod Z.of_nat (length wl)) ≫= (store p !!.) with
    | Some e =>
      (Ok (infoOf e),
       mkPool (store p) (providers p) (providerList p) (failureThreshold p)
              (cooldownPeriod p) (roundRobinIndex p + 1))
    | None => (Throw (mkError "TypeError" "Cannot read properties of undefined"), p)
    end
  else
    match bestUnhealthyProvider p now ≫= (store p !!.) with
    | Some e => (Ok (infoOf e), p)
    | None => (Throw noProviders, p)
    end.

Definition notFound (providerId : string) : JsError :=
  mkError "Error" ("Provider " ++ providerId ++ " not found").

Definition setEntry (p : ProviderPool) (r : nat) (e : ProviderEntry) : ProviderPool :=
  mkPool (<[r := e]> (store p)) (providers p) (providerList p) (failureThreshold p)
         (cooldownPeriod p) (roundRobinIndex p).

Definition reportSuccess (now : Z) (providerId : string) (p : ProviderPool)
  : outcome unit * ProviderPool :=
  match providers p !! providerId ≫= (fun r => pair r <$> store p !! r) with
  | None => (Throw (notFound providerId), p)
  | Some (r, entry) =>
    (Ok tt,
     setEntry p r {| id := id entry; url := url entry; priority := priority entry;
                     healthy := true;
                     consecutiveFailures := 0;
                     lastFailure := lastFailure entry;
                     lastSuccess := Some now;
                     lastError := None |})
  end.

Definition reportFailure (now : Z) (providerId : string) (error : JsError)
    (p : ProviderPool) : outcome unit * ProviderPool :=
  match providers p !! providerId ≫= (fun r => pair r <$> store p !! r) with
  | None => (Throw (notFound providerId), p)
  | Some (r, entry) =>
    let failures := consecutiveFailures entry + 1 in
    (Ok tt,
     setEntry p r {| id := id entry; url := url entry; priority := priority entry;
                     healthy := if failureThreshold p <=? failures then false
                                else healthy entry;
                     consecutiveFailures := failures;
                     lastFailure := Some now;
                     lastSuccess := lastSuccess entry;
                     lastError := Some (err_message error) |})
  end.

(** The copy [getHealthStatus] makes of an entry: [lastError] is left
    out when it is falsy, that is absent or the empty string. *)
Definition healthOf (e : ProviderEntry) : ProviderEntry :=
  {| id := id e; url := url e; priority := priority e;
     healthy := healthy e;
     consecutiveFailures := consecutiveFailures e;
     lastFailure := lastFailure e;
     lastSuccess := lastSuccess e;
     lastError := match lastError e with
                  | Some "" => None
                  | other => other
                  end |}.

(** [getHealthStatus]: a copy of every entry, in [providerList] order. *)
Definition getHealthStatus (p : ProviderPool) : list ProviderEntry :=
  map healthOf (omap (store p !!.) (providerList p)).

(** A call made on the pool, and a run of such calls; a call that throws
    leaves the pool as it was. *)
Inductive call :=
| ReportSuccess (now : Z) (providerId : string)
| ReportFailure (now : Z) (providerId : string) (error : JsError)
| GetProvider (now : Z).

Definition step (p : ProviderPool) (c : call) : ProviderPool :=
  match c with
  | ReportSuccess now i => snd (reportSuccess now i p)
  | ReportFailure now i e => snd (reportFailure now i e p)
  | GetProvider now => snd (getProvider now p)
  end.

Definition run (p : ProviderPool) (calls : list call) : ProviderPool :=
  fold_left step calls p.

(** The number of failures reported for [providerId] since the last
    success reported for it, [acc] being the number before [calls]. *)
Fixpoint streak (providerId : string) (calls : list call) (acc : Z) : Z :=
  match calls with
  | [] => acc
  | ReportSuccess _ i :: rest =>
    streak providerId rest (if String.eqb i providerId then 0 else acc)
  | ReportFailure _ i _ :: rest =>
    streak providerId rest (if String.eqb i providerId then acc + 1 else acc)
  | GetProvider _ :: rest => streak providerId rest acc
  end.

(** The weight the specification gives a healthy endpoint:
    [max(1, priority − min_priority + 1)], [min_priority] being the
    lowest priority among the healthy endpoints. *)
Definition minPriority (p : ProviderPool) : Z :=
  match healthyProviders p with
  | [] => 0
  | r :: rest => fold_left Z.min (map (priorityOf (store p)) rest) (priorityOf (store p) r)
  end.

Definition specWeight (p : ProviderPool) (r : nat) : Z :=
  Z.max 1 (priorityOf (store p) r - minPriority p + 1).

End Pool.

(** ** Event fetcher ([src/core/event-fetcher.ts]) *)

Module Fetcher.
Import Decoder.

(** The filter of one [getLogs] call; [topics] is the inner list of
    [[topics]]. *)
Record LogFilter := mkLogFilter {
  address : string;
  topics : list string;
  fromBlock : Z;
  toBlock : Z
}.

Record Block := mkBlock { timestamp : Z }.

Inductive rpc :=
| GetLogs (f : LogFilter)
| GetBlock (blockNum : Z)
| GetBlockNumber.

(** An RPC endpoint: what it answers to a call, given how many calls
    were made before. *)
Record Provider := mkProvider {
  getLogs : nat -> LogFilter -> outcome (list Log);
  getBlock : nat -> Z -> outcome (option Block);
  getBlockNumber : nat -> outcome Z
}.

Record EventFetcher := mkFetcher {
  providerId : string;
  decoder : Interface;
  initialChunkSize : Z;
  blockRangeLimits : gmap string Z;
  blockTimestampCache : gmap Z Z
}.

(** [new EventFetcher(provider, providerId, decoder, logger, initialChunkSize)] *)
Definition new (pid : string) (dec : Interface) (initial : Z) : EventFetcher :=
  mkFetcher pid dec initial ∅ ∅.

(** The errors thrown by the endpoints are [Error] instances, so
    [isBlockRangeError] goes on to the message. *)
Definition isBlockRangeError (error : JsError) : bool :=
  let message := Js.toLowerCase (err_message error) in
  Js.includes message "block range" ||
  Js.includes message "query returned more than" ||
  Js.includes message "exceeds max".

(** [this.blockRangeLimits.get(this.providerId) ?? this.initialChunkSize] *)
Definition currentChunkSize (fx : EventFetcher) : Z :=
  default (initialChunkSize fx) (blockRangeLimits fx !! providerId fx).

Definition resolveTopics (dec : Interface) (eventNames : list string)
  : outcome (list string) :=
  mapM (fun name =>
          match getEvent dec name with
          | Throw e => Throw e
          | Ok None =>
            Throw (mkError "Error" ("Event " ++ name ++ " not found in contract interface"))
          | Ok (Some topicHash) => Ok topicHash
          end) eventNames.

(** The variables of the [while] loop of [fetchEvents], with the
    fetcher's limit map and the trace of calls made so far. *)
Record LoopState := mkLoop {
  chunkSize : Z;
  currentBlock : Z;
  allLogs : list Log;
  limits : gmap string Z;
  trace : list rpc
}.

Inductive iteration :=
| Continue (s : LoopState)
| Exit (s : LoopState)
| Rethrow (e : JsError) (s : LoopState).

(** The loop test and one run of the loop body. *)
Definition loopBody (P : Provider) (pid contractAddress : string)
    (topicHashes : list string) (upTo : Z) (s : LoopState) : iteration :=
  if currentBlock s <=? upTo then
    let rangeEnd := Z.min (currentBlock s + chunkSize s - 1) upTo in
    let f := mkLogFilter contractAddress topicHashes (currentBlock s) rangeEnd in
    let tr := (trace s ++ [GetLogs f])%list in
    match getLogs P (length (trace s)) f with
    | Ok logs =>
      Continue (mkLoop (chunkSize s) (rangeEnd + 1) (allLogs s ++ logs) (limits s) tr)
    | Throw error =>
      if isBlockRangeError error then
        let newChunkSize := Z.max (chunkSize s / 2) 100 in
        Continue (mkLoop newChunkSize (currentBlock s) (allLogs s)
                         (<[pid := newChunkSize]> (limits s)) tr)
      else Rethrow error (mkLoop (chunkSize s) (currentBlock s) (allLogs s) (limits s) tr)
    end
  else Exit s.

(** The [while] loop; [None] when [fuel] iterations were not enough. *)
Fixpoint loop (fuel : nat) (P : Provider) (pid contractAddress : string)
    (topicHashes : list string) (upTo : Z) (s : LoopState)
  : option (outcome unit * LoopState) :=
  match fuel with
  | O => None
  | S fuel' =>
    match loopBody P pid contractAddress topicHashes upTo s with
    | Continue s' => loop fuel' P pid contractAddress topicHashes upTo s'
    | Exit s' => Some (Ok tt, s')
    | Rethrow e s' => Some (Throw e, s')
    end
  end.

(** [[...new Set(xs)]]: the first occurrence of every value, in order. *)
Fixpoint uniqueFrom (seen : list Z) (xs : list Z) : list Z :=
  match xs with
  | [] => []
  | x :: rest =>
    if existsb (Z.eqb x) seen then uniqueFrom seen rest
    else x :: uniqueFrom (x :: seen) rest
  end.

(** [retry(() => provider.getBlock(blockNum), {retries})]: one attempt
    and up to [retries] more. The retry library's own rules on which
    errors end the attempts early are not modelled, so that the number of
    [getBlock] calls made here is an upper bound only; no statement reads
    it. *)
Fixpoint retryGetBlock (retries : nat) (P : Provider) (blockNum : Z) (tr : list rpc)
  : outcome (option Block) * list rpc :=
  let tr' := (tr ++ [GetBlock blockNum])%list in
  match getBlock P (length tr) blockNum with
  | Ok b => (Ok b, tr')
  | Throw e =>
    match retries with
    | O => (Throw e, tr')
    | S k => retryGetBlock k P blockNum tr'
    end
  end.

(** [Promise.all(uncachedBlockNumbers.map(async blockNum => ...))], the
    callbacks run one after the other: every block is asked for, the
    answers go to the cache, and the first rejection is the result. The
    source starts the callbacks together, so their [getBlock] calls may
    interleave; the order of these calls is not modelled and no statement
    reads it. *)
Fixpoint fetchTimestamps (P : Provider) (blocks : list Z) (cache : gmap Z Z)
    (tr : list rpc) (failed : option JsError)
  : outcome unit * gmap Z Z * list rpc :=
  match blocks with
  | [] => (match failed with Some e => Throw e | None => Ok tt end, cache, tr)
  | blockNum :: rest =>
    match retryGetBlock 3 P blockNum tr with
    | (Ok (Some block), tr') =>
      fetchTimestamps P rest (<[blockNum := timestamp block]> cache) tr' failed
    | (Ok None, tr') => fetchTimestamps P rest cache tr' failed
    | (Throw e, tr') =>
      fetchTimestamps P rest cache tr'
                      (match failed with Some _ => failed | None => Some e end)
    end
  end.

(** The decode loop of [enrichWithTimestamps]. *)
Fixpoint decodeAll (dec : Interface) (cache : gmap Z Z) (logs : list Log)
  : outcome (list DecodedEvent) :=
  match logs with
  | [] => Ok []
  | log :: rest =>
    match decode dec log with
    | Throw e => Throw e
    | Ok decoded =>
      match decodeAll dec cache rest with
      | Throw e => Throw e
      | Ok enriched =>
        match decoded with
        | None => Ok enriched
        | Some decodedEvent =>
          match cache !! log_blockNumber log with
          | None => Ok enriched
          | Some ts =>
            Ok ({| contractAddress := contractAddress decodedEvent;
                   blockNumber := blockNumber decodedEvent;
                   blockTimestamp := ts;
                   transactionHash := transactionHash decodedEvent;
                   logIndex := logIndex decodedEvent;
                   eventName := eventName decodedEvent;
                   eventData := eventData decodedEvent |} :: enriched)
          end
        end
      end
    end
  end.

Definition enrichWithTimestamps (P : Provider) (fx : EventFetcher) (logs : list Log)
    (tr : list rpc) : outcome (list DecodedEvent) * EventFetcher * list rpc :=
  if (length logs =? 0)%nat then (Ok [], fx, tr)
  else
    let uniqueBlockNumbers := uniqueFrom [] (map log_blockNumber logs) in
    let uncachedBlockNumbers :=
      List.filter (fun blockNum => negb (isSome (blockTimestampCache fx !! blockNum)))
                  uniqueBlockNumbers in
    let '(fetched, cache, tr') :=
      if (0 <? length uncachedBlockNumbers)%nat
      then fetchTimestamps P uncachedBlockNumbers (blockTimestampCache fx) tr None
      else (Ok tt, blockTimestampCache fx, tr) in
    let fx' := mkFetcher (providerId fx) (decoder fx) (initialChunkSize fx)
                         (blockRangeLimits fx) cache in
    match fetched with
    | Throw e => (Throw e, fx', tr')
    | Ok _ => (decodeAll (decoder fx) cache logs, fx', tr')
    end.

Definition fetchEvents (fuel : nat) (P : Provider) (fx : EventFetcher)
    (contractAddress : string) (eventNames : list string) (from upTo : Z)
    (tr : list rpc)
  : option (outcome (list DecodedEvent) * EventFetcher * list rpc) :=
  let chunk := currentChunkSize fx in
  match resolveTopics (decoder fx) eventNames with
  | Throw e => Some (Throw e, fx, tr)
  | Ok topicHashes =>
    match loop fuel P (providerId fx) contractAddress topicHashes upTo
               (mkLoop chunk from [] (blockRangeLimits fx) tr) with
    | None => None
    | Some (result, s) =>
      let fx1 := mkFetcher (providerId fx) (decoder fx) (initialChunkSize fx)
                           (limits s) (blockTimestampCache fx) in
      match result with
      | Throw e => Some (Throw e, fx1, trace s)
      | Ok _ => Some (enrichWithTimestamps P fx1 (allLogs s) (trace s))
      end
    end
  end.

Definition getLogsCalls (tr : list rpc) : list (Z * Z) :=
  omap (fun c => match c with
                 | GetLogs f => Some (fromBlock f, toBlock f)
                 | _ => None
                 end) tr.

Definition getBlockCalls (tr : list rpc) : list Z :=
  omap (fun c => match c with GetBlock n => Some n | _ => None end) tr.

End Fetcher.

(** ** Indexer ([src/core/indexer.ts], [src/cli/config.ts]) *)

Module Indexer.
Import Decoder.

Inductive Chain := ethereum | polygon | arbitrum | optimism | base | bsc.

Definition CHAIN_IDS (c : Chain) : Z :=
  match c with
  | ethereum => 1
  | polygon => 137
  | arbitrum => 42161
  | optimism => 10
  | base => 8453
  | bsc => 56
  end.

Record ContractConfig := mkContract {
  address : string;
  name : option string;
  events : list string;
  from_block : option Z;
  abi : option string
}.

Record OptionsConfig := mkOptionsConfig {
  batch_size : Z;
  confirmations : Z;
  poll_interval : Z;
  max_retries : Z
}.

Record Config := mkConfig {
  chain : Chain;
  options : OptionsConfig
}.

Definition RPCError (msg : string) : JsError := mkError "RPCError" msg.

(** The collaborators outside the process: the endpoint behind every
    provider url and the ABI fetcher. *)
Record World := mkWorld {
  endpoint : string -> Fetcher.Provider;
  getABI : string -> Z -> option string -> outcome Interface
}.

(** The objects the indexer holds, and the trace of RPC calls. *)
Record State := mkState {
  storage : Storage.SQLiteAdapter;
  providerPool : Pool.ProviderPool;
  trace : list Fetcher.rpc
}.

(** The start of [watchContract]: "Get or initialize from_block". *)
Definition startBlock (W : World) (now : Z) (contractConfig : ContractConfig)
    (st : State) : outcome Z * State :=
  let contractAddress := Js.toLowerCase (address contractConfig) in
  match from_block contractConfig with
  | None =>
    match Pool.getProvider now (providerPool st) with
    | (Throw e, pool) => (Throw e, mkState (storage st) pool (trace st))
    | (Ok provider, pool) =>
      let tr := (trace st ++ [Fetcher.GetBlockNumber])%list in
      let attempt :=
        match Fetcher.getBlockNumber (endpoint W (Pool.info_url provider))
                                     (length (trace st)) with
        | Throw e => (Throw e, pool)
        | Ok head =>
          match Pool.reportSuccess now (Pool.info_id provider) pool with
          | (Throw e, pool') => (Throw e, pool')
          | (Ok _, pool') => (Ok head, pool')
          end
        end in
      match attempt with
      | (Ok head, pool') => (Ok head, mkState (storage st) pool' tr)
      | (Throw error, pool') =>
        match Pool.reportFailure now (Pool.info_id provider) error pool' with
        | (Throw e, pool'') => (Throw e, mkState (storage st) pool'' tr)
        | (Ok _, pool'') =>
          (Throw (RPCError ("Failed to get current block number: " ++ err_message error)),
           mkState (storage st) pool'' tr)
        end
      end
    end
  | Some configured =>
    match Storage.getLastSyncedBlock contractAddress (storage st) with
    | (Throw e, _) => (Throw e, st)
    | (Ok lastSyncedBlock, _) =>
      (Ok (match lastSyncedBlock with
           | Some lastSynced =>
             if configured <=? lastSynced then lastSynced + 1 else configured
           | None => configured
           end), st)
    end
  end.

(** [indexBlocks]; [None] when the fetch loop needs more than [fuel]
    iterations. *)
Definition indexBlocks (fuel : nat) (W : World) (config : Config) (now : Z)
    (contractConfig : ContractConfig) (from upTo : Z) (st : State)
  : option (outcome unit * State) :=
  let chainId := CHAIN_IDS (chain config) in
  let contractAddress := Js.toLowerCase (address contractConfig) in
  match Pool.getProvider now (providerPool st) with
  | (Throw e, pool) => Some (Throw e, mkState (storage st) pool (trace st))
  | (Ok provider, pool) =>
    let st0 := mkState (storage st) pool (trace st) in
    let attempt :=
      match getABI W contractAddress chainId (abi contractConfig) with
      | Throw e => Some (Throw e, st0)
      | Ok iface =>
        let fetcher := Fetcher.new (Pool.info_id provider) iface
                                   (batch_size (options config)) in
        match Fetcher.fetchEvents fuel (endpoint W (Pool.info_url provider)) fetcher
                                  contractAddress (events contractConfig) from upTo
                                  (trace st) with
        | None => None
        | Some (Throw e, _, tr) => Some (Throw e, mkState (storage st) pool tr)
        | Some (Ok evs, _, tr) =>
          match Pool.reportSuccess now (Pool.info_id provider) pool with
          | (Throw e, pool') => Some (Throw e, mkState (storage st) pool' tr)
          | (Ok _, pool') =>
            match Storage.updateSyncStateAndInsertEvents now contractAddress chainId
                                                         upTo evs (storage st) with
            | (Throw e, a) => Some (Throw e, mkState a pool' tr)
            | (Ok _, a) => Some (Ok tt, mkState a pool' tr)
            end
          end
        end
      end in
    match attempt with
    | None => None
    | Some (Ok _, st') => Some (Ok tt, st')
    | Some (Throw error, st') =>
      match Pool.reportFailure now (Pool.info_id provider) error (providerPool st') with
      | (Throw e, pool') => Some (Throw e, mkState (storage st') pool' (trace st'))
      | (Ok _, pool') =>
        Some (Throw (RPCError ("Failed to index blocks: " ++ err_message error)),
              mkState (storage st') pool' (trace st'))
      end
    end
  end.

End Indexer.


(** ** Fixtures of the scenarios *)

Module Scenarios.
Import Decoder.

(** [s.padStart(width, "0")] *)
Definition padStart0 (width : nat) (s : string) : string :=
  String.concat "" (replicate (width - String.length s) "0") ++ s.

(** The batch of the storage tests: event [i] of contract ["0x1234"] at
    block [100 + i], with transaction hash [i] padded to 64 digits and
    log index [i]. *)
Definition transferEvent (i : nat) : DecodedEvent :=
  {| contractAddress := "0x1234";
     blockNumber := 100 + Z.of_nat i;
     blockTimestamp := 1700000000 + Z.of_nat i;
     transactionHash := "0x" ++ padStart0 64 (pretty i);
     logIndex := Z.of_nat i;
     eventName := "Transfer";
     eventData := [("from", JString "0x111"); ("to", JString "0x222");
                   ("amount", JString (pretty i))] |}.

Definition hundredEvents : list DecodedEvent := map transferEvent (seq 0 100).

(** The two events of the atomic-commit test, at blocks 100 and 101. *)
Definition eventAt100 : DecodedEvent :=
  mkEvent "0x1234" 100 1700000000 "0xabc" 0 "Transfer" [("amount", JString "100")].

Definition eventAt101 : DecodedEvent :=
  mkEvent "0x1234" 101 1700000010 "0xdef" 0 "Transfer" [("amount", JString "200")].

(** An event whose payload still holds a bigint, which
    [JSON.stringify] refuses. *)
Definition eventWithBigInt : DecodedEvent :=
  mkEvent "0x1234" 102 1700000020 "0x123" 0 "Transfer" [("amount", JBigInt 300)].

Definition rowCount (a : Storage.SQLiteAdapter) : Z :=
  match Storage.db a with
  | Some d => Z.of_nat (length (Storage.events d))
  | None => 0
  end.

End Scenarios.

(** ** Vocabulary of the statements *)

Module StorageSpec.
Import Decoder Storage.

(** The key of [event] is in the [events] table. *)
Definition keyed (d : Database) (event : DecodedEvent) : Prop :=
  conflicts (transactionHash event) (logIndex event) d = true.

(** Row [r] holds [event]. *)
Definition rowOf (event : DecodedEvent) (r : EventRow) : Prop :=
  contract_address r = contractAddress event /\
  block_number r = blockNumber event /\
  block_timestamp r = blockTimestamp event /\
  transaction_hash r = transactionHash event /\
  log_index r = logIndex event /\
  event_name r = eventName event.

(** What a run of INSERT OR IGNORE statements may do to a database: the
    old rows stay in place, the added rows come from the batch, and
    [sync_state] is not touched. *)
Record extends (evs : list DecodedEvent) (d d' : Database) : Prop := {
  ext_rows : exists added,
      events d' = (events d ++ added)%list /\
      Forall (fun r => exists event, In event evs /\ rowOf event r) added;
  ext_sync : sync_state d' = sync_state d
}.

Definition stringifiable (event : DecodedEvent) : Prop :=
  is_ok (stringify (eventData event)) = true.

End StorageSpec.

Module PoolSpec.
Import Pool.

(** What never changes in an entry. *)
Definition static (e : ProviderEntry) : string * string * Z :=
  (id e, url e, priority e).

Definition higherFirst (st : list ProviderEntry) (a b : nat) : Prop :=
  priorityOf st b <= priorityOf st a.

(** The shape the constructor gives a pool: the Map sends an id to an
    entry with that id, and [providerList] names every entry once,
    highest priority first. *)
Record wellFormed (p : ProviderPool) : Prop := {
  wf_map : forall i r, providers p !! i = Some r -> id <$> store p !! r = Some i;
  wf_sorted : StronglySorted (higherFirst (store p)) (providerList p);
  wf_nodup : NoDup (providerList p);
  wf_refs : Forall (fun r => (r < length (store p))%nat) (providerList p)
}.

(** [p] is [p0] after some calls: the containers and options are those
    of [p0] and the entries differ in their health fields only. *)
Record sameShape (p0 p : ProviderPool) : Prop := {
  same_static : map static (store p) = map static (store p0);
  same_map : providers p = providers p0;
  same_list : providerList p = providerList p0;
  same_threshold : failureThreshold p = failureThreshold p0;
  same_cooldown : cooldownPeriod p = cooldownPeriod p0
}.

(** The health rule of an entry: the flag is lowered by a failure
    report that brings the count to the threshold, and by nothing else. *)
Definition healthRule (threshold : Z) (e : ProviderEntry) : Prop :=
  0 <= consecutiveFailures e /\
  (healthy e = false <->
   0 < consecutiveFailures e /\ threshold <= consecutiveFailures e).

End PoolSpec.

Module FetcherSpec.
Import Decoder Fetcher.

(** The loop state after at most [n] runs of the loop body, for looking
    at a loop that has not finished. *)
Fixpoint runLoop (n : nat) (P : Provider) (pid contractAddress : string)
    (topicHashes : list string) (upTo : Z) (s : LoopState) : LoopState :=
  match n with
  | O => s
  | S k =>
    match loopBody P pid contractAddress topicHashes upTo s with
    | Continue s' => runLoop k P pid contractAddress topicHashes upTo s'
    | Exit s' => s'
    | Rethrow _ s' => s'
    end
  end.

(** The lifetime of a fetcher: [evolves P fx fx'] when [fx'] is [fx]
    after some [fetchEvents] calls that returned or threw. *)
Inductive evolves (P : Provider) : EventFetcher -> EventFetcher -> Prop :=
| evolves_refl fx : evolves P fx fx
| evolves_call fx fx1 fx2 fuel contractAddress eventNames from upTo tr result tr' :
    evolves P fx fx1 ->
    fetchEvents fuel P fx1 contractAddress eventNames from upTo tr
      = Some (result, fx2, tr') ->
    evolves P fx fx2.

(** [Math.max(Math.floor(chunkSize / 2), 100)] *)
Definition halve (c : Z) : Z := Z.max (c / 2) 100.

(** What the loop keeps true of the chunk size and of the limit cached
    for the provider, [chunk0] and [cached0] being their values when
    the loop starts. *)
Definition shrinking (pid : string) (chunk0 : Z) (cached0 : option Z) (s : LoopState)
  : Prop :=
  100 <= chunkSize s <= chunk0 /\
  (limits s !! pid = cached0 \/ limits s !! pid = Some (chunkSize s)).

(** An endpoint that refuses the first [failures] calls with
    "block range too large" and then finds no log, and one that always
    refuses. *)
Definition rangeTooLarge : JsError := mkError "Error" "block range too large".

Definition refusing (failures : nat) : Provider :=
  mkProvider (fun n _ => if (n <? failures)%nat then Throw rangeTooLarge else Ok [])
             (fun _ _ => Ok (Some (mkBlock 1700000000)))
             (fun _ => Ok 17002012).

Definition alwaysRefusing : Provider :=
  mkProvider (fun _ _ => Throw rangeTooLarge)
             (fun _ _ => Ok (Some (mkBlock 1700000000)))
             (fun _ => Ok 17002012).

Definition transferTopic : string :=
  "0xddf252ad1be2c89b69c2b068fc378daa952ba7f163c4a11628f55a4df523b3ef".

(** An interface that knows the event [Transfer] only. *)
Definition transferOnly : Interface :=
  mkInterface (fun _ _ => Ok None)
              (fun name => Ok (if String.eqb name "Transfer" then Some transferTopic
                               else None)).

End FetcherSpec.

Module IndexerSpec.
Import Decoder Fetcher FetcherSpec Indexer.

(** A world whose endpoints find no log, and in which the ABI of every
    contract is [transferOnly]. *)
Definition quietWorld : World :=
  mkWorld (fun _ => refusing 0) (fun _ _ _ => Ok transferOnly).

Definition mainnet : Config :=
  Indexer.mkConfig ethereum (mkOptionsConfig 2000 12 15000 5).

Definition uniToken : ContractConfig :=
  mkContract "0x1f9840a85d5aF5bf1D1762F925BDADdC4201F984" (Some "UNI Token")
             ["Transfer"] (Some 17000000) None.

Definition localProviders : list Pool.ProviderConfig :=
  [Pool.mkConfig "http://localhost:8545" 1; Pool.mkConfig "http://localhost:8546" 2].

(** [new ProviderPool(localProviders)] *)
Definition localPool : Pool.ProviderPool :=
  match Pool.constructor localProviders None with
  | Ok p => p
  | Throw _ => Pool.mkPool [] ∅ [] 3 30000 0
  end.

(** A store in which the contract was synced up to block 17000500. *)
Definition resumed : State :=
  mkState (snd (Storage.updateSyncStateAndInsertEvents
                  1700000000000 (Js.toLowerCase (address uniToken)) 1 17000500 []
                  (Storage.init Storage.emptyDatabase)))
          localPool [].

Definition connectionRefused : JsError := mkError "Error" "connect ECONNREFUSED".

End IndexerSpec.

(** ** Timeout classification ([src/providers/rate-limiter.ts]) *)

Module TimeoutErrors.
Import RateLimiter.







End TimeoutErrors.

(** ** Runs of storage calls *)

Module StorageRun.
Import Decoder Storage.

Inductive storageCall :=
| InsertEvents (now : Z) (evs : list DecodedEvent)
| Commit (now : Z) (address : string) (chainId blockNum : Z) (evs : list DecodedEvent).

Definition storageStep (a : SQLiteAdapter) (c : storageCall) : SQLiteAdapter :=
  match c with
  | InsertEvents now evs => snd (insertEvents now evs a)
  | Commit now address chainId blockNum evs =>
    snd (updateSyncStateAndInsertEvents now address chainId blockNum evs a)
  end.

Definition storageRun (a : SQLiteAdapter) (calls : list storageCall) : SQLiteAdapter :=
  fold_left storageStep calls a.

Definition rowKey (r : EventRow) : string * Z := (transaction_hash r, log_index r).

Definition eventKey (event : DecodedEvent) : string * Z :=
  (transactionHash event, logIndex event).

(** UNIQUE(transaction_hash, log_index) holds of the table. *)
Definition uniqueKeys (d : Database) : Prop := NoDup (map rowKey (events d)).

(** The shape of the [events] table: the keys are unique, the row ids
    increase in insertion order, and every id is positive and at most
    the AUTOINCREMENT counter. *)
Definition tableOk (d : Database) : Prop :=
  uniqueKeys d /\
  StronglySorted Z.lt (map row_id (events d)) /\
  Forall (fun r => 0 < row_id r <= events_seq d) (events d) /\
  0 <= events_seq d.

Definition adapterOk (a : SQLiteAdapter) : Prop :=
  match db a with Some d => tableOk d | None => False end.

(** The order of ORDER BY block_number ASC, log_index ASC, on events. *)
Definition eventLe (e1 e2 : DecodedEvent) : Prop :=
  blockNumber e1 < blockNumber e2 \/
  (blockNumber e1 = blockNumber e2 /\ logIndex e1 <= logIndex e2).

Definition rowLeP (r1 r2 : EventRow) : Prop := rowLe r1 r2 = true.

(** An event passes the filter. *)
Definition passes (f : EventFilter) (event : DecodedEvent) : Prop :=
  (forall a, filter_contractAddress f = Some a -> a <> "" -> contractAddress event = a) /\
  (forall n, filter_eventName f = Some n -> n <> "" -> eventName event = n) /\
  (forall b, filter_fromBlock f = Some b -> b <= blockNumber event) /\
  (forall b, filter_toBlock f = Some b -> blockNumber event <= b).

(** [q] is [event] as a query returns it once stored: the same fields,
    the payload being what [JSON.stringify] wrote. *)
Definition storedAs (event q : DecodedEvent) : Prop :=
  contractAddress q = contractAddress event /\
  blockNumber q = blockNumber event /\
  blockTimestamp q = blockTimestamp event /\
  transactionHash q = transactionHash event /\
  logIndex q = logIndex event /\
  eventName q = eventName event /\
  stringify (eventData event) = Ok (eventData q).

Definition closedError : JsError :=
  StorageError "Database not initialized or already closed".

Definition noFilter : EventFilter := mkFilter None None None None None None.


(** A fresh store after the insertion of the hundred events, last
    block first. *)
Definition reversedStore : SQLiteAdapter :=
  snd (insertEvents 1700000000000 (rev Scenarios.hundredEvents) (init emptyDatabase)).

(** Transfers of the contract in blocks 110 to 150, ten of them after
    the first five. *)
Definition someTransfers : EventFilter :=
  mkFilter (Some "0x1234") (Some "Transfer") (Some 110) (Some 150) (Some 10) (Some 5).


End StorageRun.

(** ** The polling loop of [watchContract] ([src/core/indexer.ts]) *)

Module Poll.
Import Decoder Indexer.

(** One run of [pollLoop] while [this.running] holds, up to the
    scheduling of the next run: the new [currentBlock] and the state. Every
    exception is caught and logged; [None] when the fetch loop needs more
    than [fuel] iterations. *)
Definition pollLoop (fuel : nat) (W : World) (config : Config) (now : Z)
    (contractConfig : ContractConfig) (currentBlock : Z) (st : State)
  : option (Z * State) :=
  match Pool.getProvider now (providerPool st) with
  | (Throw _, pool) => Some (currentBlock, mkState (storage st) pool (trace st))
  | (Ok provider, pool) =>
    let tr := (trace st ++ [Fetcher.GetBlockNumber])%list in
    let attempt :=
      match Fetcher.getBlockNumber (endpoint W (Pool.info_url provider))
                                   (length (trace st)) with
      | Throw e => Some (Throw e, mkState (storage st) pool tr)
      | Ok latestBlock =>
        match Pool.reportSuccess now (Pool.info_id provider) pool with
        | (Throw e, pool') => Some (Throw e, mkState (storage st) pool' tr)
        | (Ok _, pool') =>
          let targetBlock := latestBlock - confirmations (options config) in
          let st1 := mkState (storage st) pool' tr in
          if currentBlock <=? targetBlock then
            match indexBlocks fuel W config now contractConfig currentBlock targetBlock
                              st1 with
            | None => None
            | Some (Throw e, st2) => Some (Throw e, st2)
            | Some (Ok _, st2) => Some (Ok (targetBlock + 1), st2)
            end
          else Some (Ok currentBlock, st1)
        end
      end in
    match attempt with
    | None => None
    | Some (Ok next, st') => Some (next, st')
    | Some (Throw error, st') =>
      let '(_, pool') :=
        Pool.reportFailure now (Pool.info_id provider) error (providerPool st') in
      Some (currentBlock, mkState (storage st') pool' (trace st'))
    end
  end.

(** The runs of [pollLoop] at the clock readings [ticks], one after the
    other, for one watched contract: no other watcher uses the pool or
    the storage in between. *)
Fixpoint pollLoops (fuel : nat) (W : World) (config : Config) (ticks : list Z)
    (contractConfig : ContractConfig) (currentBlock : Z) (st : State)
  : option (Z * State) :=
  match ticks with
  | [] => Some (currentBlock, st)
  | now :: rest =>
    match pollLoop fuel W config now contractConfig currentBlock st with
    | None => None
    | Some (next, st') => pollLoops fuel W config rest contractConfig next st'
    end
  end.

(** The stored [last_block] of the contract, if any. *)
Definition lastBlockOf (contractConfig : ContractConfig) (st : State) : option Z :=
  match Storage.db (storage st) with
  | Some d =>
    Storage.last_block <$>
      Storage.sync_state d !! Js.toLowerCase (address contractConfig)
  | None => None
  end.

End Poll.

(** ** Vocabulary for the polling loop *)

Module PollSpec.
Import Pool Decoder Fetcher FetcherSpec Indexer.

(** A pool of one endpoint, whose entry is [e]. *)
Definition sole (p : ProviderPool) (e : ProviderEntry) : Prop :=
  store p = [e] /\ providers p !! id e = Some 0%nat /\ providerList p = [0%nat].

(** A pool of one endpoint with id [i] and URL [u], healthy, with at
    most [n] consecutive failures and a threshold of at least 3. *)
Definition soleHealthy (i u : string) (n : Z) (p : ProviderPool) : Prop :=
  exists e, sole p e /\ id e = i /\ url e = u /\ healthy e = true /\
            consecutiveFailures e <= n /\ 3 <= failureThreshold p.

(** An endpoint that tells its head but answers every [getLogs] call
    with a connection error. *)
Definition brokenLogs : Provider :=
  mkProvider (fun _ _ => Throw (mkError "Error" "connect ECONNREFUSED"))
             (fun _ _ => Ok (Some (mkBlock 1700000000)))
             (fun _ => Ok 17002012).

Definition brokenLogsWorld : World :=
  mkWorld (fun _ => brokenLogs) (fun _ _ _ => Ok transferOnly).

(** A contract watched from the head: [from_block: null]. *)
Definition fromHead : ContractConfig :=
  mkContract "0x1f9840a85d5aF5bf1D1762F925BDADdC4201F984" (Some "UNI Token")
             ["Transfer"] None None.

(** A world whose endpoints refuse the first [getLogs] call with a range
    error and find no log afterwards. *)
Definition refusingOnceWorld : World :=
  mkWorld (fun _ => refusing 1) (fun _ _ _ => Ok transferOnly).

Definition soloProvider : ProviderConfig := Pool.mkConfig "http://localhost:8545" 1.

Definition soloPool : ProviderPool :=
  match constructor [soloProvider] None with
  | Ok p => p
  | Throw _ => mkPool [] ∅ [] 3 30000 0
  end.

(** A store in which the contract was synced up to block 17000500, with
    the pool of one endpoint. *)
Definition soloState : State :=
  mkState (storage IndexerSpec.resumed) soloPool [].

End PollSpec.

(** ** Vocabulary for decoded values and fetch windows *)

Module DecoderSpec.
Import Decoder.

(** Values as the ABI coder builds them: bigints, strings, numbers,
    booleans, arrays and [Result]s of such; no plain objects. *)
Fixpoint abiValue (v : jsval) : bool :=
  match v with
  | JRecord _ => false
  | JArray xs => forallb abiValue xs
  | JResult xs => forallb (fun item => abiValue (snd item)) xs
  | _ => true
  end.

End DecoderSpec.

Module WindowSpec.
Import Decoder Fetcher.

(** [tiles chunk from upTo ws]: the windows [ws] cover [from..upTo] in
    order, without gap or overlap, each being [chunk] blocks wide except
    the last, which ends at [upTo]. *)
Inductive tiles (chunk : Z) : Z -> Z -> list (Z * Z) -> Prop :=
| tiles_done from upTo : upTo < from -> tiles chunk from upTo []
| tiles_step from upTo rangeEnd rest :
    from <= upTo ->
    rangeEnd = Z.min (from + chunk - 1) upTo ->
    tiles chunk (rangeEnd + 1) upTo rest ->
    tiles chunk from upTo ((from, rangeEnd) :: rest).

Definition window (f : LogFilter) : Z * Z := (fromBlock f, toBlock f).

(** An interface with two events named [Transfer]: the bare name is
    ambiguous and [getEvent] throws on it. *)
Definition overloaded : Interface :=
  mkInterface (fun _ _ => Ok None)
              (fun name => if String.eqb name "Transfer"
                           then Throw (mkError "TypeError" "ambiguous event description")
                           else Ok None).


End WindowSpec.

(** ** Runs of checkouts *)

Module CheckoutSpec.
Import Pool.

(** [getProvider] called once at each of the clock readings [nows]: the
    results in order, and the pool afterwards. *)
Fixpoint checkouts (nows : list Z) (p : ProviderPool)
  : list (outcome ProviderInfo) * ProviderPool :=
  match nows with
  | [] => ([], p)
  | now :: rest =>
    let '(result, p1) := getProvider now p in
    let '(results, p2) := checkouts rest p1 in
    (result :: results, p2)
  end.

(** The pool with its round-robin cursor advanced by one. *)
Definition advanced (p : ProviderPool) : ProviderPool :=
  mkPool (store p) (providers p) (providerList p) (failureThreshold p)
         (cooldownPeriod p) (roundRobinIndex p + 1).

(** Two endpoints configured with the same URL. *)
Definition twinProviders : list ProviderConfig :=
  [mkConfig "http://localhost:8545" 2; mkConfig "http://localhost:8545" 1].

Definition twinPool : ProviderPool :=
  match constructor twinProviders None with
  | Ok p => p
  | Throw _ => mkPool [] ∅ [] 3 30000 0
  end.

(** The local pool after three failed requests on each endpoint, at
    clock readings 1 to 6. *)
Definition allDown : ProviderPool :=
  run IndexerSpec.localPool
      [ReportFailure 1 (generateProviderId "http://localhost:8545")
                     IndexerSpec.connectionRefused;
       ReportFailure 2 (generateProviderId "http://localhost:8545")
                     IndexerSpec.connectionRefused;
       ReportFailure 3 (generateProviderId "http://localhost:8545")
                     IndexerSpec.connectionRefused;
       ReportFailure 4 (generateProviderId "http://localhost:8546")
                     IndexerSpec.connectionRefused;
       ReportFailure 5 (generateProviderId "http://localhost:8546")
                     IndexerSpec.connectionRefused;
       ReportFailure 6 (generateProviderId "http://localhost:8546")
                     IndexerSpec.connectionRefused].

End CheckoutSpec.

(** * Properties *)

(** ** Strings *)

Section StringFacts.

Lemma startsWith_prefix (s sub : string) :
  Js.startsWith s sub = true <-> exists post, s = (sub ++ post)%string.
Proof.
  revert s; induction sub as [|b sub IH]; intros s; simpl.
  - split; [intros _; exists s; reflexivity | destruct s; reflexivity].
  - destruct s as [|a s].
    + split; [discriminate | intros [post Hp]; discriminate].
    + simpl. destruct (ascii_dec a b) as [->|Hne].
      * rewrite andb_true_l, IH. split; intros [post Hp]; exists post.
        -- now rewrite Hp.
        -- now inversion Hp.
      * rewrite andb_false_l.
        split; [discriminate | intros [post Hp]; inversion Hp; contradiction].
Qed.

(** [includes] is the substring test. *)
Lemma includes_substring (s sub : string) :
  Js.includes s sub = true <-> exists pre post, s = (pre ++ sub ++ post)%string.
Proof.
  induction s as [|a s IH].
  - change (Js.includes "" sub) with (Js.startsWith "" sub || false).
    rewrite orb_false_r, startsWith_prefix. split.
    + intros [post Hp]. exists EmptyString, post. exact Hp.
    + intros [pre [post Hp]]. destruct pre; [exists post; exact Hp | discriminate].
  - change (Js.includes (String a s) sub)
      with (Js.startsWith (String a s) sub || Js.includes s sub).
    rewrite orb_true_iff, startsWith_prefix, IH. split.
    + intros [[post Hp] | [pre [post Hp]]].
      * exists EmptyString, post. exact Hp.
      * exists (String a pre), post. simpl. now rewrite Hp.
    + intros [pre [post Hp]]. destruct pre as [|c pre]; simpl in Hp.
      * left. exists post. exact Hp.
      * right. inversion Hp. exists pre, post. reflexivity.
Qed.

End StringFacts.

(** ** Rate-limit classification *)

Section RateLimiterFacts.
Import RateLimiter.





End RateLimiterFacts.

(** ** Event decoder *)

Section DecoderFacts.
Import Decoder.

Lemma decode_cases (iface : Interface) (log : Log) :
  decode iface log = Ok None \/
  exists parsed data,
    parseLog iface (log_topics log) (log_data log) = Ok (Some parsed) /\
    serializeEventData (parsed_args parsed) = Ok data /\
    decode iface log =
    Ok (Some (mkEvent (log_address log) (log_blockNumber log) 0
                      (log_transactionHash log) (log_index log)
                      (parsed_name parsed) data)).
Proof.
  unfold decode, decode_body.
  destruct (parseLog iface _ _) as [[parsed|]|e]; auto.
  destruct (serializeEventData _) as [data|e] eqn:Hd; auto.
  right. exists parsed, data. auto.
Qed.

(** C10: [decode] never throws; its result is [null] or an event whose
    [blockTimestamp] is the sentinel 0; it is [null] when topic-0 matches
    no event of the ABI ([parseLog] answers [null]) and when the data of
    a matched event is malformed ([parseLog] or the serialization
    throws); the fetcher's decode loop passes over a log that decodes to
    [null]. *)
Theorem decode_total (iface : Interface) (log : Log) :
  (exists r, decode iface log = Ok r /\
             match r with
             | None => True
             | Some event =>
               blockTimestamp event = 0 /\
               contractAddress event = log_address log /\
               blockNumber event = log_blockNumber log /\
               transactionHash event = log_transactionHash log /\
               logIndex event = log_index log
             end) /\
  match parseLog iface (log_topics log) (log_data log) with
  | Ok None => decode iface log = Ok None
  | Throw _ => decode iface log = Ok None
  | Ok (Some parsed) =>
    match serializeEventData (parsed_args parsed) with
    | Throw _ => decode iface log = Ok None
    | Ok _ => exists event, decode iface log = Ok (Some event)
    end
  end /\
  match decode iface log with
  | Ok None =>
    forall cache rest,
      Fetcher.decodeAll iface cache (log :: rest) = Fetcher.decodeAll iface cache rest
  | Ok (Some _) => True
  | Throw _ => False
  end.
Proof.
  split; [|split].
  - destruct (decode_cases iface log) as [H | (parsed & data & _ & _ & H)];
      rewrite H; eexists; (split; [reflexivity|]); simpl; auto.
  - unfold decode, decode_body.
    destruct (parseLog iface _ _) as [[parsed|]|e]; auto.
    destruct (serializeEventData _) as [data|e]; eauto.
  - destruct (decode iface log) as [[event|]|e] eqn:Hdec; auto.
    + intros cache rest. simpl. rewrite Hdec.
      destruct (Fetcher.decodeAll iface cache rest); reflexivity.
    + destruct (decode_cases iface log) as [H | (parsed & data & _ & _ & H)];
        congruence.
Qed.

(** Both ways in which a matched event's data can be malformed do
    occur: an unnamed parameter makes [toObject] throw. *)
Example decode_unnamed_parameter :
  let iface := mkInterface
                 (fun _ _ => Ok (Some (mkParsed "Transfer" [(None, JBigInt 5)])))
                 (fun _ => Ok None) in
  decode_body iface (mkLog "0xabc" 1 "0x01" 0 [] "0x") =
    Throw (mkError "Error" "value at index unnamed") /\
  decode iface (mkLog "0xabc" 1 "0x01" 0 [] "0x") = Ok None.
Proof. split; reflexivity. Qed.

Example decode_transfer :
  let iface := mkInterface
                 (fun _ _ => Ok (Some (mkParsed "Transfer"
                    [(Some "from", JString "0x1234"); (Some "to", JString "0xabcd");
                     (Some "value", JBigInt 1000000000000000000)])))
                 (fun _ => Ok None) in
  decode iface (mkLog "0xabc" 7 "0x01" 3 [] "0x") =
    Ok (Some (mkEvent "0xabc" 7 0 "0x01" 3 "Transfer"
                      [("from", JString "0x1234"); ("to", JString "0xabcd");
                       ("value", JString "1000000000000000000")])).
Proof. vm_compute. reflexivity. Qed.

End DecoderFacts.

(** ** Start block *)

Section StartBlockFacts.
Import Indexer.

(** C6: with [from_block] configured, the stored [last_block] is read
    for the lower-cased address; when there is one and it is at least
    [from_block] indexing starts at [last_block + 1], otherwise at
    [from_block]. Nothing else is touched. *)
Theorem startBlock_configured (W : World) (now : Z) (contractConfig : ContractConfig)
    (st : State) (d : Storage.Database) (configured : Z)
    (Hfrom : from_block contractConfig = Some configured)
    (Hopen : Storage.db (storage st) = Some d) :
  let stored :=
    Storage.last_block <$>
      Storage.sync_state d !! Js.toLowerCase (address contractConfig) in
  fst (Storage.getLastSyncedBlock (Js.toLowerCase (address contractConfig)) (storage st))
    = Ok stored /\
  startBlock W now contractConfig st =
  (Ok (match stored with
       | Some lastBlock => if configured <=? lastBlock then lastBlock + 1 else configured
       | None => configured
       end), st) /\
  (forall lastBlock, stored = Some lastBlock -> configured <= lastBlock ->
      fst (startBlock W now contractConfig st) = Ok (lastBlock + 1)) /\
  (forall lastBlock, stored = Some lastBlock -> lastBlock < configured ->
      fst (startBlock W now contractConfig st) = Ok configured) /\
  (stored = None -> fst (startBlock W now contractConfig st) = Ok configured).
Proof.
  intros stored.
  assert (Hget : Storage.getLastSyncedBlock (Js.toLowerCase (address contractConfig))
                   (storage st) = (Ok stored, storage st)).
  { unfold Storage.getLastSyncedBlock, Storage.ensureDb. rewrite Hopen. reflexivity. }
  assert (Hstart : startBlock W now contractConfig st =
            (Ok (match stored with
                 | Some lastBlock =>
                   if configured <=? lastBlock then lastBlock + 1 else configured
                 | None => configured
                 end), st)).
  { unfold startBlock. rewrite Hfrom, Hget. reflexivity. }
  rewrite Hget, Hstart. simpl. repeat split; auto.
  - intros lastBlock -> Hle. destruct (Z.leb_spec configured lastBlock); [reflexivity|lia].
  - intros lastBlock -> Hlt. destruct (Z.leb_spec configured lastBlock); [lia|reflexivity].
  - intros ->. reflexivity.
Qed.

End StartBlockFacts.

(** ** Storage *)

Section StorageFacts.
Import Decoder Storage StorageSpec Scenarios.

Lemma extends_refl evs d : extends evs d d.
Proof.
  split; [|reflexivity]. exists []. split; [now rewrite app_nil_r | constructor].
Qed.

Lemma extends_trans evs d1 d2 d3 :
  extends evs d1 d2 -> extends evs d2 d3 -> extends evs d1 d3.
Proof.
  intros [[a1 [E1 F1]] S1] [[a2 [E2 F2]] S2]. split; [|congruence].
  exists (a1 ++ a2)%list. split.
  - rewrite E2, E1. now rewrite <- app_assoc.
  - apply Forall_app. split; assumption.
Qed.

Lemma extends_weaken evs evs' d d' :
  (forall e, In e evs -> In e evs') -> extends evs d d' -> extends evs' d d'.
Proof.
  intros Hsub [[a [E F]] S]. split; [|exact S]. exists a. split; [exact E|].
  eapply Forall_impl; [exact F|]. intros r [e [Hin Hr]]. exists e. auto.
Qed.

Lemma conflicts_app tx li d d' added :
  events d' = (events d ++ added)%list ->
  conflicts tx li d = true -> conflicts tx li d' = true.
Proof.
  unfold conflicts. intros -> H. rewrite existsb_app, H. reflexivity.
Qed.

Lemma extends_keyed evs d d' event :
  extends evs d d' -> keyed d event -> keyed d' event.
Proof. intros [[a [E _]] _]. unfold keyed. eapply conflicts_app; eauto. Qed.

Lemma insertOrIgnore_spec event data t d :
  let r := insertOrIgnore event data t d in
  extends [event] d (fst r) /\ keyed (fst r) event /\
  Z.of_nat (length (events (fst r))) = Z.of_nat (length (events d)) + snd r /\
  (snd r = 0 \/ snd r = 1) /\
  (keyed d event -> r = (mkDb (events d) (events_seq d + 1) (sync_state d), 0)).
Proof.
  unfold insertOrIgnore, keyed.
  destruct (conflicts (transactionHash event) (logIndex event) d) eqn:Hc; simpl.
  - split; [split; [exists []; split; [now rewrite app_nil_r | constructor] | reflexivity]|].
    repeat split; auto; lia.
  - split; [|split; [|split; [|split]]]; auto; try discriminate.
    + split; [|reflexivity]. eexists. split; [reflexivity|].
      constructor; [|constructor].
      exists event. split; [now left|]. repeat split.
    + unfold conflicts. simpl. rewrite existsb_app. simpl.
      rewrite String.eqb_refl, Z.eqb_refl. simpl. now rewrite orb_true_r.
    + rewrite length_app. simpl. lia.
Qed.

(** The body of [insertMany] when it returns: the count is the number
    of rows added, and afterwards every event of the batch has its
    key in the table. *)
Lemma insertMany_ok now evs : forall count d result d',
  insertMany now evs count d = (Ok result, d') ->
  extends evs d d' /\ Forall (keyed d') evs /\ Forall stringifiable evs /\
  result - count = Z.of_nat (length (events d')) - Z.of_nat (length (events d)).
Proof.
  induction evs as [|event rest IH]; intros count d result d' H; simpl in H.
  - inversion H; subst.
    split; [apply extends_refl|]. split; [constructor|]. split; [constructor|lia].
  - destruct (stringify (eventData event)) as [data|e] eqn:Hs; [|discriminate].
    destruct (insertOrIgnore event data (Js.unix_seconds now) d) as [d1 changes] eqn:Hi.
    pose proof (insertOrIgnore_spec event data (Js.unix_seconds now) d) as Hspec.
    rewrite Hi in Hspec. simpl in Hspec.
    destruct Hspec as (Hext & Hkey & Hlen & Hch & _).
    apply IH in H as (Hext' & Hkeys & Hstr & Hcount).
    split; [|split; [|split]].
    + eapply extends_trans.
      * eapply extends_weaken; [|exact Hext]. intros e [<-|[]]. now left.
      * eapply extends_weaken; [|exact Hext']. intros e He. now right.
    + constructor; [|exact Hkeys]. eapply extends_keyed; eauto.
    + constructor; [|exact Hstr]. unfold stringifiable. now rewrite Hs.
    + destruct Hch as [-> | ->]; simpl in Hcount; lia.
Qed.

Lemma insertMany_throw now evs : forall count d e d',
  insertMany now evs count d = (Throw e, d') -> ~ Forall stringifiable evs.
Proof.
  induction evs as [|event rest IH]; intros count d e d' H; simpl in H.
  - discriminate.
  - intros HF. inversion HF as [|? ? Hhd Htl]; subst.
    destruct (stringify (eventData event)) as [data|e0] eqn:Hs.
    + destruct (insertOrIgnore event data (Js.unix_seconds now) d) as [d1 changes].
      eapply IH; eauto.
    + unfold stringifiable in Hhd. rewrite Hs in Hhd. discriminate.
Qed.

(** A batch whose keys are all present is ignored whole: no row is
    added, and every ignored row uses up an id. *)
Lemma insertMany_present now evs : forall count d,
  Forall (keyed d) evs -> Forall stringifiable evs ->
  insertMany now evs count d =
    (Ok count,
     mkDb (events d) (events_seq d + Z.of_nat (length evs)) (sync_state d)).
Proof.
  induction evs as [|event rest IH]; intros count d Hk Hs.
  - simpl. rewrite Z.add_0_r. now destruct d.
  - inversion Hk as [|? ? Hk1 Hk2]; inversion Hs as [|? ? Hs1 Hs2]; subst.
    unfold stringifiable in Hs1. cbn [insertMany].
    destruct (stringify (eventData event)) as [data|e]; [|discriminate].
    pose proof (insertOrIgnore_spec event data (Js.unix_seconds now) d) as Hspec.
    simpl in Hspec. destruct Hspec as (_ & _ & _ & _ & Hsame).
    rewrite (Hsame Hk1). cbv iota. simpl (0 <? 0). cbv iota.
    rewrite IH; [|exact Hk2|exact Hs2]. cbn [events events_seq sync_state length].
    rewrite Nat2Z.inj_succ. do 2 f_equal. lia.
Qed.

(** C2: inserting a batch a second time leaves the number of rows as it
    was after the first insertion, and the rows themselves; the number
    returned is the number of rows added (a duplicate of the pair
    (transaction_hash, log_index) is dropped and not counted), and the
    second insertion returns 0; when the insertion throws, nothing is
    inserted. Re-inserting the batch
    of 100 events of the storage test gives 100 rows and a second count
    of 0. *)
Theorem insertEvents_idempotent :
  (forall (now1 now2 : Z) (evs : list DecodedEvent) (a : SQLiteAdapter),
      let first := insertEvents now1 evs a in
      let second := insertEvents now2 evs (snd first) in
      rowCount (snd second) = rowCount (snd first) /\
      match fst first with
      | Ok count =>
        count = rowCount (snd first) - rowCount a /\
        fst second = Ok 0 /\
        match db a, db (snd first), db (snd second) with
        | Some d, Some d', Some d'' =>
          extends evs d d' /\ Forall (keyed d') evs /\
          events d'' = events d' /\ sync_state d'' = sync_state d'
        | _, _, _ => False
        end
      | Throw _ => snd first = a /\ is_ok (fst second) = false
      end) /\
  (let first := insertEvents 1700000000000 hundredEvents (init emptyDatabase) in
   let second := insertEvents 1700000060000 hundredEvents (snd first) in
   fst first = Ok 100 /\ rowCount (snd first) = 100 /\
   fst second = Ok 0 /\ rowCount (snd second) = 100).
Proof.
  split; [|vm_compute; repeat split; reflexivity].
  intros now1 now2 evs [[d|]]; simpl; [|split; [reflexivity|split; reflexivity]].
  unfold insertEvents, ensureDb; simpl.
  destruct (length evs =? 0)%nat eqn:Hlen; simpl.
  { repeat split; try lia; try apply extends_refl.
    destruct evs; [constructor | discriminate]. }
  unfold transaction.
  destruct (insertMany now1 evs 0 d) as [[count|e] d1] eqn:H1; simpl.
  - apply insertMany_ok in H1 as (Hext & Hkeys & Hstr & Hcount).
    rewrite (insertMany_present now2 evs 0 d1 Hkeys Hstr). simpl.
    repeat split; try apply Hext; auto. unfold rowCount. simpl. lia.
  - split; [|split; [reflexivity|]].
    + destruct (insertMany now2 evs 0 d) as [[c2|e2] d2] eqn:H2; simpl; [|reflexivity].
      apply insertMany_throw in H1. apply insertMany_ok in H2 as (_ & _ & Hstr & _).
      contradiction.
    + destruct (insertMany now2 evs 0 d) as [[c2|e2] d2] eqn:H2; simpl; [|reflexivity].
      apply insertMany_throw in H1. apply insertMany_ok in H2 as (_ & _ & Hstr & _).
      contradiction.
Qed.

End StorageFacts.

Section CommitFacts.
Import Decoder Storage StorageSpec Scenarios.

Lemma insertEach_insertMany now evs : forall count d,
  insertEach now evs d =
  (match fst (insertMany now evs count d) with Ok _ => Ok tt | Throw e => Throw e end,
   snd (insertMany now evs count d)).
Proof.
  induction evs as [|event rest IH]; intros count d; simpl; [reflexivity|].
  destruct (stringify (eventData event)) as [data|e]; [|reflexivity].
  destruct (insertOrIgnore event data (Js.unix_seconds now) d) as [d1 changes].
  simpl. apply IH.
Qed.

Lemma insertEach_ok now evs d d' :
  insertEach now evs d = (Ok tt, d') -> extends evs d d' /\ Forall (keyed d') evs.
Proof.
  rewrite (insertEach_insertMany now evs 0 d).
  destruct (insertMany now evs 0 d) as [[count|e] d1] eqn:H; simpl; [|discriminate].
  intros [= <-]. apply insertMany_ok in H as (? & ? & _). auto.
Qed.

(** The commit on an open database [d]: when it returns, the
    [sync_state] row of the contract holds the new [last_block] and
    [last_sync] and every event of the batch has its key in [events];
    when it throws, the database is [d]. *)
Lemma updateTransaction_atomic now address chainId blockNum evs d :
  match transaction (updateTransaction now address chainId blockNum evs) d with
  | (Ok _, d') =>
    (exists row, sync_state d' = <[address := row]> (sync_state d) /\
                 last_block row = blockNum /\
                 last_sync row = Js.unix_seconds now) /\
    (exists added,
        events d' = (events d ++ added)%list /\
        Forall (fun r => exists event, In event evs /\ rowOf event r) added) /\
    Forall (keyed d') evs
  | (Throw _, d') => d' = d
  end.
Proof.
  unfold transaction, updateTransaction.
  set (d1 := upsertSyncState address chainId blockNum (Js.unix_seconds now) d).
  assert (Hup : exists row, sync_state d1 = <[address := row]> (sync_state d) /\
                            last_block row = blockNum /\
                            last_sync row = Js.unix_seconds now).
  { unfold d1, upsertSyncState. simpl.
    destruct (sync_state d !! address); eexists; repeat split. }
  destruct (0 <? length evs)%nat eqn:Hlen.
  - destruct (insertEach now evs d1) as [[[]|e] d2] eqn:H; [|reflexivity].
    apply insertEach_ok in H as [[Hrows Hsync] Hkeys].
    split; [|split; [exact Hrows | exact Hkeys]].
    destruct Hup as [row Hrow]. exists row. now rewrite Hsync.
  - split; [exact Hup|]. split.
    + exists []. split; [now rewrite app_nil_r | constructor].
    + destruct evs; [constructor | discriminate].
Qed.

(** C1: the upsert of [sync_state] and the insert-or-ignore of every
    event of the batch run in one transaction: when the commit returns,
    [GetLastSyncedBlock] gives the new block and every event of the
    batch is in the table, the old rows being kept; when it throws, the
    adapter is as it was before the call. On a fresh store, committing
    the events at blocks 100 and 101 with [lastBlock = 101] gives
    [GetLastSyncedBlock = 101] and two rows for the contract. *)
Theorem updateSyncStateAndInsertEvents_atomic :
  (forall (now : Z) (address : string) (chainId blockNum : Z)
          (evs : list DecodedEvent) (a : SQLiteAdapter),
      let result := updateSyncStateAndInsertEvents now address chainId blockNum evs a in
      match fst result with
      | Ok _ =>
        fst (getLastSyncedBlock address (snd result)) = Ok (Some blockNum) /\
        match db a, db (snd result) with
        | Some d, Some d' =>
          (exists row, sync_state d' = <[address := row]> (sync_state d) /\
                       last_block row = blockNum /\
                       last_sync row = Js.unix_seconds now) /\
          (exists added,
              events d' = (events d ++ added)%list /\
              Forall (fun r => exists event, In event evs /\ rowOf event r) added) /\
          Forall (keyed d') evs
        | _, _ => False
        end
      | Throw _ => snd result = a
      end) /\
  (let result := updateSyncStateAndInsertEvents 1700000000000 "0x1234" 1 101
                   [eventAt100; eventAt101] (init emptyDatabase) in
   fst result = Ok tt /\
   fst (getLastSyncedBlock "0x1234" (snd result)) = Ok (Some 101) /\
   exists rows, fst (queryEvents (byContract "0x1234") (snd result)) = Ok rows /\
                length rows = 2%nat) /\
  (let a := snd (updateSyncStateAndInsertEvents 1700000000000 "0x1234" 1 101
                   [eventAt100; eventAt101] (init emptyDatabase)) in
   let result := updateSyncStateAndInsertEvents 1700000060000 "0x1234" 1 102
                   [eventAt101; eventWithBigInt] a in
   is_ok (fst result) = false /\ snd result = a /\
   fst (getLastSyncedBlock "0x1234" (snd result)) = Ok (Some 101)).
Proof.
  split; [|split].
  - intros now address chainId blockNum evs [[d|]]; simpl; [|reflexivity].
    unfold updateSyncStateAndInsertEvents, ensureDb. simpl.
    pose proof (updateTransaction_atomic now address chainId blockNum evs d) as H.
    destruct (transaction _ d) as [[[]|e] d'] eqn:Ht; simpl.
    + destruct H as ([row (Hsync & Hlast & Htime)] & Hrows & Hkeys).
      split.
      * unfold getLastSyncedBlock, ensureDb. simpl.
        rewrite Hsync, lookup_insert_eq. simpl. now rewrite Hlast.
      * split; [exists row; auto | split; assumption].
    + now subst.
  - vm_compute. split; [reflexivity|]. split; [reflexivity|].
    eexists. split; reflexivity.
  - vm_compute. repeat split; reflexivity.
Qed.

End CommitFacts.

(** ** Provider pool *)

Section PoolFacts.
Import Pool PoolSpec.

(** *** The constructor *)

Lemma registerAll_lookup entries : forall next m i r,
  registerAll entries next m !! i = Some r ->
  m !! i = Some r \/
  exists k, r = (next + k)%nat /\ id <$> entries !! k = Some i.
Proof.
  induction entries as [|e rest IH]; intros next m i r H; simpl in H; [now left|].
  apply IH in H as [H | [k [-> Hk]]].
  - destruct (decide (id e = i)) as [<-|Hne].
    + rewrite lookup_insert_eq in H. inversion H; subst.
      right. exists 0%nat. split; [lia | reflexivity].
    + rewrite lookup_insert_ne in H by exact Hne. now left.
  - right. exists (S k). split; [lia | exact Hk].
Qed.

Lemma insertByPriority_perm st r l : Permutation (insertByPriority st r l) (r :: l).
Proof.
  induction l as [|x l IH]; simpl; [reflexivity|].
  destruct (priorityOf st x <=? priorityOf st r); [reflexivity|].
  rewrite IH. apply perm_swap.
Qed.

Lemma sortByPriority_perm st l : Permutation (sortByPriority st l) l.
Proof.
  induction l as [|x l IH]; simpl; [reflexivity|].
  unfold sortByPriority in *. simpl. rewrite insertByPriority_perm. now constructor.
Qed.

Lemma insertByPriority_sorted st r l :
  StronglySorted (higherFirst st) l ->
  StronglySorted (higherFirst st) (insertByPriority st r l).
Proof.
  induction l as [|x l IH]; intros Hs; simpl.
  - repeat constructor.
  - inversion Hs as [|? ? Hs' Hall]; subst.
    destruct (Z.leb_spec (priorityOf st x) (priorityOf st r)) as [Hle|Hgt].
    + constructor; [exact Hs|]. constructor; [exact Hle|].
      eapply Forall_impl; [exact Hall|]. unfold higherFirst. intros; simpl in *; lia.
    + constructor; [now apply IH|].
      rewrite insertByPriority_perm. constructor; [|exact Hall].
      unfold higherFirst. lia.
Qed.

Lemma sortByPriority_sorted st l : StronglySorted (higherFirst st) (sortByPriority st l).
Proof.
  induction l as [|x l IH]; [constructor|].
  unfold sortByPriority in *. simpl. now apply insertByPriority_sorted.
Qed.

Lemma constructor_wellFormed configs options p :
  constructor configs options = Ok p -> wellFormed p.
Proof.
  unfold constructor. destruct (length configs =? 0)%nat; [discriminate|].
  intros [= <-]. split; simpl.
  - intros i r H. apply registerAll_lookup in H as [H | [k [-> Hk]]].
    + rewrite lookup_empty in H. discriminate.
    + exact Hk.
  - apply sortByPriority_sorted.
  - rewrite sortByPriority_perm. apply NoDup_ListNoDup, seq_NoDup.
  - rewrite sortByPriority_perm. apply Forall_forall. intros r Hr.
    apply list_elem_of_In, in_seq in Hr. lia.
Qed.

(** *** The calls keep the shape *)

Lemma sameShape_refl p : sameShape p p.
Proof. split; reflexivity. Qed.

Lemma sameShape_trans p0 p1 p2 : sameShape p0 p1 -> sameShape p1 p2 -> sameShape p0 p2.
Proof. intros [] []. split; congruence. Qed.

Lemma setEntry_sameShape p r e e' :
  store p !! r = Some e -> static e' = static e -> sameShape p (setEntry p r e').
Proof.
  intros Hr Hs. split; try reflexivity. simpl.
  rewrite list_fmap_insert, Hs. apply list_insert_id.
  rewrite list_lookup_fmap, Hr. reflexivity.
Qed.

Lemma lookupEntry p i r e :
  providers p !! i ≫= (fun r => pair r <$> store p !! r) = Some (r, e) <->
  providers p !! i = Some r /\ store p !! r = Some e.
Proof.
  destruct (providers p !! i) as [r'|]; simpl.
  - destruct (store p !! r') as [e'|] eqn:He; simpl.
    + split; [intros [= -> ->]; auto | intros [[= ->] H]; congruence].
    + split; [discriminate | intros [[= ->] H]; congruence].
  - split; [discriminate | intros [? _]; discriminate].
Qed.

Lemma step_sameShape p c : sameShape p (step p c).
Proof.
  destruct c as [now i | now i err | now]; simpl.
  - unfold reportSuccess.
    destruct (providers p !! i ≫= _) as [[r e]|] eqn:H; simpl; [|apply sameShape_refl].
    apply lookupEntry in H as [_ H]. eapply setEntry_sameShape; eauto.
  - unfold reportFailure.
    destruct (providers p !! i ≫= _) as [[r e]|] eqn:H; simpl; [|apply sameShape_refl].
    apply lookupEntry in H as [_ H]. eapply setEntry_sameShape; eauto.
  - unfold getProvider. destruct (0 <? _)%nat.
    + destruct (_ ≫= _); simpl; [split; reflexivity | apply sameShape_refl].
    + destruct (_ ≫= _); apply sameShape_refl.
Qed.

Lemma run_sameShape calls : forall p, sameShape p (run p calls).
Proof.
  induction calls as [|c calls IH]; intros p; simpl; [apply sameShape_refl|].
  eapply sameShape_trans; [apply step_sameShape | apply IH].
Qed.

Lemma sameShape_priorityOf p0 p r :
  sameShape p0 p -> priorityOf (store p) r = priorityOf (store p0) r.
Proof.
  intros [Hs _ _ _ _]. unfold priorityOf.
  assert (H : static <$> store p !! r = static <$> store p0 !! r).
  { rewrite <- !list_lookup_fmap. now f_equal. }
  destruct (store p !! r), (store p0 !! r); simpl in H; try congruence.
  unfold static in H. congruence.
Qed.

Lemma StronglySorted_mono {A} (R R' : A -> A -> Prop) (l : list A) :
  (forall a b, R a b -> R' a b) -> StronglySorted R l -> StronglySorted R' l.
Proof.
  intros Himp. induction 1 as [|a l Hs IH Hall]; constructor; [exact IH|].
  eapply Forall_impl; [exact Hall|]. auto.
Qed.

Lemma sameShape_wellFormed p0 p : sameShape p0 p -> wellFormed p0 -> wellFormed p.
Proof.
  intros Hsh [Hmap Hsort Hnd Hrefs].
  pose proof Hsh as [Hs Hm Hl Ht Hc]. split.
  - intros i r H. rewrite Hm in H. apply Hmap in H.
    assert (Hst : static <$> store p !! r = static <$> store p0 !! r).
    { rewrite <- !list_lookup_fmap. now f_equal. }
    destruct (store p !! r), (store p0 !! r); simpl in *; try congruence.
    unfold static in Hst. congruence.
  - rewrite Hl. eapply StronglySorted_mono; [|exact Hsort].
    unfold higherFirst. intros a b. rewrite !(sameShape_priorityOf p0 p) by exact Hsh.
    auto.
  - now rewrite Hl.
  - rewrite Hl. assert (Hlen : length (store p) = length (store p0)).
    { rewrite <- (length_map static (store p)), Hs. apply length_map. }
    now rewrite Hlen.
Qed.

Lemma run_wellFormed configs options p calls :
  constructor configs options = Ok p -> wellFormed (run p calls).
Proof.
  intros H. eapply sameShape_wellFormed; [apply run_sameShape|].
  eapply constructor_wellFormed; eauto.
Qed.

End PoolFacts.

Section HealthFacts.
Import Pool PoolSpec.

Lemma streak_cons i c rest acc :
  streak i (c :: rest) acc = streak i rest (streak i [c] acc).
Proof. destruct c; reflexivity. Qed.

Lemma report_target p i j r e r' e' :
  wellFormed p ->
  providers p !! i = Some r -> store p !! r = Some e ->
  providers p !! j = Some r' -> store p !! r' = Some e' ->
  (j = i /\ r' = r /\ e' = e) \/ (j <> i /\ r' <> r).
Proof.
  intros Hwf Hi He Hj He'.
  destruct (decide (j = i)) as [->|Hne].
  - left. rewrite Hi in Hj. inversion Hj; subst. rewrite He in He'.
    inversion He'; subst. auto.
  - right. split; [exact Hne|]. intros ->.
    apply (wf_map p Hwf) in Hi, Hj. rewrite Hi in Hj. congruence.
Qed.

(** One call, seen from the entry of [i]. *)
Lemma step_entry p c i r e :
  wellFormed p ->
  providers p !! i = Some r -> store p !! r = Some e ->
  healthRule (failureThreshold p) e ->
  exists e', store (step p c) !! r = Some e' /\
             consecutiveFailures e' = streak i [c] (consecutiveFailures e) /\
             healthRule (failureThreshold p) e'.
Proof.
  intros Hwf Hi He Hrule.
  pose proof (lookup_lt_Some _ _ _ He) as Hlt.
  destruct c as [now j | now j err | now]; simpl.
  - unfold reportSuccess.
    destruct (providers p !! j ≫= _) as [[r' e0]|] eqn:H; simpl.
    + apply lookupEntry in H as [Hj He0].
      destruct (report_target p i j r e r' e0 Hwf Hi He Hj He0)
        as [(-> & -> & ->) | (Hne & Hr)].
      * rewrite String.eqb_refl, list_lookup_insert_eq by exact Hlt.
        eexists. split; [reflexivity|]. split; [reflexivity|].
        unfold healthRule. simpl. split; [lia|]. split; [discriminate | lia].
      * rewrite list_lookup_insert_ne by exact Hr.
        destruct (String.eqb_spec j i); [contradiction|]. eauto.
    + destruct (String.eqb_spec j i) as [->|]; [|eauto].
      assert (Hsome : providers p !! i ≫= (fun r => pair r <$> store p !! r)
                      = Some (r, e)) by (apply lookupEntry; auto).
      congruence.
  - unfold reportFailure.
    destruct (providers p !! j ≫= _) as [[r' e0]|] eqn:H; simpl.
    + apply lookupEntry in H as [Hj He0].
      destruct (report_target p i j r e r' e0 Hwf Hi He Hj He0)
        as [(-> & -> & ->) | (Hne & Hr)].
      * rewrite String.eqb_refl, list_lookup_insert_eq by exact Hlt.
        eexists. split; [reflexivity|]. split; [reflexivity|].
        unfold healthRule in *. simpl. destruct Hrule as [Hpos Hrule].
        split; [lia|].
        destruct (Z.leb_spec (failureThreshold p) (consecutiveFailures e + 1)).
        -- split; [intros _; lia | reflexivity].
        -- split; [|lia]. intros Hh. apply Hrule in Hh. lia.
      * rewrite list_lookup_insert_ne by exact Hr.
        destruct (String.eqb_spec j i); [contradiction|]. eauto.
    + destruct (String.eqb_spec j i) as [->|]; [|eauto].
      assert (Hsome : providers p !! i ≫= (fun r => pair r <$> store p !! r)
                      = Some (r, e)) by (apply lookupEntry; auto).
      congruence.
  - assert (Hst : store (getProvider now p).2 = store p).
    { unfold getProvider. destruct (0 <? _)%nat; destruct (_ ≫= _); reflexivity. }
    rewrite Hst. eauto.
Qed.

Lemma run_entry calls : forall p i r e,
  wellFormed p ->
  providers p !! i = Some r -> store p !! r = Some e ->
  healthRule (failureThreshold p) e ->
  exists e', store (run p calls) !! r = Some e' /\
             consecutiveFailures e' = streak i calls (consecutiveFailures e) /\
             healthRule (failureThreshold p) e'.
Proof.
  induction calls as [|c calls IH]; intros p i r e Hwf Hi He Hrule.
  - exists e. auto.
  - destruct (step_entry p c i r e Hwf Hi He Hrule) as (e1 & He1 & Hcf & Hrule1).
    pose proof (step_sameShape p c) as Hsh.
    pose proof (sameShape_wellFormed _ _ Hsh Hwf) as Hwf1.
    destruct Hsh as [_ Hm _ Ht _].
    change (run p (c :: calls)) with (run (step p c) calls).
    rewrite streak_cons, <- Hcf, <- Ht.
    apply IH; try assumption; try (rewrite Ht; assumption).
    now rewrite Hm.
Qed.

Lemma constructor_entry configs options p r e :
  constructor configs options = Ok p -> store p !! r = Some e ->
  healthy e = true /\ consecutiveFailures e = 0.
Proof.
  unfold constructor. destruct (length configs =? 0)%nat; [discriminate|].
  intros [= <-]. simpl. rewrite list_lookup_fmap.
  destruct (configs !! r); simpl; [|discriminate]. intros [= <-]. auto.
Qed.

Lemma registerAll_present entries : forall next m i,
  is_Some (m !! i) -> is_Some (registerAll entries next m !! i).
Proof.
  induction entries as [|e rest IH]; intros next m i H; simpl; [exact H|].
  apply IH. destruct (decide (id e = i)) as [<-|Hne].
  - rewrite lookup_insert_eq. eauto.
  - rewrite lookup_insert_ne by exact Hne. exact H.
Qed.

Lemma registerAll_dom entries : forall next m k e,
  entries !! k = Some e -> is_Some (registerAll entries next m !! id e).
Proof.
  induction entries as [|e0 rest IH]; intros next m k e Hk; [discriminate|].
  simpl. destruct k as [|k]; simpl in Hk.
  - inversion Hk; subst e0. apply registerAll_present. rewrite lookup_insert_eq. eauto.
  - eapply IH. exact Hk.
Qed.

Lemma distinct_ids_kept configs options pool r e0 :
  constructor configs options = Ok pool ->
  NoDup (map id (store pool)) ->
  store pool !! r = Some e0 -> providers pool !! id e0 = Some r.
Proof.
  unfold constructor. destruct (length configs =? 0)%nat; [discriminate|].
  intros [= <-]. simpl. intros Hnd He0.
  destruct (registerAll_dom (map newEntry configs) 0 ∅ r e0 He0) as [r' Hr'].
  rewrite Hr'. f_equal.
  apply registerAll_lookup in Hr' as [Hr' | (k & -> & Hk)].
  - rewrite lookup_empty in Hr'. discriminate.
  - simpl. apply (NoDup_lookup _ k r (id e0) Hnd).
    + rewrite list_lookup_fmap. exact Hk.
    + rewrite list_lookup_fmap, He0. reflexivity.
Qed.

(** C5, as the pool has it. In a pool built by the constructor, whatever
    [failureThreshold] is, take an endpoint that the pool keeps under its
    id, which is every endpoint when no two have the same id. After any
    run of [reportSuccess], [reportFailure] and [getProvider] calls its
    entry counts the failures reported for the id since the last success
    reported for it, and its [healthy] flag is [false] exactly when there
    is at least one such failure and their number has reached
    [failureThreshold]; a success report then sets [consecutiveFailures]
    to 0 and [healthy] to [true]. *)
Theorem health_threshold (configs : list ProviderConfig)
    (options : option ProviderPoolOptions) (pool : ProviderPool)
    (Hnew : constructor configs options = Ok pool) :
  (forall (calls : list call) (r : nat) (endpoint : ProviderEntry),
      store pool !! r = Some endpoint ->
      providers pool !! id endpoint = Some r ->
      exists entry,
        store (run pool calls) !! r = Some entry /\
        static entry = static endpoint /\
        consecutiveFailures entry = streak (id endpoint) calls 0 /\
        (healthy entry = false <->
         0 < streak (id endpoint) calls 0 /\
         failureThreshold pool <= streak (id endpoint) calls 0) /\
        forall now,
          fst (reportSuccess now (id endpoint) (run pool calls)) = Ok tt /\
          exists entry',
            store (snd (reportSuccess now (id endpoint) (run pool calls))) !! r
              = Some entry' /\
            consecutiveFailures entry' = 0 /\ healthy entry' = true /\
            lastSuccess entry' = Some now) /\
  (NoDup (map (fun config => generateProviderId (cfg_url config)) configs) ->
   forall (r : nat) (endpoint : ProviderEntry),
     store pool !! r = Some endpoint -> providers pool !! id endpoint = Some r).
Proof.
  split.
  - intros calls r e0 He0 Hid.
    pose proof (constructor_wellFormed _ _ _ Hnew) as Hwf.
    pose proof (run_sameShape calls pool) as [Hs Hm Hl Ht Hc].
    destruct (constructor_entry _ _ _ _ _ Hnew He0) as [Hh0 Hc0].
    assert (Hrule0 : healthRule (failureThreshold pool) e0).
    { unfold healthRule. rewrite Hh0, Hc0. split; [lia|]. split; [discriminate|lia]. }
    destruct (run_entry calls pool (id e0) r e0 Hwf Hid He0 Hrule0)
      as (entry & Hentry & Hcf & _ & Hrule).
    rewrite Hc0 in Hcf.
    exists entry. split; [exact Hentry|]. split.
    { assert (H : static <$> store (run pool calls) !! r = static <$> store pool !! r)
        by (rewrite <- !list_lookup_fmap; now f_equal).
      rewrite Hentry, He0 in H. simpl in H. congruence. }
    split; [exact Hcf|]. split; [rewrite <- Hcf; exact Hrule|].
    intros now. unfold reportSuccess.
    assert (Hsome : providers (run pool calls) !! id e0
                      ≫= (fun r => pair r <$> store (run pool calls) !! r)
                    = Some (r, entry)) by (apply lookupEntry; rewrite Hm; auto).
    rewrite Hsome. simpl. split; [reflexivity|].
    rewrite list_lookup_insert_eq by (eapply lookup_lt_Some; eauto).
    eexists. split; [reflexivity|]. auto.
  - intros Hnd r e0 He0.
    apply (distinct_ids_kept configs options pool r e0 Hnew); [|exact He0].
    revert Hnew. unfold constructor. destruct (length configs =? 0)%nat; [discriminate|].
    intros [= <-]. simpl. rewrite map_map. exact Hnd.
Qed.

(** C5 as stated fails in two ways. With [failureThreshold: 0] a fresh
    endpoint has its 0 consecutive failures, which is at least the
    threshold, and is healthy. And two endpoints whose URLs end in "Aa"
    and "BB" get the same id: three failures reported for the id of the
    endpoint that [getProvider] hands out leave that endpoint healthy
    with no failure counted. *)
Lemma health_threshold_fails :
  (exists pool endpoint,
      constructor [mkConfig "http://localhost:8545" 1]
                  (Some (mkOptions (Some 0) None)) = Ok pool /\
      store (run pool []) !! 0%nat = Some endpoint /\
      failureThreshold pool <= streak (id endpoint) [] 0 /\
      healthy endpoint = true /\
      ~ (healthy endpoint = false <->
         failureThreshold pool <= streak (id endpoint) [] 0)) /\
  (exists pool handedOut endpoint,
      let providerId := generateProviderId "http://localhost:8545/Aa" in
      let calls := [ReportFailure 1 providerId (mkError "Error" "connect ECONNREFUSED");
                    ReportFailure 2 providerId (mkError "Error" "connect ECONNREFUSED");
                    ReportFailure 3 providerId (mkError "Error" "connect ECONNREFUSED")] in
      constructor [mkConfig "http://localhost:8545/Aa" 2;
                   mkConfig "http://localhost:8545/BB" 1] None = Ok pool /\
      generateProviderId "http://localhost:8545/BB" = providerId /\
      fst (getProvider 0 pool) = Ok handedOut /\
      info_url handedOut = "http://localhost:8545/Aa" /\
      info_id handedOut = providerId /\
      store (run pool calls) !! 0%nat = Some endpoint /\
      url endpoint = "http://localhost:8545/Aa" /\
      failureThreshold pool <= streak (id endpoint) calls 0 /\
      healthy endpoint = true /\ consecutiveFailures endpoint = 0 /\
      ~ (healthy endpoint = false <->
         failureThreshold pool <= streak (id endpoint) calls 0)).
Proof.
  split.
  - eexists _, _. split; [vm_compute; reflexivity|].
    split; [vm_compute; reflexivity|].
    split; [vm_compute; discriminate|]. split; [reflexivity|].
    intros [_ H]. assert (Hf : true = false) by (apply H; vm_compute; discriminate).
    discriminate.
  - eexists _, _, _. cbv zeta. split; [vm_compute; reflexivity|].
    split; [vm_compute; reflexivity|].
    split; [vm_compute; reflexivity|]. split; [reflexivity|].
    split; [vm_compute; reflexivity|].
    split; [vm_compute; reflexivity|]. split; [reflexivity|].
    split; [vm_compute; discriminate|]. split; [reflexivity|]. split; [reflexivity|].
    intros [_ H]. assert (Hf : true = false) by (apply H; vm_compute; discriminate).
    discriminate.
Qed.

End HealthFacts.

Section CheckoutFacts.
Import Pool PoolSpec.

Lemma count_occ_replicate (n r x : nat) :
  count_occ Nat.eq_dec (replicate n r) x = if Nat.eq_dec r x then n else 0%nat.
Proof.
  induction n as [|n IH]; simpl.
  - now destruct (Nat.eq_dec r x).
  - rewrite IH. now destruct (Nat.eq_dec r x).
Qed.

(** In a list built by repeating every kept element of a duplicate-free
    list [w] times, an element occurs [w] times if it is kept and not at
    all otherwise. *)
Lemma count_occ_weighted (w : nat -> nat) (keep : nat -> bool) (l : list nat) (x : nat) :
  NoDup l -> In x l ->
  count_occ Nat.eq_dec (flat_map (fun r => replicate (w r) r) (List.filter keep l)) x
  = if keep x then w x else 0%nat.
Proof.
  intros Hnd. revert x. induction Hnd as [|a l Ha Hnd IH]; intros x Hx; [destruct Hx|].
  assert (Hout : forall y, ~ In y l ->
            count_occ Nat.eq_dec
              (flat_map (fun r => replicate (w r) r) (List.filter keep l)) y = 0%nat).
  { intros y Hy. apply count_occ_not_In. intros Hin.
    apply in_flat_map in Hin as [r [Hr Hrep]]. apply filter_In in Hr as [Hr _].
    apply list_elem_of_In, elem_of_replicate in Hrep as [-> _]. contradiction. }
  simpl. destruct Hx as [->|Hx].
  - rewrite list_elem_of_In in Ha.
    destruct (keep x) eqn:Hk; simpl.
    + rewrite count_occ_app, count_occ_replicate, (Hout x Ha).
      destruct (Nat.eq_dec x x); [lia|contradiction].
    + apply Hout, Ha.
  - assert (a <> x) by (intros ->; apply Ha, list_elem_of_In, Hx).
    destruct (keep a); simpl.
    + rewrite count_occ_app, count_occ_replicate.
      destruct (Nat.eq_dec a x); [contradiction|]. simpl. now apply IH.
    + now apply IH.
Qed.

Lemma StronglySorted_filter {A} (R : A -> A -> Prop) (f : A -> bool) (l : list A) :
  StronglySorted R l -> StronglySorted R (List.filter f l).
Proof.
  induction 1 as [|a l Hs IH Hall]; simpl; [constructor|].
  destruct (f a); [|exact IH]. constructor; [exact IH|].
  apply Forall_forall. intros y Hy. apply list_elem_of_In, filter_In in Hy as [Hy _].
  rewrite Forall_forall in Hall. apply Hall, list_elem_of_In, Hy.
Qed.

(** In a list with the highest priority first, the running minimum ends
    at the last element. *)
Lemma min_of_sorted st rest : forall r,
  StronglySorted (higherFirst st) (r :: rest) ->
  Some (fold_left Z.min (map (priorityOf st) rest) (priorityOf st r))
  = priorityOf st <$> last (r :: rest).
Proof.
  induction rest as [|x rest IH]; intros r Hs; [reflexivity|].
  inversion Hs as [|? ? Hs' Hall]; subst. inversion Hall as [|? ? Hrx _]; subst.
  simpl fold_left. unfold higherFirst in Hrx. rewrite Z.min_r by exact Hrx.
  rewrite (IH x Hs'). reflexivity.
Qed.

Lemma basePriority_min p : wellFormed p -> basePriority p = Z.max 0 (minPriority p).
Proof.
  intros Hwf. unfold basePriority, minPriority.
  pose proof (StronglySorted_filter _ (isHealthy p) _ (wf_sorted p Hwf)) as Hs.
  fold (healthyProviders p) in Hs.
  destruct (healthyProviders p) as [|r rest]; [reflexivity|].
  pose proof (min_of_sorted (store p) rest r Hs) as Hmin.
  destruct (last (r :: rest)); simpl in Hmin; [|discriminate].
  inversion Hmin. reflexivity.
Qed.

Lemma fold_min_le (zs : list Z) : forall init,
  fold_left Z.min zs init <= init /\ Forall (fun z => fold_left Z.min zs init <= z) zs.
Proof.
  induction zs as [|z zs IH]; intros init; simpl; [split; [lia|constructor]|].
  destruct (IH (Z.min init z)) as [Hle Hall]. split; [lia|].
  constructor; [lia | exact Hall].
Qed.

Lemma minPriority_least p r :
  In r (healthyProviders p) -> minPriority p <= priorityOf (store p) r.
Proof.
  unfold minPriority. destruct (healthyProviders p) as [|a rest]; [intros []|].
  destruct (fold_min_le (map (priorityOf (store p)) rest) (priorityOf (store p) a))
    as [Hle Hall].
  intros [<-|Hin]; [exact Hle|].
  rewrite Forall_forall in Hall. apply Hall, list_elem_of_In, in_map, Hin.
Qed.

(** C7, as the pool has it: when some endpoint is healthy, every healthy
    endpoint is in the weighted list
    [max(1, priority − max(0, min_priority) + 1)] times, [min_priority]
    being the lowest priority among the healthy endpoints, and an
    unhealthy one is not in it; [getProvider] returns the endpoint at
    position [cursor mod length] of that list and advances the cursor by
    one. This holds after any run of calls on a constructed pool. *)
Theorem getProvider_weighted (configs : list ProviderConfig)
    (options : option ProviderPoolOptions) (pool : ProviderPool)
    (calls : list call) (now : Z)
    (Hnew : constructor configs options = Ok pool)
    (Hhealthy : healthyProviders (run pool calls) <> []) :
  let p := run pool calls in
  (forall r, In r (healthyProviders p) -> minPriority p <= priorityOf (store p) r) /\
  (forall r, In r (providerList p) ->
     count_occ Nat.eq_dec (weightedList p) r =
     if isHealthy p r
     then Z.to_nat (Z.max 1 (priorityOf (store p) r - Z.max 0 (minPriority p) + 1))
     else 0%nat) /\
  exists r e,
    weightedList p !! Z.to_nat (roundRobinIndex p mod Z.of_nat (length (weightedList p)))
      = Some r /\
    store p !! r = Some e /\ healthy e = true /\
    fst (getProvider now p) = Ok (infoOf e) /\
    roundRobinIndex (snd (getProvider now p)) = roundRobinIndex p + 1 /\
    store (snd (getProvider now p)) = store p.
Proof.
  intros p. pose proof (run_wellFormed _ _ _ calls Hnew) as Hwf. fold p in Hwf.
  split; [apply minPriority_least|]. split.
  - intros r Hr. unfold weightedList, healthyProviders.
    rewrite (count_occ_weighted (fun r => Z.to_nat (weight p r)) (isHealthy p)
               (providerList p) r (wf_nodup p Hwf) Hr).
    unfold weight. now rewrite basePriority_min.
  - assert (Hlen : (0 < length (weightedList p))%nat).
    { unfold weightedList. fold p in Hhealthy.
      destruct (healthyProviders p) as [|a rest]; [contradiction|].
      simpl. rewrite length_app, length_replicate. unfold weight. lia. }
    set (n := length (weightedList p)) in *.
    assert (Hidx : (Z.to_nat (roundRobinIndex p mod Z.of_nat n) < n)%nat).
    { pose proof (Z.mod_pos_bound (roundRobinIndex p) (Z.of_nat n)). lia. }
    destruct (lookup_lt_is_Some_2 (weightedList p) _ Hidx) as [r Hr].
    assert (Hin : In r (healthyProviders p)).
    { apply list_elem_of_lookup_2, list_elem_of_In in Hr.
      unfold weightedList in Hr. apply in_flat_map in Hr as [r' [Hr' Hrep]].
      apply list_elem_of_In, elem_of_replicate in Hrep as [-> _]. exact Hr'. }
    apply filter_In in Hin as [_ Hh]. unfold isHealthy in Hh.
    destruct (store p !! r) as [e|] eqn:He; [|discriminate].
    exists r, e. split; [exact Hr|]. split; [exact He|]. split; [exact Hh|].
    unfold getProvider.
    assert (Hpos : (0 <? length (healthyProviders p))%nat = true).
    { apply Nat.ltb_lt. fold p in Hhealthy.
      destruct (healthyProviders p); [contradiction | simpl; lia]. }
    rewrite Hpos. fold n. rewrite Hr. simpl. rewrite He. simpl. auto.
Qed.

(** C7 as stated fails when the lowest healthy priority is negative:
    with priorities 1 and -1 the first endpoint is in the weighted list
    twice, not [1 − (−1) + 1 = 3] times. *)
Lemma weight_negative_priority :
  exists p,
    constructor [Pool.mkConfig "http://localhost:8545" 1;
                 Pool.mkConfig "http://localhost:8546" (-1)] None = Ok p /\
    isHealthy p 0 = true /\ priorityOf (store p) 0 = 1 /\ minPriority p = -1 /\
    count_occ Nat.eq_dec (weightedList p) 0%nat = 2%nat /\
    Z.to_nat (specWeight p 0) = 3%nat.
Proof. eexists. split; [reflexivity|]. vm_compute. repeat split; reflexivity. Qed.

End CheckoutFacts.

(** ** Event fetcher *)

Section FetcherFacts.
Import Decoder Fetcher FetcherSpec.

Lemma loop_unfold fuel P pid addr topicHashes upTo s :
  loop (S fuel) P pid addr topicHashes upTo s =
  match loopBody P pid addr topicHashes upTo s with
  | Continue s' => loop fuel P pid addr topicHashes upTo s'
  | Exit s' => Some (Ok tt, s')
  | Rethrow e s' => Some (Throw e, s')
  end.
Proof. reflexivity. Qed.

(** The three ways through the loop body. *)
Lemma loopBody_success P pid addr topicHashes upTo s rangeEnd logs :
  currentBlock s <= upTo ->
  rangeEnd = Z.min (currentBlock s + chunkSize s - 1) upTo ->
  getLogs P (length (trace s)) (mkLogFilter addr topicHashes (currentBlock s) rangeEnd)
    = Ok logs ->
  loopBody P pid addr topicHashes upTo s =
  Continue (mkLoop (chunkSize s) (rangeEnd + 1) (allLogs s ++ logs) (limits s)
                   (trace s ++ [GetLogs (mkLogFilter addr topicHashes (currentBlock s)
                                                     rangeEnd)])).
Proof.
  intros Hle -> Hget. unfold loopBody.
  destruct (Z.leb_spec (currentBlock s) upTo); [|lia]. now rewrite Hget.
Qed.

Lemma loopBody_rangeError P pid addr topicHashes upTo s rangeEnd e :
  currentBlock s <= upTo ->
  rangeEnd = Z.min (currentBlock s + chunkSize s - 1) upTo ->
  getLogs P (length (trace s)) (mkLogFilter addr topicHashes (currentBlock s) rangeEnd)
    = Throw e ->
  isBlockRangeError e = true ->
  loopBody P pid addr topicHashes upTo s =
  Continue (mkLoop (Z.max (chunkSize s / 2) 100) (currentBlock s) (allLogs s)
                   (<[pid := Z.max (chunkSize s / 2) 100]> (limits s))
                   (trace s ++ [GetLogs (mkLogFilter addr topicHashes (currentBlock s)
                                                     rangeEnd)])).
Proof.
  intros Hle -> Hget Hrange. unfold loopBody.
  destruct (Z.leb_spec (currentBlock s) upTo); [|lia]. now rewrite Hget, Hrange.
Qed.

Lemma loopBody_exit P pid addr topicHashes upTo s :
  upTo < currentBlock s -> loopBody P pid addr topicHashes upTo s = Exit s.
Proof.
  intros Hlt. unfold loopBody. destruct (Z.leb_spec (currentBlock s) upTo); [lia|].
  reflexivity.
Qed.

(** Timestamp enrichment makes [getBlock] calls only and leaves the
    limit map alone. *)
Lemma retryGetBlock_calls retries P blockNum : forall tr,
  getLogsCalls (snd (retryGetBlock retries P blockNum tr)) = getLogsCalls tr.
Proof.
  induction retries as [|k IH]; intros tr; simpl;
    destruct (getBlock P (length tr) blockNum); simpl;
    try rewrite IH; unfold getLogsCalls; rewrite omap_app; simpl; apply app_nil_r.
Qed.

Lemma fetchTimestamps_calls P blocks : forall cache tr failed,
  getLogsCalls (snd (fetchTimestamps P blocks cache tr failed)) = getLogsCalls tr.
Proof.
  induction blocks as [|b rest IH]; intros cache tr failed.
  - reflexivity.
  - cbn [fetchTimestamps]. pose proof (retryGetBlock_calls 3 P b tr) as Hr.
    destruct (retryGetBlock 3 P b tr) as [[[block|]|e] tr']; cbn [snd] in Hr;
      rewrite IH; exact Hr.
Qed.

Lemma enrichWithTimestamps_calls P fx logs tr :
  let '(_, fx', tr') := enrichWithTimestamps P fx logs tr in
  getLogsCalls tr' = getLogsCalls tr /\
  blockRangeLimits fx' = blockRangeLimits fx /\
  initialChunkSize fx' = initialChunkSize fx /\
  providerId fx' = providerId fx.
Proof.
  unfold enrichWithTimestamps. destruct (length logs =? 0)%nat; [auto|].
  destruct (0 <? _)%nat.
  - pose proof (fetchTimestamps_calls P
      (List.filter (fun blockNum => negb (isSome (blockTimestampCache fx !! blockNum)))
                   (uniqueFrom [] (map log_blockNumber logs)))
      (blockTimestampCache fx) tr None) as Hc.
    destruct (fetchTimestamps _ _ _ _ _) as [[[[]|e] cache] tr']; simpl in *; auto.
  - simpl. auto.
Qed.

(** C3: a fresh fetcher with initial chunk size 2000, asked for the
    window [17000000, 17002000], whose first [getLogs] call is refused
    with "block range too large" and whose later calls succeed, makes
    four [getLogs] calls in all, for [17000000,17001999] (refused),
    [17000000,17000999], [17001000,17001999] and [17002000,17002000],
    and leaves 1000 as the chunk size cached for the provider. *)
Theorem fetchEvents_range_shrink (P : Provider) (dec : Interface)
    (pid contractAddress : string) (eventNames topicHashes : list string)
    (fuel : nat) (e : JsError)
    (Htopics : resolveTopics dec eventNames = Ok topicHashes)
    (Hfirst : getLogs P 0 (mkLogFilter contractAddress topicHashes 17000000 17001999)
              = Throw e)
    (Hmessage : err_message e = "block range too large")
    (Hlater : forall n f, (0 < n)%nat -> exists logs, getLogs P n f = Ok logs)
    (Hfuel : (5 <= fuel)%nat) :
  exists result fx' tr,
    fetchEvents fuel P (new pid dec 2000) contractAddress eventNames
                17000000 17002000 [] = Some (result, fx', tr) /\
    getLogsCalls tr = [(17000000, 17001999); (17000000, 17000999);
                       (17001000, 17001999); (17002000, 17002000)] /\
    blockRangeLimits fx' !! pid = Some 1000 /\
    currentChunkSize fx' = 1000.
Proof.
  assert (Hrange : isBlockRangeError e = true).
  { unfold isBlockRangeError. rewrite Hmessage. vm_compute. reflexivity. }
  destruct fuel as [|[|[|[|[|fuel]]]]]; try lia.
  destruct (Hlater 1%nat (mkLogFilter contractAddress topicHashes 17000000 17000999))
    as [logs1 H1]; [lia|].
  destruct (Hlater 2%nat (mkLogFilter contractAddress topicHashes 17001000 17001999))
    as [logs2 H2]; [lia|].
  destruct (Hlater 3%nat (mkLogFilter contractAddress topicHashes 17002000 17002000))
    as [logs3 H3]; [lia|].
  unfold fetchEvents. change (decoder (new pid dec 2000)) with dec. rewrite Htopics.
  change (currentChunkSize (new pid dec 2000)) with 2000.
  change (providerId (new pid dec 2000)) with pid.
  change (blockRangeLimits (new pid dec 2000)) with (∅ : gmap string Z).
  rewrite loop_unfold.
  rewrite (loopBody_rangeError P pid contractAddress topicHashes 17002000
             (mkLoop 2000 17000000 [] ∅ []) 17001999 e);
    [|simpl; lia|reflexivity|exact Hfirst|exact Hrange].
  cbn [chunkSize currentBlock allLogs limits trace].
  change (Z.max (2000 / 2) 100) with 1000.
  rewrite loop_unfold.
  erewrite (loopBody_success P pid contractAddress topicHashes 17002000 _ 17000999 logs1);
    [|simpl; lia|reflexivity|exact H1].
  cbn [chunkSize currentBlock allLogs limits trace].
  change (17000999 + 1) with 17001000.
  rewrite loop_unfold.
  erewrite (loopBody_success P pid contractAddress topicHashes 17002000 _ 17001999 logs2);
    [|simpl; lia|reflexivity|exact H2].
  cbn [chunkSize currentBlock allLogs limits trace].
  change (17001999 + 1) with 17002000.
  rewrite loop_unfold.
  erewrite (loopBody_success P pid contractAddress topicHashes 17002000 _ 17002000 logs3);
    [|simpl; lia|reflexivity|exact H3].
  cbn [chunkSize currentBlock allLogs limits trace].
  rewrite loop_unfold, loopBody_exit by (simpl; lia).
  cbn [chunkSize currentBlock allLogs limits trace].
  match goal with
  | |- context [enrichWithTimestamps P ?fx ?logs ?tr] =>
    pose proof (enrichWithTimestamps_calls P fx logs tr) as Henrich;
    destruct (enrichWithTimestamps P fx logs tr) as [[result fx'] tr']
  end.
  destruct Henrich as (Hcalls & Hlimits & Hinit & Hpid).
  exists result, fx', tr'. split; [reflexivity|].
  split; [rewrite Hcalls; reflexivity|].
  assert (Hcache : blockRangeLimits fx' !! pid = Some 1000).
  { rewrite Hlimits. simpl. apply lookup_insert_eq. }
  split; [exact Hcache|].
  unfold currentChunkSize. rewrite Hpid. simpl. rewrite Hcache. reflexivity.
Qed.

End FetcherFacts.

Section ChunkFacts.
Import Decoder Fetcher FetcherSpec.

Lemma loopBody_shrinking P pid addr topicHashes upTo chunk0 cached0 s :
  shrinking pid chunk0 cached0 s ->
  match loopBody P pid addr topicHashes upTo s with
  | Continue s' | Exit s' | Rethrow _ s' =>
    shrinking pid chunk0 cached0 s' /\ chunkSize s' <= chunkSize s
  end.
Proof.
  intros [Hc Hl]. unfold loopBody. destruct (currentBlock s <=? upTo).
  - destruct (getLogs P _ _) as [logs|e]; simpl.
    + split; [split; assumption | lia].
    + destruct (isBlockRangeError e); simpl.
      * assert (chunkSize s / 2 <= chunkSize s) by (apply Z.div_le_upper_bound; lia).
        split; [split|]; simpl; try lia. right. apply lookup_insert_eq.
      * split; [split; assumption | lia].
  - split; [split; assumption | lia].
Qed.

Lemma runLoop_shrinking P pid addr topicHashes upTo chunk0 cached0 n : forall s,
  shrinking pid chunk0 cached0 s ->
  shrinking pid chunk0 cached0 (runLoop n P pid addr topicHashes upTo s) /\
  chunkSize (runLoop n P pid addr topicHashes upTo s) <= chunkSize s.
Proof.
  induction n as [|n IH]; intros s Hs; simpl; [split; [exact Hs | lia]|].
  pose proof (loopBody_shrinking P pid addr topicHashes upTo chunk0 cached0 s Hs) as H.
  destruct (loopBody P pid addr topicHashes upTo s) as [s'|s'|e s']; try exact H.
  destruct H as [Hs' Hle]. destruct (IH s' Hs') as [H1 H2]. split; [exact H1 | lia].
Qed.

Lemma loop_runLoop P pid addr topicHashes upTo fuel : forall s result s',
  loop fuel P pid addr topicHashes upTo s = Some (result, s') ->
  s' = runLoop fuel P pid addr topicHashes upTo s.
Proof.
  induction fuel as [|fuel IH]; intros s result s' H; simpl in *; [discriminate|].
  destruct (loopBody P pid addr topicHashes upTo s) as [s1|s1|e s1].
  - eapply IH; eauto.
  - now inversion H.
  - now inversion H.
Qed.

(** One [fetchEvents] call. *)
Lemma fetchEvents_chunk fuel P fx addr eventNames from upTo tr result fx' tr' :
  fetchEvents fuel P fx addr eventNames from upTo tr = Some (result, fx', tr') ->
  100 <= currentChunkSize fx ->
  100 <= currentChunkSize fx' <= currentChunkSize fx.
Proof.
  unfold fetchEvents. intros H Hfloor.
  destruct (resolveTopics (decoder fx) eventNames) as [topicHashes|e].
  2:{ inversion H; subst. lia. }
  destruct (loop fuel P (providerId fx) addr topicHashes upTo _) as [[r s]|] eqn:Hloop;
    [|discriminate].
  apply loop_runLoop in Hloop.
  assert (Hinv : shrinking (providerId fx) (currentChunkSize fx)
                           (blockRangeLimits fx !! providerId fx) s).
  { rewrite Hloop. apply runLoop_shrinking. split; simpl; [lia | now left]. }
  assert (Hmid : 100 <= default (initialChunkSize fx) (limits s !! providerId fx)
                 <= currentChunkSize fx).
  { destruct Hinv as [Hc [Hl|Hl]]; rewrite Hl; simpl; [|lia].
    fold (currentChunkSize fx). lia. }
  destruct r as [[]|e].
  - pose proof (enrichWithTimestamps_calls P
      (mkFetcher (providerId fx) (decoder fx) (initialChunkSize fx) (limits s)
                 (blockTimestampCache fx)) (allLogs s) (trace s)) as He.
    destruct (enrichWithTimestamps _ _ _ _) as [[r2 fx2] tr2].
    inversion H; subst. destruct He as (_ & Hlim & Hinit & Hpid).
    unfold currentChunkSize at 1 2. rewrite Hlim, Hinit, Hpid. exact Hmid.
  - inversion H; subst. exact Hmid.
Qed.

Lemma evolves_chunk P fx fx' :
  evolves P fx fx' -> 100 <= currentChunkSize fx ->
  100 <= currentChunkSize fx' <= currentChunkSize fx.
Proof.
  induction 1 as [fx | fx fx1 fx2 fuel addr names from upTo tr result tr' Hev IH Hcall];
    intros Hfloor; [lia|].
  specialize (IH Hfloor).
  pose proof (fetchEvents_chunk _ _ _ _ _ _ _ _ _ _ _ Hcall (proj1 IH)). lia.
Qed.

Lemma alwaysRefusing_run pid addr topicHashes upTo n : forall s,
  currentBlock s <= upTo ->
  chunkSize (runLoop n alwaysRefusing pid addr topicHashes upTo s)
    = Nat.iter n halve (chunkSize s) /\
  currentBlock (runLoop n alwaysRefusing pid addr topicHashes upTo s) = currentBlock s.
Proof.
  induction n as [|n IH]; intros s Hle; [split; reflexivity|].
  cbn [runLoop].
  rewrite (loopBody_rangeError alwaysRefusing pid addr topicHashes upTo s _ rangeTooLarge
             Hle eq_refl eq_refl) by (vm_compute; reflexivity).
  destruct (IH (mkLoop (Z.max (chunkSize s / 2) 100) (currentBlock s) (allLogs s)
                       (<[pid := Z.max (chunkSize s / 2) 100]> (limits s))
                       (trace s ++ [GetLogs (mkLogFilter addr topicHashes (currentBlock s)
                          (Z.min (currentBlock s + chunkSize s - 1) upTo))])) Hle)
    as [Hc Hb].
  rewrite Hc, Hb. split; [|reflexivity]. simpl chunkSize.
  rewrite Nat.iter_succ_r. reflexivity.
Qed.

Lemma halve_fixed n : Nat.iter n halve 100 = 100.
Proof. induction n as [|n IH]; simpl; [reflexivity|]. rewrite IH. reflexivity. Qed.

(** C4, for a chunk size that starts at 100 or more: over the lifetime
    of a fetcher the chunk size in force for its provider never grows
    and never falls below 100; so it is within every run of the loop;
    a range error sets it to [max(floor(chunkSize/2), 100)], caches that
    for the provider and leaves the cursor where it is; and under
    repeated range errors a chunk size of 2000 goes through 1000, 500,
    250, 125 to 100 and stays there. *)
Theorem chunkSize_floor (P : Provider) (fx fx' : EventFetcher)
    (Hfloor : 100 <= currentChunkSize fx)
    (Hlife : evolves P fx fx') :
  100 <= currentChunkSize fx' <= currentChunkSize fx /\
  (forall Q pid addr topicHashes upTo n s,
      100 <= chunkSize s ->
      100 <= chunkSize (runLoop n Q pid addr topicHashes upTo s) <= chunkSize s) /\
  (forall Q pid addr topicHashes upTo s e,
      currentBlock s <= upTo ->
      getLogs Q (length (trace s))
              (mkLogFilter addr topicHashes (currentBlock s)
                           (Z.min (currentBlock s + chunkSize s - 1) upTo)) = Throw e ->
      isBlockRangeError e = true ->
      exists s', loopBody Q pid addr topicHashes upTo s = Continue s' /\
                 chunkSize s' = Z.max (chunkSize s / 2) 100 /\
                 currentBlock s' = currentBlock s /\
                 limits s' !! pid = Some (chunkSize s')) /\
  (forall pid addr topicHashes n,
      let s := runLoop n alwaysRefusing pid addr topicHashes 17002000
                       (mkLoop 2000 17000000 [] ∅ []) in
      chunkSize s = nth n [2000; 1000; 500; 250; 125] 100 /\
      currentBlock s = 17000000).
Proof.
  split; [apply (evolves_chunk P); assumption|]. split; [|split].
  - intros Q pid addr topicHashes upTo n s Hs.
    destruct (runLoop_shrinking Q pid addr topicHashes upTo (chunkSize s)
                (limits s !! pid) n s) as [[Hc _] Hle].
    + split; [lia | now left].
    + lia.
  - intros Q pid addr topicHashes upTo s e Hle Hget Hrange.
    eexists. split; [eapply loopBody_rangeError; eauto|].
    simpl. split; [reflexivity|]. split; [reflexivity|]. apply lookup_insert_eq.
  - intros pid addr topicHashes n s.
    destruct (alwaysRefusing_run pid addr topicHashes 17002000 n
                (mkLoop 2000 17000000 [] ∅ [])) as [Hc Hb]; [simpl; lia|].
    subst s. rewrite Hc, Hb. split; [|reflexivity]. simpl chunkSize.
    do 5 (destruct n as [|n]; [reflexivity|]).
    replace (nth (S (S (S (S (S n))))) [2000; 1000; 500; 250; 125] 100) with 100
      by (destruct n; reflexivity).
    replace (S (S (S (S (S n))))) with (n + 5)%nat by lia.
    rewrite Nat.iter_add.
    change (Nat.iter 5 halve 2000) with 100. apply halve_fixed.
Qed.

(** C4 as stated fails for a configured chunk size below 100: a fetcher
    created with 50 starts below the floor, and the first range error
    raises its chunk size to 100. *)
Lemma chunkSize_grows_from_50 :
  let fx := new "provider-1" transferOnly 50 in
  exists result fx' tr,
    fetchEvents 10 (refusing 1) fx "0xabc" ["Transfer"] 0 200 [] = Some (result, fx', tr) /\
    currentChunkSize fx = 50 /\ currentChunkSize fx' = 100 /\
    getLogsCalls tr = [(0, 49); (0, 99); (100, 199); (200, 200)] /\
    ~ (100 <= currentChunkSize fx) /\ ~ (currentChunkSize fx' <= currentChunkSize fx).
Proof.
  simpl. do 3 eexists. split; [vm_compute; reflexivity|].
  vm_compute. repeat split; try reflexivity; intros H; apply H; reflexivity.
Qed.

End ChunkFacts.

(** ** Indexing an empty window *)

Section EmptyWindowFacts.
Import Decoder Fetcher FetcherSpec Indexer IndexerSpec.

Lemma getBlockCalls_getLogs tr f :
  getBlockCalls (tr ++ [GetLogs f]) = getBlockCalls tr.
Proof. unfold getBlockCalls. rewrite omap_app. simpl. apply app_nil_r. Qed.

(** When every [getLogs] call finds nothing the loop ends, within
    [upTo − currentBlock + 2] tests, with no log and no [getBlock]
    call. *)
Lemma loop_empty P pid addr topicHashes upTo
    (Hempty : forall n f, getLogs P n f = Ok []) : forall fuel s,
  1 <= chunkSize s ->
  (Z.to_nat (upTo - currentBlock s + 1) < fuel)%nat ->
  exists s', loop fuel P pid addr topicHashes upTo s = Some (Ok tt, s') /\
             allLogs s' = allLogs s /\ limits s' = limits s /\
             getBlockCalls (Fetcher.trace s') = getBlockCalls (Fetcher.trace s).
Proof.
  induction fuel as [|fuel IH]; intros s Hchunk Hfuel; [lia|].
  rewrite loop_unfold.
  destruct (Z.le_gt_cases (currentBlock s) upTo) as [Hle|Hgt].
  - rewrite (loopBody_success P pid addr topicHashes upTo s _ [] Hle eq_refl (Hempty _ _)).
    edestruct IH as (s' & Hloop & Hlogs & Hlim & Hcalls);
      [| |exists s'; split; [exact Hloop|]].
    + exact Hchunk.
    + simpl. lia.
    + simpl in Hlogs, Hlim, Hcalls. rewrite app_nil_r in Hlogs.
      rewrite getBlockCalls_getLogs in Hcalls. auto.
  - rewrite loopBody_exit by lia. eauto.
Qed.

Lemma fetchEvents_empty fuel P fx addr eventNames from upTo tr
    (Hempty : forall n f, getLogs P n f = Ok [])
    (Hchunk : 1 <= currentChunkSize fx)
    (Hfuel : (Z.to_nat (upTo - from + 1) < fuel)%nat) :
  exists result fx' tr',
    fetchEvents fuel P fx addr eventNames from upTo tr = Some (result, fx', tr') /\
    getBlockCalls tr' = getBlockCalls tr /\
    match result with Ok evs => evs = [] | Throw _ => True end.
Proof.
  unfold fetchEvents.
  destruct (resolveTopics (decoder fx) eventNames) as [topicHashes|e]; [|eauto 6].
  destruct (loop_empty P (providerId fx) addr topicHashes upTo Hempty fuel
              (mkLoop (currentChunkSize fx) from [] (blockRangeLimits fx) tr) Hchunk Hfuel)
    as (s' & Hloop & Hlogs & Hlim & Hcalls).
  rewrite Hloop. simpl in Hlogs, Hcalls. rewrite Hlogs.
  unfold enrichWithTimestamps. simpl. eauto 6.
Qed.

Lemma commit_nothing now addr chainId upTo a :
  let r := Storage.updateSyncStateAndInsertEvents now addr chainId upTo [] a in
  Storage.events <$> Storage.db (snd r) = Storage.events <$> Storage.db a /\
  match fst r with
  | Ok _ =>
    fst (Storage.getLastSyncedBlock addr (snd r)) = Ok (Some upTo) /\
    exists d row,
      Storage.db a = Some d /\
      Storage.db (snd r) =
        Some (Storage.mkDb (Storage.events d) (Storage.events_seq d)
                           (<[addr := row]> (Storage.sync_state d))) /\
      Storage.last_block row = upTo /\
      Storage.last_sync row = Js.unix_seconds now
  | Throw _ => snd r = a
  end.
Proof.
  destruct a as [[d|]]; simpl; [|auto].
  split; [reflexivity|]. split.
  - unfold Storage.getLastSyncedBlock, Storage.ensureDb, Storage.upsertSyncState. simpl.
    rewrite lookup_insert_eq. destruct (Storage.sync_state d !! addr); reflexivity.
  - exists d. unfold Storage.upsertSyncState.
    destruct (Storage.sync_state d !! addr); eexists; repeat split.
Qed.

(** The fetch loop makes [getLogs] calls only. *)
Lemma loop_getBlockCalls P pid addr topicHashes upTo : forall fuel s result s',
  loop fuel P pid addr topicHashes upTo s = Some (result, s') ->
  getBlockCalls (Fetcher.trace s') = getBlockCalls (Fetcher.trace s).
Proof.
  induction fuel as [|fuel IH]; intros s result s' H; [discriminate|].
  rewrite loop_unfold in H. unfold loopBody in H.
  destruct (currentBlock s <=? upTo); [|inversion H; reflexivity].
  destruct (getLogs P _ _) as [logs|e].
  - apply IH in H. simpl in H. now rewrite getBlockCalls_getLogs in H.
  - destruct (isBlockRangeError e).
    + apply IH in H. simpl in H. now rewrite getBlockCalls_getLogs in H.
    + inversion H; subst. simpl. apply getBlockCalls_getLogs.
Qed.

(** C9, as the indexer has it: when the fetch loop that [indexBlocks]
    runs over the window ends with no log, whatever range errors and
    retries it went through and whatever the endpoints hold elsewhere,
    [indexBlocks] makes no further call to the endpoint, so no
    [getBlock] call at all, and adds no row to [events]; when it succeeds
    it has still written the contract's [sync_state] row, whose
    [last_block] is now the end of the window, and when it throws the
    storage is as it was. *)
Theorem indexBlocks_empty_window (fuel : nat) (W : World) (config : Config) (now : Z)
    (contractConfig : ContractConfig) (from upTo : Z) (st : State)
    (provider : Pool.ProviderInfo) (pool : Pool.ProviderPool) (iface : Interface)
    (topicHashes : list string) (s' : LoopState)
    (Hprovider : Pool.getProvider now (providerPool st) = (Ok provider, pool))
    (Habi : getABI W (Js.toLowerCase (Indexer.address contractConfig))
                   (CHAIN_IDS (chain config)) (abi contractConfig) = Ok iface)
    (Htopics : resolveTopics iface (Indexer.events contractConfig) = Ok topicHashes)
    (Hloop : loop fuel (endpoint W (Pool.info_url provider)) (Pool.info_id provider)
                  (Js.toLowerCase (Indexer.address contractConfig)) topicHashes upTo
                  (mkLoop (batch_size (options config)) from [] ∅ (Indexer.trace st))
             = Some (Ok tt, s'))
    (Hnone : allLogs s' = []) :
  exists result st',
    indexBlocks fuel W config now contractConfig from upTo st = Some (result, st') /\
    Indexer.trace st' = Fetcher.trace s' /\
    getBlockCalls (Indexer.trace st') = getBlockCalls (Indexer.trace st) /\
    Storage.events <$> Storage.db (storage st')
      = Storage.events <$> Storage.db (storage st) /\
    match result with
    | Ok _ =>
      fst (Storage.getLastSyncedBlock (Js.toLowerCase (Indexer.address contractConfig))
                                      (storage st')) = Ok (Some upTo) /\
      exists d row,
        Storage.db (storage st) = Some d /\
        Storage.db (storage st') =
          Some (Storage.mkDb (Storage.events d) (Storage.events_seq d)
                  (<[Js.toLowerCase (Indexer.address contractConfig) := row]>
                     (Storage.sync_state d))) /\
        Storage.last_block row = upTo /\
        Storage.last_sync row = Js.unix_seconds now
    | Throw _ => storage st' = storage st
    end.
Proof.
  pose proof (loop_getBlockCalls _ _ _ _ _ _ _ _ _ Hloop) as Hcalls. simpl in Hcalls.
  unfold indexBlocks. rewrite Hprovider, Habi.
  unfold fetchEvents. cbn [decoder new providerId]. rewrite Htopics.
  change (currentChunkSize (new (Pool.info_id provider) iface (batch_size (options config))))
    with (batch_size (options config)).
  cbn [blockRangeLimits new]. rewrite Hloop. cbv iota beta.
  rewrite Hnone. unfold enrichWithTimestamps. cbn [length Nat.eqb]. cbv iota.
  destruct (Pool.reportSuccess now (Pool.info_id provider) pool) as [[[]|e] pool1].
  2:{ simpl. destruct (Pool.reportFailure now _ e pool1) as [[[]|e'] pool'];
        eexists _, _; (split; [reflexivity|]); simpl; auto. }
  pose proof (commit_nothing now (Js.toLowerCase (Indexer.address contractConfig))
                (CHAIN_IDS (chain config)) upTo (storage st)) as Hcommit.
  simpl in Hcommit. destruct Hcommit as [Hevents Hsync].
  destruct (Storage.updateSyncStateAndInsertEvents now _ _ upTo [] (storage st))
    as [[[]|e] a]; simpl in Hevents, Hsync.
  - eexists _, _; (split; [reflexivity|]); simpl; auto.
  - subst a. simpl. destruct (Pool.reportFailure now _ e pool1) as [[[]|e'] pool'];
      eexists _, _; (split; [reflexivity|]); simpl; auto.
Qed.

(** C9 as stated fails on its last part: an iteration over a window
    with no log writes the [sync_state] row of the contract. *)
Lemma indexBlocks_empty_writes_sync_state :
  exists pool st',
    Pool.constructor localProviders None = Ok pool /\
    let st := mkState (Storage.init Storage.emptyDatabase) pool [] in
    let addr := Js.toLowerCase (Indexer.address uniToken) in
    indexBlocks 10 quietWorld mainnet 1700000000000 uniToken 17000000 17002000 st
      = Some (Ok tt, st') /\
    getLogsCalls (Indexer.trace st') = [(17000000, 17001999); (17002000, 17002000)] /\
    getBlockCalls (Indexer.trace st') = [] /\
    fst (Storage.getLastSyncedBlock addr (storage st)) = Ok None /\
    fst (Storage.getLastSyncedBlock addr (storage st')) = Ok (Some 17002000) /\
    storage st' <> storage st.
Proof.
  eexists _, _. split; [reflexivity|]. simpl.
  split; [vm_compute; reflexivity|].
  vm_compute. repeat split; try reflexivity. intros H. inversion H.
Qed.

End EmptyWindowFacts.

(** ** Instances *)

Section Instances.
Import Decoder Fetcher FetcherSpec Indexer IndexerSpec.

Lemma startBlock_configured_resumes :
  fst (startBlock quietWorld 1700000000000 uniToken resumed) = Ok 17000501.
Proof.
  destruct (startBlock_configured quietWorld 1700000000000 uniToken resumed _ 17000000
              eq_refl eq_refl) as (_ & _ & H & _).
  apply (H 17000500); [vm_compute; reflexivity | lia].
Defined.

Lemma fetchEvents_range_shrink_refusing_once :
  exists result fx' tr,
    fetchEvents 5 (refusing 1) (new "provider-1" transferOnly 2000) "0xabc" ["Transfer"]
                17000000 17002000 [] = Some (result, fx', tr) /\
    getLogsCalls tr = [(17000000, 17001999); (17000000, 17000999);
                       (17001000, 17001999); (17002000, 17002000)] /\
    blockRangeLimits fx' !! "provider-1" = Some 1000 /\
    currentChunkSize fx' = 1000.
Proof.
  apply (fetchEvents_range_shrink (refusing 1) transferOnly "provider-1" "0xabc"
           ["Transfer"] [transferTopic] 5 rangeTooLarge).
  - reflexivity.
  - reflexivity.
  - reflexivity.
  - intros n f Hn. exists []. destruct n; [lia | reflexivity].
  - lia.
Defined.

Lemma chunkSize_floor_after_one_refusal :
  let fx := new "provider-1" transferOnly 2000 in
  let fx' := mkFetcher "provider-1" transferOnly 2000 (<["provider-1" := 1000]> ∅) ∅ in
  100 <= currentChunkSize fx' <= currentChunkSize fx.
Proof.
  intros fx fx'. apply (chunkSize_floor (refusing 1) fx fx').
  - vm_compute. discriminate.
  - apply (evolves_call (refusing 1) fx fx fx' 5 "0xabc" ["Transfer"] 17000000 17002000 []
                        (Ok [])
                        [GetLogs (mkLogFilter "0xabc" [transferTopic] 17000000 17001999);
                         GetLogs (mkLogFilter "0xabc" [transferTopic] 17000000 17000999);
                         GetLogs (mkLogFilter "0xabc" [transferTopic] 17001000 17001999);
                         GetLogs (mkLogFilter "0xabc" [transferTopic] 17002000 17002000)]).
    + apply evolves_refl.
    + vm_compute. reflexivity.
Defined.

Lemma health_threshold_three_failures :
  let providerId := Pool.generateProviderId "http://localhost:8546" in
  let calls := [Pool.ReportFailure 1 providerId connectionRefused;
                Pool.ReportFailure 2 providerId connectionRefused;
                Pool.ReportFailure 3 providerId connectionRefused] in
  exists entry,
    Pool.store (Pool.run localPool calls) !! 1%nat = Some entry /\
    Pool.url entry = "http://localhost:8546" /\
    Pool.consecutiveFailures entry = 3 /\ Pool.healthy entry = false.
Proof.
  intros providerId calls.
  assert (Hnew : Pool.constructor localProviders None = Ok localPool)
    by (vm_compute; reflexivity).
  destruct (health_threshold localProviders None localPool Hnew) as [Hrule Hkept].
  assert (Hendpoint : Pool.store localPool !! 1%nat
                      = Some (Pool.newEntry (Pool.mkConfig "http://localhost:8546" 2)))
    by (vm_compute; reflexivity).
  assert (Hdistinct : NoDup (map (fun config => Pool.generateProviderId
                                                  (Pool.cfg_url config)) localProviders)).
  { apply (bool_decide_unpack _). vm_compute. exact I. }
  destruct (Hrule calls 1%nat _ Hendpoint (Hkept Hdistinct 1%nat _ Hendpoint))
    as (entry & Hentry & Hstatic & Hcount & Hhealth & _).
  exists entry. split; [exact Hentry|]. split; [|split].
  - unfold PoolSpec.static in Hstatic. inversion Hstatic. reflexivity.
  - rewrite Hcount. vm_compute. reflexivity.
  - apply Hhealth. split; vm_compute; [reflexivity | discriminate].
Defined.

Lemma getProvider_weighted_local :
  count_occ Nat.eq_dec (Pool.weightedList localPool) 1%nat = 2%nat /\
  count_occ Nat.eq_dec (Pool.weightedList localPool) 0%nat = 1%nat.
Proof.
  destruct (getProvider_weighted localProviders None localPool [] 0) as (_ & Hcount & _).
  - reflexivity.
  - vm_compute. discriminate.
  - change (Pool.run localPool []) with localPool in Hcount. split.
    + rewrite (Hcount 1%nat); [vm_compute; reflexivity | vm_compute; auto].
    + rewrite (Hcount 0%nat); [vm_compute; reflexivity | vm_compute; auto].
Defined.

Lemma indexBlocks_empty_window_quiet :
  exists st',
    indexBlocks 10 PollSpec.refusingOnceWorld mainnet 1700000000000 uniToken
                17000501 17002000 resumed = Some (Ok tt, st') /\
    getLogsCalls (Indexer.trace st')
      = [(17000501, 17002000); (17000501, 17001500); (17001501, 17002000)] /\
    getBlockCalls (Indexer.trace st') = [] /\
    Storage.events <$> Storage.db (storage st') = Some [] /\
    fst (Storage.getLastSyncedBlock (Js.toLowerCase (Indexer.address uniToken))
                                    (storage st')) = Ok (Some 17002000).
Proof.
  destruct (Pool.getProvider 1700000000000 (providerPool resumed))
    as [[provider|e] pool] eqn:Hprovider; [|exfalso; vm_compute in Hprovider; discriminate].
  destruct (loop 10 (endpoint PollSpec.refusingOnceWorld (Pool.info_url provider))
                 (Pool.info_id provider) (Js.toLowerCase (Indexer.address uniToken))
                 [transferTopic] 17002000
                 (mkLoop (batch_size (options mainnet)) 17000501 [] ∅
                         (Indexer.trace resumed)))
    as [[[[]|e] s']|] eqn:Hloop.
  - assert (Hnone : allLogs s' = []).
    { assert (H : (fun r => allLogs (snd r)) <$>
                  loop 10 (endpoint PollSpec.refusingOnceWorld (Pool.info_url provider))
                       (Pool.info_id provider)
                       (Js.toLowerCase (Indexer.address uniToken))
                       [transferTopic] 17002000
                       (mkLoop (batch_size (options mainnet)) 17000501 [] ∅
                               (Indexer.trace resumed)) = Some [])
        by (vm_compute; reflexivity).
      rewrite Hloop in H. simpl in H. congruence. }
    destruct (indexBlocks_empty_window 10 PollSpec.refusingOnceWorld mainnet 1700000000000
                uniToken 17000501 17002000 resumed provider pool transferOnly
                [transferTopic] s' Hprovider eq_refl eq_refl Hloop Hnone)
      as (result & st' & Hrun & Htrace & Hblocks & Hevents & Hresult).
    assert (Hok : (fun r => (is_ok (fst r), getLogsCalls (Indexer.trace (snd r)))) <$>
                  indexBlocks 10 PollSpec.refusingOnceWorld mainnet 1700000000000 uniToken
                              17000501 17002000 resumed
                  = Some (true, [(17000501, 17002000); (17000501, 17001500);
                                 (17001501, 17002000)]))
      by (vm_compute; reflexivity).
    rewrite Hrun in Hok. simpl in Hok. injection Hok as Hres Hlogs.
    destruct result as [[]|e]; [|discriminate].
    exists st'. split; [exact Hrun|]. split; [exact Hlogs|].
    split; [exact Hblocks|]. split; [rewrite Hevents; vm_compute; reflexivity|].
    exact (proj1 Hresult).
  - exfalso. vm_compute in Hloop. discriminate.
  - exfalso. vm_compute in Hloop. discriminate.
Defined.

End Instances.

(** * Further properties *)

(** ** Storage: table invariants *)

Section TableFacts.
Import Decoder Storage StorageSpec StorageRun.

Lemma conflicts_key tx li d :
  conflicts tx li d = true <-> In (tx, li) (map rowKey (events d)).
Proof.
  unfold conflicts. rewrite existsb_exists, in_map_iff. split.
  - intros [r [Hin Hr]]. apply andb_true_iff in Hr as [Ht Hl].
    apply String.eqb_eq in Ht. apply Z.eqb_eq in Hl.
    exists r. split; [|exact Hin]. unfold rowKey. congruence.
  - intros [r [Hr Hin]]. inversion Hr; subst. exists r. split; [exact Hin|].
    now rewrite String.eqb_refl, Z.eqb_refl.
Qed.

Lemma StronglySorted_snoc {A} (R : A -> A -> Prop) (l : list A) (x : A) :
  StronglySorted R l -> Forall (fun y => R y x) l -> StronglySorted R (l ++ [x]).
Proof.
  induction 1 as [|a l Hs IH Hall]; intros Hx; simpl.
  - repeat constructor.
  - inversion Hx as [|? ? Hax Hlx]; subst. constructor; [now apply IH|].
    apply Forall_app. split; [exact Hall | now constructor].
Qed.

Lemma insertOrIgnore_tableOk event data t d :
  tableOk d -> tableOk (fst (insertOrIgnore event data t d)).
Proof.
  intros (Hu & Hs & Hb & Hseq). unfold insertOrIgnore.
  destruct (conflicts (transactionHash event) (logIndex event) d) eqn:Hc.
  { simpl. split; [exact Hu|]. split; [exact Hs|]. simpl. split; [|lia].
    eapply Forall_impl; [exact Hb|]. simpl. intros; lia. }
  simpl. split; [|split; [|split]]; simpl.
  - unfold uniqueKeys in *. simpl. rewrite map_app. simpl.
    apply NoDup_app. split; [exact Hu|]. split; [|apply NoDup_singleton].
    intros k Hk Hk'. apply list_elem_of_In in Hk.
    apply list_elem_of_In in Hk' as [<-|[]]. unfold rowKey in Hk. simpl in Hk.
    apply conflicts_key in Hk. congruence.
  - rewrite map_app. simpl. apply StronglySorted_snoc; [exact Hs|].
    apply Forall_forall. intros y Hy. apply list_elem_of_In, in_map_iff in Hy
      as [r [<- Hr]].
    rewrite Forall_forall in Hb. specialize (Hb r (proj2 (list_elem_of_In _ _) Hr)). lia.
  - apply Forall_app. split.
    + eapply Forall_impl; [exact Hb|]. simpl. intros; lia.
    + constructor; [simpl; lia | constructor].
  - lia.
Qed.

Lemma insertMany_tableOk now evs : forall count d,
  tableOk d -> tableOk (snd (insertMany now evs count d)).
Proof.
  induction evs as [|event rest IH]; intros count d Hd; simpl; [exact Hd|].
  destruct (stringify (eventData event)) as [data|e]; [|exact Hd].
  pose proof (insertOrIgnore_tableOk event data (Js.unix_seconds now) d Hd) as H1.
  destruct (insertOrIgnore event data (Js.unix_seconds now) d) as [d1 changes].
  now apply IH.
Qed.

Lemma storageStep_adapterOk a c : adapterOk a -> adapterOk (storageStep a c).
Proof.
  unfold adapterOk. destruct a as [[d|]]; simpl; [|contradiction]. intros Hd.
  destruct c as [now evs | now address chainId blockNum evs]; simpl.
  - unfold insertEvents, ensureDb. simpl.
    destruct (length evs =? 0)%nat; [exact Hd|]. unfold transaction.
    pose proof (insertMany_tableOk now evs 0 d Hd) as H.
    destruct (insertMany now evs 0 d) as [[n|e] d']; simpl; [exact H | exact Hd].
  - unfold updateSyncStateAndInsertEvents, ensureDb, transaction, updateTransaction.
    simpl. set (d1 := upsertSyncState address chainId blockNum (Js.unix_seconds now) d).
    assert (Hd1 : tableOk d1) by exact Hd.
    destruct (0 <? length evs)%nat.
    + rewrite (insertEach_insertMany now evs 0 d1).
      pose proof (insertMany_tableOk now evs 0 d1 Hd1) as H.
      destruct (insertMany now evs 0 d1) as [[n|e] d']; simpl; [exact H | exact Hd].
    + simpl. exact Hd1.
Qed.

Lemma storageRun_adapterOk calls : forall a, adapterOk a -> adapterOk (storageRun a calls).
Proof.
  induction calls as [|c calls IH]; intros a Ha; [exact Ha|].
  simpl. apply IH, storageStep_adapterOk, Ha.
Qed.

(** However events are inserted and committed on a store that starts
    empty, the [events] table never holds two rows with the same
    (transaction_hash, log_index), the row ids increase in insertion
    order (none is used twice), and every id is positive and at most the
    AUTOINCREMENT counter. The ids need not be consecutive, since an
    ignored row uses one up: inserting events 0 and 1 and then events 0
    and 2 gives the ids 1, 2 and 4. *)
Theorem events_table_invariants (calls : list storageCall) :
  match db (storageRun (init emptyDatabase) calls) with
  | Some d =>
    NoDup (map rowKey (events d)) /\
    StronglySorted Z.lt (map row_id (events d)) /\
    Forall (fun r => 0 < row_id r <= events_seq d) (events d)
  | None => False
  end /\
  (let a := storageRun (init emptyDatabase)
              [InsertEvents 1700000000000
                 [Scenarios.transferEvent 0; Scenarios.transferEvent 1];
               InsertEvents 1700000060000
                 [Scenarios.transferEvent 0; Scenarios.transferEvent 2]] in
   (fun d => (map row_id (events d), events_seq d)) <$> db a = Some ([1; 2; 4], 4)).
Proof.
  split; [|vm_compute; reflexivity].
  assert (H0 : adapterOk (init emptyDatabase)).
  { unfold adapterOk, tableOk, uniqueKeys. simpl.
    split; [apply NoDup_nil_2|]. split; [constructor|]. split; [constructor|lia]. }
  pose proof (storageRun_adapterOk calls (init emptyDatabase) H0) as H.
  unfold adapterOk in H.
  destruct (db (storageRun (init emptyDatabase) calls)) as [d|]; [|exact H].
  destruct H as (Hu & Hs & Hb & _). auto.
Qed.

End TableFacts.

(** ** Storage: queries *)

Section QueryFacts.
Import Decoder Storage StorageSpec StorageRun.

Lemma rowLe_spec r1 r2 : rowLe r1 r2 = true <-> eventLe (rowToEvent r1) (rowToEvent r2).
Proof.
  unfold rowLe, eventLe. simpl.
  rewrite orb_true_iff, andb_true_iff, Z.ltb_lt, Z.eqb_eq, Z.leb_le. tauto.
Qed.

Lemma rowLe_total r1 r2 : rowLe r1 r2 = false -> rowLe r2 r1 = true.
Proof.
  intros H. apply rowLe_spec. assert (Hn : ~ rowLe r1 r2 = true) by congruence.
  rewrite rowLe_spec in Hn. unfold eventLe in *. simpl in *. lia.
Qed.

Lemma rowLe_trans r1 r2 r3 : rowLeP r1 r2 -> rowLeP r2 r3 -> rowLeP r1 r3.
Proof. unfold rowLeP. rewrite !rowLe_spec. unfold eventLe. simpl. lia. Qed.

Lemma insertRow_perm r l : Permutation (insertRow r l) (r :: l).
Proof.
  induction l as [|x l IH]; simpl; [reflexivity|].
  destruct (rowLe r x); [reflexivity|]. rewrite IH. apply perm_swap.
Qed.

Lemma orderBy_perm l : Permutation (orderBy l) l.
Proof.
  induction l as [|x l IH]; [reflexivity|].
  unfold orderBy in *. simpl. rewrite insertRow_perm. now constructor.
Qed.

Lemma insertRow_sorted r l :
  StronglySorted rowLeP l -> StronglySorted rowLeP (insertRow r l).
Proof.
  induction l as [|x l IH]; intros Hs; simpl; [repeat constructor|].
  inversion Hs as [|? ? Hs' Hall]; subst.
  destruct (rowLe r x) eqn:Hrx.
  - constructor; [exact Hs|]. constructor; [exact Hrx|].
    eapply Forall_impl; [exact Hall|]. intros y Hy. eapply rowLe_trans; eauto.
  - constructor; [now apply IH|]. rewrite insertRow_perm.
    constructor; [now apply rowLe_total | exact Hall].
Qed.

Lemma orderBy_sorted l : StronglySorted rowLeP (orderBy l).
Proof.
  induction l as [|x l IH]; [constructor|].
  unfold orderBy in *. simpl. now apply insertRow_sorted.
Qed.

Lemma StronglySorted_app_parts {A} (R : A -> A -> Prop) (l1 l2 : list A) :
  StronglySorted R (l1 ++ l2) -> StronglySorted R l1 /\ StronglySorted R l2.
Proof.
  induction l1 as [|a l1 IH]; simpl; intros Hs; [split; [constructor | exact Hs]|].
  inversion Hs as [|? ? Hs' Hall]; subst. destruct (IH Hs') as [H1 H2].
  split; [|exact H2]. constructor; [exact H1|].
  apply Forall_app in Hall. tauto.
Qed.

Lemma limitOffset_parts limit offset rows :
  exists before after, rows = (before ++ limitOffset limit offset rows ++ after)%list.
Proof.
  unfold limitOffset. exists (take (Z.to_nat offset) rows).
  destruct (limit <? 0).
  - exists []. now rewrite app_nil_r, take_drop.
  - exists (drop (Z.to_nat limit) (drop (Z.to_nat offset) rows)).
    now rewrite take_drop, take_drop.
Qed.

Lemma page_parts f rows :
  exists before after, rows = (before ++ page f rows ++ after)%list.
Proof.
  unfold page. destruct (filter_limit f), (filter_offset f);
    try apply limitOffset_parts.
  exists [], []. now rewrite app_nil_r.
Qed.

Lemma whereClause_passes f r :
  whereClause f r = true -> passes f (rowToEvent r).
Proof.
  unfold whereClause, passes, truthy. rewrite !andb_true_iff.
  intros [[[Ha Hn] Hf] Ht]. simpl. repeat split.
  - intros a Hfa Hne. rewrite Hfa in Ha. destruct a as [|c a]; [contradiction|].
    now apply String.eqb_eq in Ha.
  - intros n Hfn Hne. rewrite Hfn in Hn. destruct n as [|c n]; [contradiction|].
    now apply String.eqb_eq in Hn.
  - intros b Hb. rewrite Hb in Hf. now apply Z.leb_le.
  - intros b Hb. rewrite Hb in Ht. now apply Z.leb_le.
Qed.

Lemma StronglySorted_rowToEvent rows :
  StronglySorted rowLeP rows -> StronglySorted eventLe (map rowToEvent rows).
Proof.
  induction 1 as [|r rows Hs IH Hall]; simpl; constructor; [exact IH|].
  apply Forall_forall. intros e He. apply list_elem_of_In, in_map_iff in He
    as [r' [<- Hr']].
  rewrite Forall_forall in Hall. apply rowLe_spec, Hall, list_elem_of_In, Hr'.
Qed.

(** A query on an open store changes nothing and returns events in
    ascending (block_number, log_index) order; each of them is a stored
    row that passes the filter; without LIMIT and OFFSET they are all
    the stored rows passing it; a LIMIT of [l >= 0] bounds their number,
    and an OFFSET alone drops that many rows from the front. An absent
    or empty address or event name filters nothing. *)
Theorem queryEvents_ordered (f : EventFilter) (a : SQLiteAdapter) (d : Database)
    (Hopen : db a = Some d) :
  exists evs,
    queryEvents f a = (Ok evs, a) /\
    StronglySorted eventLe evs /\
    Forall (fun event => passes f event /\
                         exists r, In r (events d) /\ event = rowToEvent r) evs /\
    (filter_limit f = None -> filter_offset f = None ->
     Permutation evs (map rowToEvent (List.filter (whereClause f) (events d)))) /\
    (forall l, filter_limit f = Some l -> 0 <= l -> (length evs <= Z.to_nat l)%nat) /\
    (forall o, filter_limit f = None -> filter_offset f = Some o ->
       (length (events d) <= Z.to_nat MAX_SAFE_INTEGER)%nat ->
       evs = drop (Z.to_nat o)
                  (map rowToEvent (orderBy (List.filter (whereClause f) (events d))))).
Proof.
  unfold queryEvents, ensureDb. rewrite Hopen.
  set (matching := List.filter (whereClause f) (events d)).
  eexists. split; [reflexivity|].
  destruct (page_parts f (orderBy matching)) as (before & after & Hparts).
  pose proof (orderBy_sorted matching) as Hsorted. rewrite Hparts in Hsorted.
  apply StronglySorted_app_parts in Hsorted as [_ Hsorted].
  apply StronglySorted_app_parts in Hsorted as [Hsorted _].
  split; [now apply StronglySorted_rowToEvent|]. split; [|split; [|split]].
  - apply Forall_forall. intros e He.
    apply list_elem_of_In, in_map_iff in He as [r [<- Hr]].
    assert (Hin : In r matching).
    { apply (Permutation_in r (orderBy_perm matching)). rewrite Hparts.
      apply in_or_app. right. apply in_or_app. now left. }
    apply filter_In in Hin as [Hin Hw].
    split; [now apply whereClause_passes | eauto].
  - intros Hl Ho. unfold page. rewrite Hl, Ho. now rewrite orderBy_perm.
  - intros l Hl Hpos. unfold page. rewrite Hl. rewrite length_map.
    destruct (filter_offset f); unfold limitOffset;
      destruct (Z.ltb_spec l 0); try lia; rewrite length_take; lia.
  - intros o Hl Ho Hsize. unfold page, limitOffset. rewrite Hl, Ho.
    change (MAX_SAFE_INTEGER <? 0) with false. cbv iota.
    rewrite take_ge; [now rewrite skipn_map|].
    rewrite length_drop.
    assert (length (orderBy matching) <= length (events d))%nat.
    { rewrite (Permutation_length (orderBy_perm matching)). apply filter_length_le. }
    lia.
Qed.

Lemma queryEvents_ordered_transfers :
  exists evs,
    queryEvents someTransfers reversedStore = (Ok evs, reversedStore) /\
    map blockNumber evs = [115; 116; 117; 118; 119; 120; 121; 122; 123; 124] /\
    StronglySorted eventLe evs /\
    Forall (passes someTransfers) evs /\
    (length evs <= 10)%nat.
Proof.
  destruct (db reversedStore) as [d|] eqn:Hd; [|exfalso; vm_compute in Hd; discriminate].
  destruct (queryEvents_ordered someTransfers reversedStore d Hd)
    as (evs & Hq & Hsorted & Hpass & _ & Hlimit & _).
  exists evs. split; [exact Hq|]. split; [|split; [exact Hsorted|split]].
  - assert (H : match fst (queryEvents someTransfers reversedStore) with
                | Ok found => map blockNumber found
                | Throw _ => []
                end = [115; 116; 117; 118; 119; 120; 121; 122; 123; 124])
      by (vm_compute; reflexivity).
    rewrite Hq in H. exact H.
  - eapply Forall_impl; [exact Hpass|]. intros event [H _]. exact H.
  - apply (Hlimit 10); [reflexivity | lia].
Defined.

End QueryFacts.

(** ** Storage: commits, fresh batches, closed stores *)

Section CommitRowFacts.
Import Decoder Storage StorageSpec StorageRun.

(** A commit that returns leaves, for the contract, a [sync_state] row
    whose [last_block] and [last_sync] are the committed ones whatever
    was stored before (so a lower block number moves [last_block] back),
    whose [chain_id] and [status] are those of the row that was there, or
    the given chain id and ["active"] for a new row; the rows of other
    contracts are not touched. A commit that throws throws a
    [StorageError] and changes nothing. *)
Theorem commit_sync_row (now : Z) (address : string) (chainId blockNum : Z)
    (evs : list DecodedEvent) (a : SQLiteAdapter) (d : Database)
    (Hopen : db a = Some d) :
  match updateSyncStateAndInsertEvents now address chainId blockNum evs a with
  | (Ok _, a') =>
    exists d',
      db a' = Some d' /\
      sync_state d' !! address =
        Some (match sync_state d !! address with
              | Some old =>
                mkSync (chain_id old) blockNum (Js.unix_seconds now) (status old)
              | None => mkSync chainId blockNum (Js.unix_seconds now) "active"
              end) /\
      forall other, other <> address -> sync_state d' !! other = sync_state d !! other
  | (Throw e, a') => a' = a /\ err_name e = "StorageError"
  end.
Proof.
  destruct a as [o]. simpl in Hopen. subst o.
  unfold updateSyncStateAndInsertEvents, ensureDb, transaction, updateTransaction. simpl.
  set (d1 := upsertSyncState address chainId blockNum (Js.unix_seconds now) d).
  assert (Hrow : sync_state d1 !! address =
                 Some (match sync_state d !! address with
                       | Some old =>
                         mkSync (chain_id old) blockNum (Js.unix_seconds now) (status old)
                       | None => mkSync chainId blockNum (Js.unix_seconds now) "active"
                       end)).
  { unfold d1, upsertSyncState. simpl. rewrite lookup_insert_eq.
    destruct (sync_state d !! address); reflexivity. }
  assert (Hother : forall other, other <> address ->
                                 sync_state d1 !! other = sync_state d !! other).
  { intros other Hne. unfold d1, upsertSyncState. simpl.
    now rewrite lookup_insert_ne by congruence. }
  destruct (0 <? length evs)%nat.
  - destruct (insertEach now evs d1) as [[[]|e] d2] eqn:H; simpl; [|auto].
    apply insertEach_ok in H as [[_ Hsync] _].
    exists d2. split; [reflexivity|]. rewrite Hsync. auto.
  - simpl. exists d1. auto.
Qed.

Lemma commit_sync_row_moves_back :
  let a := snd (updateSyncStateAndInsertEvents 1700000000000 "0x1234" 1 101 []
                  (init emptyDatabase)) in
  fst (getLastSyncedBlock "0x1234"
         (snd (updateSyncStateAndInsertEvents 1700000060000 "0x1234" 137 50 [] a)))
  = Ok (Some 50).
Proof.
  intros a.
  pose proof (commit_sync_row 1700000060000 "0x1234" 137 50 [] a
                (mkDb [] 0 (<["0x1234" := mkSync 1 101 1700000000 "active"]> ∅)) eq_refl)
    as H.
  destruct (updateSyncStateAndInsertEvents 1700000060000 "0x1234" 137 50 [] a)
    as [[[]|e] a'] eqn:Hc.
  - destruct H as (d' & Hd' & Hrow & _). simpl.
    unfold getLastSyncedBlock, ensureDb. rewrite Hd'. simpl. rewrite Hrow. reflexivity.
  - vm_compute in Hc. discriminate.
Defined.

Lemma insertMany_fresh now evs : forall count d,
  NoDup (map eventKey evs) -> Forall (fun event => ~ keyed d event) evs ->
  Forall stringifiable evs ->
  exists added,
    insertMany now evs count d =
      (Ok (count + Z.of_nat (length evs)),
       mkDb (events d ++ added) (events_seq d + Z.of_nat (length evs)) (sync_state d)) /\
    Forall2 storedAs evs (map rowToEvent added).
Proof.
  induction evs as [|event rest IH]; intros count d Hnd Hfresh Hstr.
  - exists []. simpl. rewrite app_nil_r, !Z.add_0_r. destruct d. split; [reflexivity|].
    constructor.
  - inversion Hfresh as [|? ? Hf1 Hf2]; inversion Hstr as [|? ? Hs1 Hs2]; subst.
    simpl in Hnd. apply NoDup_cons in Hnd as [Hnotin Hnd].
    unfold stringifiable in Hs1. cbn [insertMany].
    destruct (stringify (eventData event)) as [data|e] eqn:Hdata; [|discriminate].
    unfold insertOrIgnore. unfold keyed in Hf1.
    destruct (conflicts (transactionHash event) (logIndex event) d) eqn:Hc; [congruence|].
    cbn [fst snd]. change (0 <? 1) with true. cbv iota.
    match goal with
    | |- context [insertMany now rest _ ?d1] => destruct (IH (count + 1) d1) as [added [Hm Hst]]
    end.
    + exact Hnd.
    + apply Forall_forall. intros e' He'. rewrite Forall_forall in Hf2.
      specialize (Hf2 e' He'). unfold keyed in *. intros Hk. apply conflicts_key in Hk.
      simpl in Hk. rewrite map_app in Hk. apply in_app_or in Hk as [Hk|[Hk|[]]].
      * apply Hf2, conflicts_key, Hk.
      * apply Hnotin. apply list_elem_of_In, in_map_iff. exists e'.
        split; [|apply list_elem_of_In, He']. unfold eventKey, rowKey in *. simpl in Hk.
        congruence.
    + exact Hs2.
    + eexists (_ :: added). split.
      * rewrite Hm. cbn [length events events_seq sync_state]. rewrite Nat2Z.inj_succ.
        replace (count + Z.succ (Z.of_nat (length rest)))
          with (count + 1 + Z.of_nat (length rest)) by lia.
        replace (events_seq d + Z.succ (Z.of_nat (length rest)))
          with (events_seq d + 1 + Z.of_nat (length rest)) by lia.
        now rewrite <- app_assoc.
      * simpl. constructor; [|exact Hst]. unfold storedAs. simpl. auto 10.
Qed.

(** Inserting a batch whose keys are pairwise distinct and new to the
    table, and whose payloads [JSON.stringify] accepts, returns the size
    of the batch; an unfiltered query then returns the events that were
    there and the events of the batch, each with the fields it was
    inserted with and the payload as serialized. *)
Theorem insertEvents_fresh_roundtrip (now : Z) (evs : list DecodedEvent)
    (a : SQLiteAdapter) (d : Database)
    (Hopen : db a = Some d)
    (Hdistinct : NoDup (map eventKey evs))
    (Hfresh : Forall (fun event => ~ keyed d event) evs)
    (Hpayload : Forall stringifiable evs) :
  exists a' stored queried,
    insertEvents now evs a = (Ok (Z.of_nat (length evs)), a') /\
    Forall2 storedAs evs stored /\
    fst (queryEvents noFilter a') = Ok queried /\
    Permutation queried (map rowToEvent (events d) ++ stored).
Proof.
  destruct a as [o]. simpl in Hopen. subst o.
  destruct (insertMany_fresh now evs 0 d Hdistinct Hfresh Hpayload) as [added [Hm Hst]].
  assert (Hq : forall d0, fst (queryEvents noFilter (mkAdapter (Some d0)))
                          = Ok (map rowToEvent (orderBy (events d0)))).
  { intros d0. unfold queryEvents, ensureDb. cbn [db fst].
    replace (List.filter (whereClause noFilter) (events d0)) with (events d0);
      [reflexivity|].
    induction (events d0) as [|r l IHl]; [reflexivity|].
    cbn [List.filter]. change (whereClause noFilter r) with true. cbv iota.
    now rewrite <- IHl. }
  unfold insertEvents, ensureDb. simpl.
  destruct (length evs =? 0)%nat eqn:Hlen.
  - destruct evs; [|discriminate]. inversion Hst; subst.
    exists (mkAdapter (Some d)), [], (map rowToEvent (orderBy (events d))).
    split; [reflexivity|]. split; [constructor|]. split; [apply Hq|].
    rewrite app_nil_r. now rewrite orderBy_perm.
  - unfold transaction. rewrite Hm. simpl.
    eexists _, (map rowToEvent added), _. split; [reflexivity|]. split; [exact Hst|].
    split; [apply Hq|]. simpl. rewrite orderBy_perm, map_app. reflexivity.
Qed.

Lemma insertEvents_fresh_roundtrip_hundred :
  exists a' stored queried,
    insertEvents 1700000000000 Scenarios.hundredEvents (init emptyDatabase)
      = (Ok 100, a') /\
    Forall2 storedAs Scenarios.hundredEvents stored /\
    fst (queryEvents noFilter a') = Ok queried /\
    Permutation queried stored.
Proof.
  apply (insertEvents_fresh_roundtrip 1700000000000 Scenarios.hundredEvents
           (init emptyDatabase) emptyDatabase eq_refl).
  - apply NoDup_ListNoDup. apply (NoDup_map_inv (fun k : string * Z => snd k)).
    vm_compute. repeat constructor; simpl; intuition discriminate.
  - apply Forall_forall. intros e _ H. unfold keyed in H. discriminate.
  - unfold stringifiable. vm_compute. repeat constructor.
Defined.

Lemma storageStep_open a c : is_Some (db a) -> is_Some (db (storageStep a c)).
Proof.
  intros [d Hd]. destruct a as [o]. simpl in Hd. subst o.
  destruct c as [now evs | now address chainId blockNum evs]; simpl.
  - unfold insertEvents, ensureDb. simpl.
    destruct (length evs =? 0)%nat; [simpl; eauto|].
    destruct (transaction (insertMany now evs 0) d) as [[n|e] d']; simpl; eauto.
  - unfold updateSyncStateAndInsertEvents, ensureDb. simpl.
    destruct (transaction _ d) as [[[]|e] d']; simpl; eauto.
Qed.

(** A store that was closed (or never opened) refuses every call with
    the [StorageError] "Database not initialized or already closed",
    also an insertion of no event, and stays closed through any run of
    calls; closing it again does nothing. An open store is never closed
    by an insertion or a commit, failed or not. *)
Theorem closed_store_rejects (a : SQLiteAdapter) (now : Z) (evs : list DecodedEvent)
    (address : string) (chainId blockNum : Z) (f : EventFilter)
    (calls : list storageCall) (file : Database) :
  let c := close a in
  insertEvents now evs c = (Throw closedError, c) /\
  insertEvents now [] c = (Throw closedError, c) /\
  getLastSyncedBlock address c = (Throw closedError, c) /\
  updateSyncStateAndInsertEvents now address chainId blockNum evs c
    = (Throw closedError, c) /\
  queryEvents f c = (Throw closedError, c) /\
  close c = c /\
  storageRun c calls = c /\
  is_Some (db (storageRun (init file) calls)).
Proof.
  repeat split; try reflexivity.
  - induction calls as [|call calls IH]; [reflexivity|].
    simpl. destruct call; exact IH.
  - assert (H : forall a0, is_Some (db a0) -> is_Some (db (storageRun a0 calls))).
    { induction calls as [|call calls IH]; intros a0 Ha0; [exact Ha0|].
      simpl. apply IH, storageStep_open, Ha0. }
    apply H. simpl. eauto.
Qed.

End CommitRowFacts.

(** ** Paging through a query *)

Section PagingFacts.
Import Decoder Storage StorageRun.




End PagingFacts.

(** ** Decoder: serialization *)

Section SerializeFacts.
Import Decoder DecoderSpec Storage StorageSpec.

(** Induction on values, through the lists they nest. *)
Lemma jsval_nested_ind (P : jsval -> Prop)
    (Hundef : P JUndefined) (Hnull : P JNull) (Hbool : forall b, P (JBool b))
    (Hnum : forall n, P (JNumber n)) (Hbig : forall n, P (JBigInt n))
    (Hstr : forall s, P (JString s))
    (Harr : forall xs, Forall P xs -> P (JArray xs))
    (Hres : forall xs, Forall (fun item => P (snd item)) xs -> P (JResult xs))
    (Hrec : forall props, Forall (fun kv => P (snd kv)) props -> P (JRecord props)) :
  forall v, P v.
Proof.
  fix IH 1. intros [| | b | n | n | s | xs | xs | props].
  - exact Hundef.
  - exact Hnull.
  - apply Hbool.
  - apply Hnum.
  - apply Hbig.
  - apply Hstr.
  - apply Harr. induction xs as [|x xs IHxs]; constructor; [apply IH | exact IHxs].
  - apply Hres. induction xs as [|x xs IHxs]; constructor; [apply IH | exact IHxs].
  - apply Hrec. induction props as [|x xs IHxs]; constructor; [apply IH | exact IHxs].
Qed.

Lemma mapM_Forall2 {A B} (f : A -> outcome B) (xs : list A) (ys : list B) :
  mapM f xs = Ok ys <-> Forall2 (fun x y => f x = Ok y) xs ys.
Proof.
  revert ys. induction xs as [|x xs IH]; intros ys; simpl.
  - split; [intros [= <-]; constructor | intros H; inversion H; reflexivity].
  - destruct (f x) as [y|e] eqn:Hx.
    + destruct (mapM f xs) as [ys'|e] eqn:Hxs.
      * split.
        -- intros [= <-]. constructor; [exact Hx | now apply IH].
        -- intros H. inversion H as [|? y0 ? ys0 Hy Hrest]; subst.
           apply IH in Hrest. congruence.
      * split; [discriminate|]. intros H. inversion H as [|? y0 ? ys0 Hy Hrest]; subst.
        apply IH in Hrest. discriminate.
    + split; [discriminate|]. intros H. inversion H; congruence.
Qed.

(** Serializing a serialized value changes nothing. *)
Lemma serializeValue_stable : forall v w,
  serializeValue v = Ok w -> serializeValue w = Ok w.
Proof.
  assert (Hlist : forall (xs : list jsval) ys,
             Forall (fun x => forall w, serializeValue x = Ok w -> serializeValue w = Ok w) xs ->
             Forall2 (fun x y => serializeValue x = Ok y) xs ys ->
             mapM serializeValue ys = Ok ys).
  { intros xs ys HF H2. apply mapM_Forall2.
    induction H2 as [|x y xs ys Hxy H2 IH2]; [constructor|].
    inversion HF; subst. constructor; auto. }
  induction v as [| | b | n | n | s | xs IH | xs IH | props IH] using jsval_nested_ind;
    intros w H; simpl in H; try (inversion H; subst; reflexivity).
  - destruct (mapM serializeValue xs) as [ys|e] eqn:Hm; [|discriminate].
    inversion H; subst. simpl. apply mapM_Forall2 in Hm.
    now rewrite (Hlist xs ys IH Hm).
  - destruct (mapM _ xs) as [ys|e] eqn:Hm; [|discriminate].
    inversion H; subst. simpl. apply mapM_Forall2 in Hm.
    assert (Hm' : Forall2 (fun x y => serializeValue x = Ok y) (map snd xs) ys).
    { clear -Hm. induction Hm; simpl; constructor; auto. }
    assert (IH' : Forall (fun x => forall w, serializeValue x = Ok w ->
                                             serializeValue w = Ok w) (map snd xs)).
    { clear -IH. induction IH; simpl; constructor; auto. }
    now rewrite (Hlist (map snd xs) ys IH' Hm').
  - destruct (hasProp "toObject" props) eqn:Ht; [discriminate|].
    destruct (hasProp "_isIndexed" props || hasProp "_isBigNumber" props) eqn:Hi;
      inversion H; subst; [reflexivity|].
    simpl. now rewrite Ht, Hi.
Qed.

(** A serialized ABI value is one that [JSON.stringify] accepts. *)
Lemma serializeValue_abi : forall v,
  abiValue v = true ->
  exists w, serializeValue v = Ok w /\ is_ok (stringifyValue w) = true /\
            abiValue w = true.
Proof.
  assert (Hlist : forall xs : list jsval,
             Forall (fun x => abiValue x = true ->
                              exists w, serializeValue x = Ok w /\
                                        is_ok (stringifyValue w) = true /\
                                        abiValue w = true) xs ->
             forallb abiValue xs = true ->
             exists ys, mapM serializeValue xs = Ok ys /\
                        forallb abiValue ys = true /\
                        is_ok (stringifyValue (JArray ys)) = true).
  { intros xs HF. induction HF as [|x xs Hx HF IH]; intros Habi.
    - exists []. auto.
    - simpl in Habi. apply andb_true_iff in Habi as [Hax Haxs].
      destruct (Hx Hax) as (w & Hw & Hsw & Haw). destruct (IH Haxs) as (ys & Hys & Hays & Hsys).
      exists (w :: ys). simpl. rewrite Hw, Hys. split; [reflexivity|].
      split; [now rewrite Haw, Hays|].
      simpl in Hsys. destruct (stringifyValue w) as [w'|e]; [|discriminate].
      destruct (mapM _ ys) as [ys'|e]; [reflexivity | discriminate]. }
  induction v as [| | b | n | n | s | xs IH | xs IH | props IH] using jsval_nested_ind;
    intros Habi; simpl in Habi; try discriminate;
    try (eexists; repeat split; reflexivity).
  - destruct (Hlist xs IH Habi) as (ys & Hys & Hays & Hsys).
    exists (JArray ys). simpl. rewrite Hys. auto.
  - assert (IH' : Forall (fun x => abiValue x = true ->
                                   exists w, serializeValue x = Ok w /\
                                             is_ok (stringifyValue w) = true /\
                                             abiValue w = true) (map snd xs)).
    { clear -IH. induction IH; simpl; constructor; auto. }
    assert (Habi' : forallb abiValue (map snd xs) = true).
    { clear -Habi. induction xs as [|x xs IHx]; simpl in *; [reflexivity|].
      apply andb_true_iff in Habi as [H1 H2]. now rewrite H1, IHx. }
    destruct (Hlist (map snd xs) IH' Habi') as (ys & Hys & Hays & Hsys).
    exists (JArray ys). simpl.
    assert (Hm : mapM (fun item : option string * jsval => serializeValue (snd item)) xs
                 = Ok ys).
    { clear -Hys. revert ys Hys. induction xs as [|x xs IHx]; intros ys Hys; simpl in *;
        [exact Hys|].
      destruct (serializeValue (snd x)); [|discriminate].
      destruct (mapM serializeValue (map snd xs)) as [ys'|]; [|discriminate].
      now rewrite (IHx ys' eq_refl). }
    rewrite Hm. auto.
Qed.

Lemma toObject_values args : forall acc obj,
  toObject args acc = Ok obj ->
  Forall (fun kv => abiValue (snd kv) = true) acc ->
  Forall (fun item => abiValue (snd item) = true) args ->
  Forall (fun kv => abiValue (snd kv) = true) obj.
Proof.
  induction args as [|[[name|] v] rest IH]; intros acc obj H Hacc Hargs; simpl in H.
  - inversion H; subst. exact Hacc.
  - inversion Hargs as [|? ? Hv Hrest]; subst. simpl in Hv.
    eapply IH; [exact H| |exact Hrest].
    clear -Hacc Hv. induction acc as [|[k w] acc IHa]; simpl.
    + constructor; [exact Hv | constructor].
    + inversion Hacc; subst. destruct (String.eqb k name); constructor; auto.
  - discriminate.
Qed.

Lemma stringifyProps_ok (obj : list (string * jsval)) :
  Forall (fun kv => is_ok (stringifyValue (snd kv)) = true) obj ->
  is_ok (stringifyProps stringifyValue obj) = true.
Proof.
  induction 1 as [|[k v] obj Hv HF IH]; simpl; [reflexivity|].
  simpl in Hv. destruct (stringifyValue v); [|discriminate].
  destruct (stringifyProps stringifyValue obj); [reflexivity | discriminate].
Qed.

(** Re-serializing the payload of a decoded event leaves every value as
    it is; and when the parsed arguments are ABI values, the payload holds
    no bigint any more: [JSON.stringify] accepts it, so inserting the
    event into an open store does not throw. *)
Theorem decoded_payload_serializable (iface : Interface) (log : Log)
    (event : DecodedEvent)
    (Hdecoded : decode iface log = Ok (Some event)) :
  Forall (fun kv => serializeValue (snd kv) = Ok (snd kv)) (eventData event) /\
  ((forall parsed,
       parseLog iface (log_topics log) (log_data log) = Ok (Some parsed) ->
       Forall (fun item => abiValue (snd item) = true) (parsed_args parsed)) ->
   stringifiable event /\
   forall now a d, db a = Some d -> is_ok (fst (insertEvents now [event] a)) = true).
Proof.
  destruct (decode_cases iface log) as [H | (parsed & data & Hparse & Hser & H)];
    rewrite H in Hdecoded; [discriminate|].
  inversion Hdecoded; subst event. simpl. clear H Hdecoded.
  unfold serializeEventData in Hser.
  destruct (toObject (parsed_args parsed) []) as [obj|e] eqn:Hobj; [|discriminate].
  apply mapM_Forall2 in Hser.
  split.
  - clear Hobj. induction Hser as [|[k v] [k' w] obj data Hkv Hrest IH]; constructor; auto.
    simpl in *. destruct (serializeValue v) as [w'|e] eqn:Hv; [|discriminate].
    inversion Hkv; subst. eapply serializeValue_stable; eauto.
  - intros Habi. specialize (Habi parsed Hparse).
    pose proof (toObject_values _ _ _ Hobj (List.Forall_nil _) Habi) as Hvals.
    assert (Hstr : is_ok (stringify data) = true).
    { apply stringifyProps_ok. clear Hobj Habi.
      induction Hser as [|[k v] [k' w] obj data Hkv Hrest IH]; constructor.
      - inversion Hvals as [|? ? Hv Hrest']; subst. simpl in *.
        destruct (serializeValue_abi v Hv) as (w0 & Hw0 & Hs & _).
        rewrite Hw0 in Hkv. inversion Hkv; subst. exact Hs.
      - inversion Hvals; subst. auto. }
    split; [exact Hstr|].
    intros now [o] d Hopen. simpl in Hopen. subst o.
    unfold insertEvents, ensureDb, transaction. simpl.
    destruct (stringify data) as [doc|e]; [|discriminate].
    destruct (insertOrIgnore _ doc (Js.unix_seconds now) d) as [d' changes].
    destruct (0 <? changes); reflexivity.
Qed.

Lemma decoded_payload_serializable_transfer :
  let iface := mkInterface
                 (fun _ _ => Ok (Some (mkParsed "Transfer"
                    [(Some "from", JString "0x1234"); (Some "to", JString "0xabcd");
                     (Some "value", JBigInt 1000000000000000000)])))
                 (fun _ => Ok None) in
  let event := mkEvent "0xabc" 7 0 "0x01" 3 "Transfer"
                       [("from", JString "0x1234"); ("to", JString "0xabcd");
                        ("value", JString "1000000000000000000")] in
  stringifiable event.
Proof.
  intros iface event.
  destruct (decoded_payload_serializable iface (mkLog "0xabc" 7 "0x01" 3 [] "0x") event)
    as [_ H].
  - vm_compute. reflexivity.
  - apply H. intros parsed Hp. inversion Hp; subst. repeat constructor.
Defined.

End SerializeFacts.

(** ** Fetcher: windows, errors, timestamps *)

Section WindowFacts.
Import Decoder Fetcher FetcherSpec WindowSpec.

Lemma getLogsCalls_app tr1 tr2 :
  getLogsCalls (tr1 ++ tr2) = (getLogsCalls tr1 ++ getLogsCalls tr2)%list.
Proof. unfold getLogsCalls. apply omap_app. Qed.

(** When every [getLogs] call succeeds the loop ends, having asked for
    windows that tile the range. *)
Lemma loop_tiles P pid addr topicHashes upTo
    (Hok : forall n f, exists logs, getLogs P n f = Ok logs) : forall fuel s,
  1 <= chunkSize s ->
  (Z.to_nat (upTo - currentBlock s + 1) < fuel)%nat ->
  exists s' fs,
    loop fuel P pid addr topicHashes upTo s = Some (Ok tt, s') /\
    Fetcher.trace s' = (Fetcher.trace s ++ map GetLogs fs)%list /\
    tiles (chunkSize s) (currentBlock s) upTo (map window fs) /\
    Forall (fun f => Fetcher.address f = addr /\ topics f = topicHashes) fs /\
    limits s' = limits s /\ chunkSize s' = chunkSize s.
Proof.
  induction fuel as [|fuel IH]; intros s Hchunk Hfuel; [lia|].
  rewrite loop_unfold.
  destruct (Z.le_gt_cases (currentBlock s) upTo) as [Hle|Hgt].
  - set (rangeEnd := Z.min (currentBlock s + chunkSize s - 1) upTo).
    destruct (Hok (length (Fetcher.trace s))
                  (mkLogFilter addr topicHashes (currentBlock s) rangeEnd)) as [logs Hlogs].
    rewrite (loopBody_success P pid addr topicHashes upTo s rangeEnd logs Hle eq_refl Hlogs).
    destruct (IH (mkLoop (chunkSize s) (rangeEnd + 1) (allLogs s ++ logs) (limits s)
                         (Fetcher.trace s ++
                            [GetLogs (mkLogFilter addr topicHashes (currentBlock s)
                                                  rangeEnd)])))
      as (s' & fs & Hloop & Htr & Htiles & Hfs & Hlim & Hch);
      [exact Hchunk | simpl; unfold rangeEnd; lia |].
    exists s', (mkLogFilter addr topicHashes (currentBlock s) rangeEnd :: fs).
    split; [exact Hloop|]. simpl in Htr, Htiles, Hlim, Hch.
    split; [rewrite Htr, <- app_assoc; reflexivity|].
    split; [|split; [|split; assumption]].
    + simpl. unfold window at 1. simpl. apply tiles_step; [exact Hle | reflexivity|].
      exact Htiles.
    + constructor; [split; reflexivity | exact Hfs].
  - rewrite loopBody_exit by lia. exists s, []. simpl. rewrite app_nil_r.
    repeat split; try reflexivity; [|constructor]. apply tiles_done. lia.
Qed.

(** When every [getLogs] call succeeds, [fetchEvents] returns, having
    asked for windows that cover [from..upTo] in order, without gap or
    overlap, each as wide as the chunk size in force except the last; all
    of them carry the contract address and the resolved topics; the cached
    limits are unchanged. A window of one block is asked for in exactly
    one call. *)
Theorem fetchEvents_windows_tile (fuel : nat) (P : Provider) (fx : EventFetcher)
    (contractAddress : string) (eventNames topicHashes : list string) (from upTo : Z)
    (tr : list rpc)
    (Hok : forall n f, exists logs, getLogs P n f = Ok logs)
    (Htopics : resolveTopics (decoder fx) eventNames = Ok topicHashes)
    (Hchunk : 1 <= currentChunkSize fx)
    (Hfuel : (Z.to_nat (upTo - from + 1) < fuel)%nat) :
  exists result fx' tr' fs,
    fetchEvents fuel P fx contractAddress eventNames from upTo tr
      = Some (result, fx', tr') /\
    getLogsCalls tr' = (getLogsCalls tr ++ map window fs)%list /\
    tiles (currentChunkSize fx) from upTo (map window fs) /\
    Forall (fun f => Fetcher.address f = contractAddress /\ topics f = topicHashes) fs /\
    blockRangeLimits fx' = blockRangeLimits fx /\
    (from = upTo -> map window fs = [(from, from)]).
Proof.
  unfold fetchEvents. rewrite Htopics.
  destruct (loop_tiles P (providerId fx) contractAddress topicHashes upTo Hok fuel
              (mkLoop (currentChunkSize fx) from [] (blockRangeLimits fx) tr) Hchunk Hfuel)
    as (s' & fs & Hloop & Htr & Htiles & Hfs & Hlim & Hch).
  rewrite Hloop. simpl in Htr, Htiles, Hlim.
  pose proof (enrichWithTimestamps_calls P
    (mkFetcher (providerId fx) (decoder fx) (initialChunkSize fx) (limits s')
               (blockTimestampCache fx)) (allLogs s') (Fetcher.trace s')) as He.
  destruct (enrichWithTimestamps _ _ _ _) as [[result fx'] tr'].
  destruct He as (Hcalls & Hlimits & _ & _).
  exists result, fx', tr', fs. split; [reflexivity|].
  split.
  { rewrite Hcalls, Htr, getLogsCalls_app. f_equal.
    clear. induction fs as [|f fs IH]; [reflexivity|]. simpl. now rewrite <- IH. }
  split; [exact Htiles|]. split; [exact Hfs|]. split; [simpl in Hlimits; congruence|].
  intros ->. inversion Htiles as [? ? Hlt | ? ? rangeEnd rest Hle Hend Hrest Heq]; [lia|].
  subst. replace (Z.min (upTo + currentChunkSize fx - 1) upTo) with upTo in * by lia.
  inversion Hrest; [reflexivity | lia].
Qed.

Lemma fetchEvents_windows_tile_single_block :
  exists result fx' tr' fs,
    fetchEvents 2 (refusing 0) (new "provider-1" transferOnly 2000) "0xabc" ["Transfer"]
                17000000 17000000 [] = Some (result, fx', tr') /\
    getLogsCalls tr' = map window fs /\
    map window fs = [(17000000, 17000000)].
Proof.
  destruct (fetchEvents_windows_tile 2 (refusing 0) (new "provider-1" transferOnly 2000)
              "0xabc" ["Transfer"] [transferTopic] 17000000 17000000 [])
    as (result & fx' & tr' & fs & Hf & Hcalls & _ & _ & _ & Hone).
  - intros n f. exists []. reflexivity.
  - reflexivity.
  - vm_compute. discriminate.
  - vm_compute. lia.
  - exists result, fx', tr', fs. split; [exact Hf|]. split; [exact Hcalls|].
    apply Hone. reflexivity.
Defined.

(** The event names are resolved in order before any call to the
    endpoint. At the first name that does not resolve, [fetchEvents]
    throws, whatever the window, with the fetcher unchanged: "Event
    <name> not found in contract interface" when the ABI has no such
    event, and the error of [getEvent] itself when the name is ambiguous
    or malformed. *)
Theorem fetchEvents_unknown_event (fuel : nat) (P : Provider) (fx : EventFetcher)
    (contractAddress : string) (known : list string) (name : string)
    (rest : list string) (from upTo : Z) (tr : list rpc)
    (Hknown : Forall (fun n => exists topicHash,
                          getEvent (decoder fx) n = Ok (Some topicHash)) known) :
  match getEvent (decoder fx) name with
  | Ok (Some _) => True
  | Ok None =>
    fetchEvents fuel P fx contractAddress (known ++ name :: rest) from upTo tr =
      Some (Throw (mkError "Error"
                     ("Event " ++ name ++ " not found in contract interface")),
            fx, tr)
  | Throw e =>
    fetchEvents fuel P fx contractAddress (known ++ name :: rest) from upTo tr =
      Some (Throw e, fx, tr)
  end.
Proof.
  assert (H : forall names,
             resolveTopics (decoder fx) (known ++ names) =
             match resolveTopics (decoder fx) names with
             | Ok topics =>
               match resolveTopics (decoder fx) known with
               | Ok first => Ok (first ++ topics)%list
               | Throw e => Throw e
               end
             | Throw e => Throw e
             end).
  { intros names. unfold resolveTopics.
    induction Hknown as [|n known [topic Hn] Hrest IH]; simpl.
    - destruct (mapM _ names); reflexivity.
    - rewrite Hn, IH. destruct (mapM _ names); [|reflexivity].
      destruct (mapM _ known); reflexivity. }
  unfold fetchEvents. rewrite H.
  destruct (getEvent (decoder fx) name) as [[topic|]|e] eqn:Hn; [exact I| |];
    unfold resolveTopics at 1; simpl; rewrite Hn; reflexivity.
Qed.

Lemma fetchEvents_unknown_event_approval :
  fetchEvents 0 (refusing 0) (new "provider-1" transferOnly 2000) "0xabc"
              (["Transfer"] ++ "Approval" :: ["Transfer"]) 17000000 17002000 [] =
    Some (Throw (mkError "Error" "Event Approval not found in contract interface"),
          new "provider-1" transferOnly 2000, []) /\
  fetchEvents 0 (refusing 0) (new "provider-1" overloaded 2000) "0xabc"
              ([] ++ "Transfer" :: ["Approval"]) 17000000 17002000 [] =
    Some (Throw (mkError "TypeError" "ambiguous event description"),
          new "provider-1" overloaded 2000, []).
Proof.
  split.
  - apply (fetchEvents_unknown_event 0 (refusing 0) (new "provider-1" transferOnly 2000)
             "0xabc" ["Transfer"] "Approval" ["Transfer"] 17000000 17002000 []).
    constructor; [|constructor]. exists transferTopic. reflexivity.
  - apply (fetchEvents_unknown_event 0 (refusing 0) (new "provider-1" overloaded 2000)
             "0xabc" [] "Transfer" ["Approval"] 17000000 17002000 []).
    constructor.
Defined.



(** An endpoint that answers every [getLogs] call with a range error
    keeps [fetchEvents] in its loop for ever: once the chunk size is at
    the floor the same window is asked for again and again, and no number
    of iterations ends the call. *)
Theorem fetchEvents_never_returns (P : Provider) (fx : EventFetcher)
    (contractAddress : string) (eventNames topicHashes : list string) (from upTo : Z)
    (tr : list rpc)
    (Htopics : resolveTopics (decoder fx) eventNames = Ok topicHashes)
    (Hwindow : from <= upTo)
    (Hrefuses : forall n f, exists e, getLogs P n f = Throw e /\ isBlockRangeError e = true) :
  forall fuel, fetchEvents fuel P fx contractAddress eventNames from upTo tr = None.
Proof.
  intros fuel. unfold fetchEvents. rewrite Htopics.
  assert (H : forall s, currentBlock s <= upTo ->
                        loop fuel P (providerId fx) contractAddress topicHashes upTo s = None).
  { induction fuel as [|fuel IH]; intros s Hs; [reflexivity|].
    rewrite loop_unfold.
    destruct (Hrefuses (length (Fetcher.trace s))
                (mkLogFilter contractAddress topicHashes (currentBlock s)
                             (Z.min (currentBlock s + chunkSize s - 1) upTo)))
      as (e & He & Hr).
    rewrite (loopBody_rangeError P _ _ _ upTo s _ e Hs eq_refl He Hr).
    apply IH. exact Hs. }
  rewrite H; [reflexivity | exact Hwindow].
Qed.

Lemma fetchEvents_never_returns_refusing :
  fetchEvents 1000 alwaysRefusing (new "provider-1" transferOnly 2000) "0xabc"
              ["Transfer"] 17000000 17002000 [] = None.
Proof.
  apply (fetchEvents_never_returns alwaysRefusing (new "provider-1" transferOnly 2000)
           "0xabc" ["Transfer"] [transferTopic] 17000000 17002000 []).
  - reflexivity.
  - lia.
  - intros n f. exists rangeTooLarge. split; [reflexivity | vm_compute; reflexivity].
Defined.

End WindowFacts.

Section TimestampFacts.
Import Decoder Fetcher FetcherSpec WindowSpec.







End TimestampFacts.

(** ** Provider pool: snapshots, fallback, rotation, shadowed entries *)

Section PoolMoreFacts.
Import Pool PoolSpec CheckoutSpec.

Lemma omap_lookup_all {A} (l : list A) : omap (l !!.) (seq 0 (length l)) = l.
Proof.
  induction l as [|x l IH]; [reflexivity|].
  simpl. f_equal. rewrite <- seq_shift.
  rewrite <- IH at 2. clear IH. generalize (seq 0 (length l)) as ks.
  induction ks as [|k ks IHk]; [reflexivity|]. simpl.
  destruct (l !! k); simpl; now rewrite IHk.
Qed.

Lemma snapshot_sorted st refs :
  StronglySorted (higherFirst st) refs ->
  Forall (fun r => (r < length st)%nat) refs ->
  StronglySorted (fun a b => priority b <= priority a) (omap (st !!.) refs).
Proof.
  induction 1 as [|r refs Hs IH Hall]; intros Hrefs; simpl; [constructor|].
  inversion Hrefs as [|? ? Hr Hrest]; subst.
  destruct (lookup_lt_is_Some_2 st r Hr) as [e He]. rewrite He.
  constructor; [now apply IH|].
  apply Forall_forall. intros e' He'. apply list_elem_of_omap in He' as (r' & Hr' & He').
  rewrite Forall_forall in Hall. specialize (Hall r' Hr').
  unfold higherFirst, priorityOf in Hall. now rewrite He, He' in Hall.
Qed.

Lemma snapshot_static (st1 st2 : list ProviderEntry) (refs : list nat) :
  map static st1 = map static st2 ->
  map static (omap (st1 !!.) refs) = map static (omap (st2 !!.) refs).
Proof.
  intros Hs. induction refs as [|r refs IH]; [reflexivity|].
  assert (Hr : static <$> st1 !! r = static <$> st2 !! r).
  { rewrite <- !list_lookup_fmap. now f_equal. }
  change (omap (st1 !!.) (r :: refs))
    with (match st1 !! r with Some e => e :: omap (st1 !!.) refs
                            | None => omap (st1 !!.) refs end).
  change (omap (st2 !!.) (r :: refs))
    with (match st2 !! r with Some e => e :: omap (st2 !!.) refs
                            | None => omap (st2 !!.) refs end).
  destruct (st1 !! r) as [e1|], (st2 !! r) as [e2|]; try discriminate Hr; [|exact IH].
  change (Some (static e1) = Some (static e2)) in Hr.
  assert (Hst : static e1 = static e2) by congruence.
  change (map static (e1 :: omap (st1 !!.) refs))
    with (static e1 :: map static (omap (st1 !!.) refs)).
  change (map static (e2 :: omap (st2 !!.) refs))
    with (static e2 :: map static (omap (st2 !!.) refs)).
  now rewrite Hst, IH.
Qed.

Lemma healthOf_sorted (entries : list ProviderEntry) :
  StronglySorted (fun a b => priority b <= priority a) entries ->
  StronglySorted (fun a b => priority b <= priority a) (map healthOf entries).
Proof.
  induction 1 as [|e entries Hs IH Hall]; simpl; constructor; [exact IH|].
  apply Forall_forall. intros e' He'. apply list_elem_of_In, in_map_iff in He'
    as [e0 [<- He0]].
  rewrite Forall_forall in Hall. simpl. apply (Hall e0), list_elem_of_In, He0.
Qed.

Lemma constructor_shape configs options pool :
  constructor configs options = Ok pool ->
  configs <> [] /\
  store pool = map newEntry configs /\
  providerList pool
    = sortByPriority (map newEntry configs) (seq 0 (length (map newEntry configs))) /\
  failureThreshold pool = default 3 (options ≫= opt_failureThreshold) /\
  cooldownPeriod pool = default 30000 (options ≫= opt_cooldownPeriod).
Proof.
  unfold constructor. destruct configs as [|c configs]; [discriminate|].
  change (length (c :: configs) =? 0)%nat with false. cbv iota.
  intros [= <-]. repeat split. discriminate.
Qed.

(** The constructor refuses an empty list; otherwise the health snapshot
    of the pool lists every configured endpoint once, highest priority
    first, healthy and with no failure at the start, and after any run
    of calls it still lists the same endpoints in the same order. The
    options default to 3 failures and 30000 ms. *)
Theorem getHealthStatus_snapshot (configs : list ProviderConfig)
    (options : option ProviderPoolOptions) (calls : list call) :
  match constructor configs options with
  | Throw e =>
    configs = [] /\ err_message e = "At least one provider configuration is required"
  | Ok pool =>
    configs <> [] /\
    Permutation (getHealthStatus pool) (map newEntry configs) /\
    StronglySorted (fun a b => priority b <= priority a) (getHealthStatus pool) /\
    map static (getHealthStatus (run pool calls)) = map static (getHealthStatus pool) /\
    failureThreshold pool = default 3 (options ≫= opt_failureThreshold) /\
    cooldownPeriod pool = default 30000 (options ≫= opt_cooldownPeriod)
  end.
Proof.
  destruct (constructor configs options) as [pool|e] eqn:Hnew.
  - pose proof (constructor_wellFormed _ _ _ Hnew) as Hwf.
    pose proof (run_sameShape calls pool) as Hsh.
    destruct (constructor_shape _ _ _ Hnew) as (Hne & Hstore & Hlist & Hth & Hcd).
    split; [exact Hne|]. split; [|split; [|split]].
    + unfold getHealthStatus. rewrite Hlist, Hstore, sortByPriority_perm.
      rewrite omap_lookup_all, map_map. now rewrite (map_ext _ newEntry) by reflexivity.
    + unfold getHealthStatus. apply healthOf_sorted.
      apply snapshot_sorted; [apply (wf_sorted pool Hwf) | apply (wf_refs pool Hwf)].
    + unfold getHealthStatus. destruct Hsh as [Hs _ Hl _ _]. rewrite Hl.
      rewrite !map_map. rewrite !(map_ext (fun e => static (healthOf e)) static)
        by reflexivity.
      now apply snapshot_static.
    + split; assumption.
  - unfold constructor in Hnew. destruct configs; [|discriminate].
    simpl in Hnew. inversion Hnew. auto.
Qed.

Lemma last_filter_split {A} (f : A -> bool) (l : list A) (x : A) :
  last (List.filter f l) = Some x ->
  f x = true /\ exists l1 l2, l = (l1 ++ x :: l2)%list /\ Forall (fun y => f y = false) l2.
Proof.
  induction l as [|a l IH]; simpl; [discriminate|].
  destruct (f a) eqn:Ha.
  - destruct (List.filter f l) as [|b rest] eqn:Hf.
    + simpl. intros [= <-]. split; [exact Ha|]. exists [], l. split; [reflexivity|].
      apply Forall_forall. intros y Hy. destruct (f y) eqn:Hfy; [|reflexivity].
      assert (Hin : In y (List.filter f l)) by (apply filter_In; split;
        [apply list_elem_of_In, Hy | exact Hfy]).
      rewrite Hf in Hin. destruct Hin.
    + intros H. change (last (a :: b :: rest)) with (last (b :: rest)) in H.
      destruct (IH H) as (Hx & l1 & l2 & -> & Hl2).
      split; [exact Hx|]. exists (a :: l1), l2. auto.
  - intros H. destruct (IH H) as (Hx & l1 & l2 & -> & Hl2).
    split; [exact Hx|]. exists (a :: l1), l2. auto.
Qed.

(** With no healthy endpoint, [getProvider] leaves the pool as it is
    (the cursor does not move and nothing becomes healthy) and either
    returns an unhealthy endpoint whose last failure is at least
    [cooldownPeriod] old, namely the last such endpoint in priority
    order, or throws "No healthy providers available" when there is none.
    An endpoint is given this trial again at every call until a success
    is reported for it. *)
Theorem getProvider_fallback (now : Z) (p : ProviderPool)
    (Hnone : healthyProviders p = []) :
  match getProvider now p with
  | (Ok info, p') =>
    p' = p /\
    exists r e l1 l2 t,
      providerList p = (l1 ++ r :: l2)%list /\
      store p !! r = Some e /\ info = infoOf e /\
      healthy e = false /\ lastFailure e = Some t /\ cooldownPeriod p <= now - t /\
      Forall (fun r' => pastCooldown p now r' = false) l2
  | (Throw e, p') =>
    p' = p /\ e = noProviders /\
    Forall (fun r => pastCooldown p now r = false) (providerList p)
  end.
Proof.
  unfold getProvider. rewrite Hnone. simpl. unfold bestUnhealthyProvider.
  destruct (last (List.filter (pastCooldown p now) (providerList p))) as [r|] eqn:Hlast.
  - apply last_filter_split in Hlast as (Hr & l1 & l2 & Hl & Hl2). simpl.
    unfold pastCooldown in Hr. destruct (store p !! r) as [e|] eqn:He; [|discriminate].
    apply andb_true_iff in Hr as [Hh Ht].
    destruct (lastFailure e) as [t|] eqn:Hlf; [|discriminate].
    split; [reflexivity|]. exists r, e, l1, l2, t.
    repeat split; auto.
    + now destruct (healthy e).
    + now apply Z.leb_le.
  - simpl. split; [reflexivity|]. split; [reflexivity|].
    apply Forall_forall. intros r Hr.
    destruct (pastCooldown p now r) eqn:Hp; [|reflexivity].
    assert (Hin : In r (List.filter (pastCooldown p now) (providerList p)))
      by (apply filter_In; split; [apply list_elem_of_In, Hr | exact Hp]).
    destruct (List.filter (pastCooldown p now) (providerList p)) as [|a rest];
      [destruct Hin|].
    exfalso. clear -Hlast. revert a Hlast. induction rest as [|b rest IH]; intros a H;
      [discriminate|]. apply (IH b). exact H.
Qed.

End PoolMoreFacts.

Section RotationFacts.
Import Pool PoolSpec CheckoutSpec.

Lemma getProvider_advances now p :
  healthyProviders p <> [] ->
  exists r e,
    weightedList p !! Z.to_nat (roundRobinIndex p mod Z.of_nat (length (weightedList p)))
      = Some r /\
    store p !! r = Some e /\
    getProvider now p = (Ok (infoOf e), advanced p).
Proof.
  intros Hhealthy.
  assert (Hlen : (0 < length (weightedList p))%nat).
  { unfold weightedList. destruct (healthyProviders p) as [|a rest]; [contradiction|].
    simpl. rewrite length_app, length_replicate. unfold weight. lia. }
  set (n := length (weightedList p)) in *.
  assert (Hidx : (Z.to_nat (roundRobinIndex p mod Z.of_nat n) < n)%nat).
  { pose proof (Z.mod_pos_bound (roundRobinIndex p) (Z.of_nat n)). lia. }
  destruct (lookup_lt_is_Some_2 (weightedList p) _ Hidx) as [r Hr].
  assert (Hin : In r (healthyProviders p)).
  { apply list_elem_of_lookup_2, list_elem_of_In in Hr.
    unfold weightedList in Hr. apply in_flat_map in Hr as [r' [Hr' Hrep]].
    apply list_elem_of_In, elem_of_replicate in Hrep as [-> _]. exact Hr'. }
  apply filter_In in Hin as [_ Hh]. unfold isHealthy in Hh.
  destruct (store p !! r) as [e|] eqn:He; [|discriminate].
  exists r, e. split; [exact Hr|]. split; [exact He|].
  unfold getProvider.
  assert (Hpos : (0 <? length (healthyProviders p))%nat = true).
  { apply Nat.ltb_lt. destruct (healthyProviders p); [contradiction | simpl; lia]. }
  rewrite Hpos. fold n. rewrite Hr. simpl. rewrite He. reflexivity.
Qed.

Lemma checkouts_lookup nows : forall p k result,
  healthyProviders p <> [] ->
  fst (checkouts nows p) !! k = Some result ->
  exists r e,
    weightedList p !!
      Z.to_nat ((roundRobinIndex p + Z.of_nat k) mod Z.of_nat (length (weightedList p)))
      = Some r /\
    store p !! r = Some e /\ result = Ok (infoOf e).
Proof.
  induction nows as [|now rest IH]; intros p k result Hh Hk; [discriminate|].
  cbn [checkouts] in Hk.
  destruct (getProvider_advances now p Hh) as (r & e & Hr & He & Hget).
  rewrite Hget in Hk.
  destruct (checkouts rest (advanced p)) as [results p2] eqn:Hrest.
  destruct k as [|k]; simpl in Hk.
  - inversion Hk; subst. exists r, e. rewrite Z.add_0_r. auto.
  - assert (Hk' : fst (checkouts rest (advanced p)) !! k = Some result)
      by (rewrite Hrest; exact Hk).
    apply IH in Hk' as (r' & e' & Hr' & He' & Hres); [|exact Hh].
    exists r', e'. split; [|auto].
    change (weightedList (advanced p)) with (weightedList p) in Hr'.
    change (roundRobinIndex (advanced p)) with (roundRobinIndex p + 1) in Hr'.
    replace (roundRobinIndex p + Z.of_nat (S k)) with (roundRobinIndex p + 1 + Z.of_nat k)
      by lia.
    exact Hr'.
Qed.

Lemma checkouts_state nows : forall p,
  healthyProviders p <> [] ->
  length (fst (checkouts nows p)) = length nows /\
  store (snd (checkouts nows p)) = store p /\
  roundRobinIndex (snd (checkouts nows p)) = roundRobinIndex p + Z.of_nat (length nows).
Proof.
  induction nows as [|now rest IH]; intros p Hh; simpl.
  - split; [reflexivity|]. split; [reflexivity | lia].
  - destruct (getProvider_advances now p Hh) as (r & e & _ & _ & Hget). rewrite Hget.
    destruct (IH (advanced p) Hh) as (Hl & Hs & Hrr).
    destruct (checkouts rest (advanced p)) as [results p2]. simpl in *.
    split; [now rewrite Hl|]. split; [exact Hs|].
    rewrite Hrr. lia.
Qed.

(** As many checkouts in a row as the weighted list is long, with no
    report in between, return every healthy endpoint exactly as many
    times as its weight: the results are the weighted list read round
    from the cursor. The cursor ends that many places further and the
    entries are untouched. *)
Theorem checkouts_full_round (nows : list Z) (p : ProviderPool)
    (Hhealthy : healthyProviders p <> [])
    (Hround : length nows = length (weightedList p)) :
  exists refs,
    Permutation refs (weightedList p) /\
    Forall2 (fun result r => exists e, store p !! r = Some e /\ result = Ok (infoOf e))
            (fst (checkouts nows p)) refs /\
    store (snd (checkouts nows p)) = store p /\
    roundRobinIndex (snd (checkouts nows p))
      = roundRobinIndex p + Z.of_nat (length (weightedList p)).
Proof.
  destruct (checkouts_state nows p Hhealthy) as (Hlen & Hstore & Hrr).
  set (wl := weightedList p) in *. set (n := length wl) in *.
  assert (Hpos : (0 < n)%nat).
  { unfold n, wl, weightedList. destruct (healthyProviders p) as [|a rest]; [contradiction|].
    simpl. rewrite length_app, length_replicate. unfold weight. lia. }
  set (m := Z.to_nat (roundRobinIndex p mod Z.of_nat n)).
  exists (rotate m wl). split; [|split; [|split]].
  - unfold rotate. rewrite Permutation_app_comm. now rewrite take_drop.
  - apply Forall2_same_length_lookup_2.
    + rewrite length_rotate. fold n. congruence.
    + intros k result r Hk Hr.
      pose proof (lookup_lt_Some _ _ _ Hr) as Hkn. rewrite length_rotate in Hkn. fold n in Hkn.
      rewrite lookup_rotate_r in Hr by exact Hkn.
      destruct (checkouts_lookup nows p k result Hhealthy Hk) as (r' & e & Hr' & He & Hres).
      fold wl in Hr'. fold n in Hr', Hr.
      assert (Hsame : rotate_nat_add m k n
                      = Z.to_nat ((roundRobinIndex p + Z.of_nat k) mod Z.of_nat n)).
      { unfold rotate_nat_add, m. f_equal.
        pose proof (Z.mod_pos_bound (roundRobinIndex p) (Z.of_nat n)).
        rewrite Z2Nat.id by lia. rewrite Zplus_mod_idemp_l. reflexivity. }
      rewrite Hsame, Hr' in Hr. inversion Hr; subst. eauto.
  - exact Hstore.
  - rewrite Hrr, Hround. reflexivity.
Qed.

Lemma checkouts_full_round_local :
  exists refs,
    Permutation refs [1%nat; 1%nat; 0%nat] /\
    Forall2 (fun result r =>
               exists e, store IndexerSpec.localPool !! r = Some e /\ result = Ok (infoOf e))
            (fst (checkouts [10; 20; 30] IndexerSpec.localPool)) refs.
Proof.
  destruct (checkouts_full_round [10; 20; 30] IndexerSpec.localPool)
    as (refs & Hperm & Hres & _).
  - vm_compute. discriminate.
  - reflexivity.
  - exists refs. split; [exact Hperm | exact Hres].
Defined.

Lemma getProvider_fallback_all_down :
  healthyProviders allDown = [] /\
  getProvider 1000 allDown = (Throw noProviders, allDown) /\
  snd (getProvider 40000 allDown) = allDown.
Proof.
  assert (Hnone : healthyProviders allDown = []) by (vm_compute; reflexivity).
  split; [exact Hnone|].
  pose proof (getProvider_fallback 1000 allDown Hnone) as H1.
  pose proof (getProvider_fallback 40000 allDown Hnone) as H2.
  split.
  - destruct (getProvider 1000 allDown) as [[info|e] p1].
    + destruct H1 as (_ & r & e & l1 & l2 & t & _ & He & _ & _ & Ht & Hcool & _).
      exfalso.
      assert (Hold : forallb (fun e => match lastFailure e with
                                       | Some t => 0 <=? t
                                       | None => true
                                       end) (store allDown) = true)
        by (vm_compute; reflexivity).
      rewrite forallb_forall in Hold.
      apply list_elem_of_lookup_2, list_elem_of_In in He. specialize (Hold e He).
      rewrite Ht in Hold. apply Z.leb_le in Hold.
      assert (Hc : cooldownPeriod allDown = 30000) by (vm_compute; reflexivity).
      rewrite Hc in Hcool. lia.
    + destruct H1 as (-> & -> & _). reflexivity.
  - destruct (getProvider 40000 allDown) as [[info|e] p2]; apply H2.
Defined.

(** *** Entries that share an id *)

Lemma registerAll_last entries : forall next m i r,
  registerAll entries next m !! i = Some r ->
  forall k e, entries !! k = Some e -> id e = i -> (next + k <= r)%nat.
Proof.
  induction entries as [|e0 rest IH]; intros next m i r H k e Hk Hid; [discriminate|].
  simpl in H. destruct k as [|k]; simpl in Hk.
  - inversion Hk; subst e0.
    apply registerAll_lookup in H as [H | (k' & -> & _)]; [|lia].
    rewrite <- Hid, lookup_insert_eq in H. inversion H. lia.
  - specialize (IH (S next) _ i r H k e Hk Hid). lia.
Qed.

Lemma step_other_entry p c r e :
  wellFormed p -> store p !! r = Some e -> providers p !! id e <> Some r ->
  store (step p c) !! r = Some e.
Proof.
  intros Hwf He Hshadow.
  assert (Hne : forall j r' e', providers p !! j = Some r' -> store p !! r' = Some e' ->
                                r' <> r).
  { intros j r' e' Hj He' ->. rewrite He in He'. inversion He'; subst e'.
    pose proof (wf_map p Hwf j r Hj) as Hid. rewrite He in Hid. simpl in Hid.
    inversion Hid; subst j. contradiction. }
  destruct c as [now j | now j err | now]; simpl.
  - unfold reportSuccess.
    destruct (providers p !! j ≫= _) as [[r' e']|] eqn:H; simpl; [|exact He].
    apply lookupEntry in H as [Hj He'].
    rewrite list_lookup_insert_ne by (eapply Hne; eauto). exact He.
  - unfold reportFailure.
    destruct (providers p !! j ≫= _) as [[r' e']|] eqn:H; simpl; [|exact He].
    apply lookupEntry in H as [Hj He'].
    rewrite list_lookup_insert_ne by (eapply Hne; eauto). exact He.
  - unfold getProvider. destruct (0 <? _)%nat; destruct (_ ≫= _); exact He.
Qed.

(** Endpoints configured with the same URL get the same id, and the
    pool's Map keeps the last of them only: reports for that id never
    reach an earlier one, which stays as the constructor made it (healthy,
    no failure) through any run of calls. *)
Theorem shadowed_entry_frozen (configs : list ProviderConfig)
    (options : option ProviderPoolOptions) (pool : ProviderPool)
    (calls : list call) (i j : nat) (ci cj : ProviderConfig)
    (Hnew : constructor configs options = Ok pool)
    (Hi : configs !! i = Some ci) (Hj : configs !! j = Some cj)
    (Hlt : (i < j)%nat)
    (Hurl : cfg_url ci = cfg_url cj) :
  id (newEntry ci) = id (newEntry cj) /\
  providers pool !! id (newEntry ci) <> Some i /\
  store (run pool calls) !! i = Some (newEntry ci).
Proof.
  pose proof (constructor_wellFormed _ _ _ Hnew) as Hwf.
  destruct (constructor_shape _ _ _ Hnew) as (_ & Hstore & _).
  assert (Hid : id (newEntry ci) = id (newEntry cj)) by (simpl; now rewrite Hurl).
  assert (Hshadow : providers pool !! id (newEntry ci) <> Some i).
  { intros Hm. unfold constructor in Hnew.
    destruct (length configs =? 0)%nat; [discriminate|]. inversion Hnew as [Hp].
    rewrite <- Hp in Hm. simpl in Hm.
    pose proof (registerAll_last _ _ _ _ _ Hm j (newEntry cj)) as Hlast.
    rewrite list_lookup_fmap, Hj in Hlast. specialize (Hlast eq_refl (eq_sym Hid)). lia. }
  split; [exact Hid|]. split; [exact Hshadow|].
  assert (He : store pool !! i = Some (newEntry ci))
    by (rewrite Hstore, list_lookup_fmap, Hi; reflexivity).
  clear Hnew Hstore. revert pool Hwf Hshadow He.
  induction calls as [|c calls IH]; intros pool Hwf Hshadow He; [exact He|].
  change (run pool (c :: calls)) with (run (step pool c) calls).
  pose proof (step_sameShape pool c) as Hsh.
  apply IH.
  - eapply sameShape_wellFormed; eauto.
  - destruct Hsh as [_ Hm _ _ _]. now rewrite Hm.
  - now apply step_other_entry.
Qed.

Lemma shadowed_entry_frozen_twins :
  let providerId := generateProviderId "http://localhost:8545" in
  store (run twinPool [ReportFailure 1 providerId IndexerSpec.connectionRefused;
                       ReportFailure 2 providerId IndexerSpec.connectionRefused;
                       ReportFailure 3 providerId IndexerSpec.connectionRefused])
    !! 0%nat
  = Some (newEntry (mkConfig "http://localhost:8545" 2)).
Proof.
  intros providerId.
  apply (shadowed_entry_frozen twinProviders None twinPool _ 0 1
           (mkConfig "http://localhost:8545" 2) (mkConfig "http://localhost:8545" 1)).
  - reflexivity.
  - reflexivity.
  - reflexivity.
  - lia.
  - reflexivity.
Defined.

End RotationFacts.

(** ** Reports on a checked-out endpoint *)

Section ReportFacts.
Import Pool PoolSpec.

Lemma run_registered configs options pool calls r e :
  constructor configs options = Ok pool ->
  store (run pool calls) !! r = Some e ->
  exists r' e', providers (run pool calls) !! id e = Some r' /\
                store (run pool calls) !! r' = Some e'.
Proof.
  intros Hc He.
  pose proof (run_wellFormed configs options pool calls Hc) as Hwf.
  destruct (run_sameShape calls pool) as [Hstatic Hmap _ _ _].
  assert (H0 : exists e0, store pool !! r = Some e0 /\ id e0 = id e).
  { assert (H : static <$> store pool !! r = static <$> store (run pool calls) !! r)
      by (rewrite <- !list_lookup_fmap; now f_equal).
    rewrite He in H. destruct (store pool !! r) as [e0|]; [|discriminate].
    exists e0. split; [reflexivity|]. simpl in H. unfold static in H. congruence. }
  destruct H0 as (e0 & He0 & Hid).
  assert (Hreg : is_Some (providers pool !! id e0)).
  { revert Hc He0. unfold constructor. destruct (length configs =? 0)%nat; [discriminate|].
    intros [= <-]. simpl. intros He0. eapply registerAll_dom. exact He0. }
  destruct Hreg as [r' Hr']. rewrite Hid, <- Hmap in Hr'.
  pose proof (wf_map _ Hwf _ _ Hr') as Hentry.
  destruct (store (run pool calls) !! r') as [e'|] eqn:He'; [|discriminate].
  exists r', e'. auto.
Qed.

Lemma getProvider_from_store now p info p' :
  getProvider now p = (Ok info, p') ->
  store p' = store p /\ providers p' = providers p /\
  exists r e, store p !! r = Some e /\ info = infoOf e.
Proof.
  unfold getProvider. destruct (0 <? length (healthyProviders p))%nat.
  - destruct (weightedList p !! _) as [r|]; simpl; [|discriminate].
    destruct (store p !! r) as [e|] eqn:He; [|discriminate].
    intros [= <- <-]. simpl. eauto 6.
  - destruct (bestUnhealthyProvider p now) as [r|]; simpl; [|discriminate].
    destruct (store p !! r) as [e|] eqn:He; [|discriminate].
    intros [= <- <-]. eauto 6.
Qed.

Lemma checkout_reports_ok configs options pool calls now info p' :
  constructor configs options = Ok pool ->
  getProvider now (run pool calls) = (Ok info, p') ->
  forall now' error,
    (exists p'', reportSuccess now' (info_id info) p' = (Ok tt, p'')) /\
    (exists p'', reportFailure now' (info_id info) error p' = (Ok tt, p'')).
Proof.
  intros Hpool Hget now' error.
  apply getProvider_from_store in Hget as (Hs & Hm & r & e & He & ->).
  destruct (run_registered configs options pool calls r e Hpool He)
    as (r' & e' & Hr' & He').
  unfold reportSuccess, reportFailure. simpl. rewrite Hs, Hm, Hr'. simpl.
  rewrite He'. simpl. eauto.
Qed.

(** In a pool built by the constructor, after any run of calls: the
    endpoint that [getProvider] hands out can be reported on, neither
    [reportSuccess] nor [reportFailure] throws for its id; and for a
    string that is the id of no configured endpoint both throw
    "Provider <id> not found" and leave the pool as it is. *)
Theorem checkout_reportable (configs : list ProviderConfig)
    (options : option ProviderPoolOptions) (pool : ProviderPool) (calls : list call)
    (Hpool : constructor configs options = Ok pool) :
  (forall now info p',
      getProvider now (run pool calls) = (Ok info, p') ->
      forall now' error,
        fst (reportSuccess now' (info_id info) p') = Ok tt /\
        fst (reportFailure now' (info_id info) error p') = Ok tt) /\
  (forall providerId,
      (forall config, In config configs -> generateProviderId (cfg_url config) <> providerId) ->
      forall now error,
        reportSuccess now providerId (run pool calls)
          = (Throw (notFound providerId), run pool calls) /\
        reportFailure now providerId error (run pool calls)
          = (Throw (notFound providerId), run pool calls)).
Proof.
  split.
  - intros now info p' Hget now' error.
    destruct (checkout_reports_ok configs options pool calls now info p' Hpool Hget
                now' error) as [[p1 ->] [p2 ->]]. auto.
  - intros providerId Hfresh now error.
    assert (Hnone : providers (run pool calls) !! providerId = None).
    { destruct (run_sameShape calls pool) as [_ Hmap _ _ _]. rewrite Hmap.
      revert Hpool. unfold constructor. destruct (length configs =? 0)%nat; [discriminate|].
      intros [= <-]. simpl.
      destruct (registerAll (map newEntry configs) 0 ∅ !! providerId) as [r|] eqn:Hr;
        [|reflexivity].
      apply registerAll_lookup in Hr as [Hr | (k & _ & Hk)].
      - rewrite lookup_empty in Hr. discriminate.
      - rewrite list_lookup_fmap in Hk.
        destruct (configs !! k) as [config|] eqn:Hcfg; [|discriminate].
        simpl in Hk. inversion Hk as [Hid].
        exfalso. apply (Hfresh config); [|exact Hid].
        apply list_elem_of_In. eapply list_elem_of_lookup_2. exact Hcfg. }
    unfold reportSuccess, reportFailure. rewrite Hnone. auto.
Qed.

Lemma checkout_reportable_local :
  exists info p',
    getProvider 7 (run IndexerSpec.localPool [GetProvider 5]) = (Ok info, p') /\
    fst (reportSuccess 8 (info_id info) p') = Ok tt /\
    reportSuccess 8 "provider-0" (run IndexerSpec.localPool [GetProvider 5])
      = (Throw (notFound "provider-0"), run IndexerSpec.localPool [GetProvider 5]).
Proof.
  assert (Hpool : constructor IndexerSpec.localProviders None = Ok IndexerSpec.localPool)
    by (vm_compute; reflexivity).
  destruct (checkout_reportable IndexerSpec.localProviders None IndexerSpec.localPool
              [GetProvider 5] Hpool) as [Hok Hunknown].
  destruct (getProvider 7 (run IndexerSpec.localPool [GetProvider 5]))
    as [[info|e] p'] eqn:Hget.
  - exists info, p'. split; [reflexivity|]. split.
    + exact (proj1 (Hok 7 info p' Hget 8 IndexerSpec.connectionRefused)).
    + refine (proj1 (Hunknown "provider-0" _ 8 IndexerSpec.connectionRefused)).
      intros config [<-|[<-|[]]]; vm_compute; discriminate.
  - exfalso. vm_compute in Hget. discriminate.
Defined.

End ReportFacts.

(** ** Timeout classification *)

Section TimeoutFacts.
Import RateLimiter TimeoutErrors.






End TimeoutFacts.

(** ** Indexer: commits, resumption, polling *)

Section IndexerFacts.
Import Decoder Indexer IndexerSpec Poll.

Lemma commit_outcome now addr chainId blockNum evs a :
  match Storage.updateSyncStateAndInsertEvents now addr chainId blockNum evs a with
  | (Ok _, a') =>
    exists d d' added,
      Storage.db a = Some d /\ Storage.db a' = Some d' /\
      Storage.last_block <$> Storage.sync_state d' !! addr = Some blockNum /\
      Storage.events d' = (Storage.events d ++ added)%list
  | (Throw _, a') => a' = a
  end.
Proof.
  destruct a as [[d|]]; [|reflexivity].
  unfold Storage.updateSyncStateAndInsertEvents, Storage.ensureDb. simpl.
  pose proof (updateTransaction_atomic now addr chainId blockNum evs d) as H.
  destruct (Storage.transaction _ d) as [[[]|e] d'].
  - destruct H as ((row & Hsync & Hlast & _) & (added & Hadded & _) & _).
    exists d, d', added. repeat split; auto.
    rewrite Hsync, lookup_insert_eq. simpl. now rewrite Hlast.
  - now subst.
Qed.

Lemma indexBlocks_outcome fuel W config now contractConfig from upTo st :
  match indexBlocks fuel W config now contractConfig from upTo st with
  | None =>
    exists provider pool iface,
      Pool.getProvider now (providerPool st) = (Ok provider, pool) /\
      getABI W (Js.toLowerCase (address contractConfig)) (CHAIN_IDS (chain config))
             (abi contractConfig) = Ok iface /\
      Fetcher.fetchEvents fuel (endpoint W (Pool.info_url provider))
                          (Fetcher.new (Pool.info_id provider) iface
                                       (batch_size (options config)))
                          (Js.toLowerCase (address contractConfig))
                          (Indexer.events contractConfig) from upTo (trace st) = None
  | Some (Ok _, st') =>
    lastBlockOf contractConfig st' = Some upTo /\
    exists d d' added,
      Storage.db (storage st) = Some d /\ Storage.db (storage st') = Some d' /\
      Storage.events d' = (Storage.events d ++ added)%list
  | Some (Throw _, st') => storage st' = storage st
  end.
Proof.
  unfold indexBlocks.
  destruct (Pool.getProvider now (providerPool st)) as [[provider|e] pool]; [|reflexivity].
  destruct (getABI W _ _ _) as [iface|e] eqn:Habi.
  2:{ simpl. destruct (Pool.reportFailure now _ e pool) as [[[]|e'] pool']; reflexivity. }
  destruct (Fetcher.fetchEvents _ _ _ _ _ _ _ _) as [[[[evs|e] fx] tr]|] eqn:Hfetch;
    [| |exists provider, pool, iface; auto].
  2:{ simpl. destruct (Pool.reportFailure now _ e pool) as [[[]|e'] pool']; reflexivity. }
  destruct (Pool.reportSuccess now (Pool.info_id provider) pool) as [[[]|e] pool1].
  2:{ simpl. destruct (Pool.reportFailure now _ e pool1) as [[[]|e'] pool']; reflexivity. }
  pose proof (commit_outcome now (Js.toLowerCase (address contractConfig))
                (CHAIN_IDS (chain config)) upTo evs (storage st)) as Hc.
  destruct (Storage.updateSyncStateAndInsertEvents now _ _ upTo evs (storage st))
    as [[[]|e] a].
  - destruct Hc as (d & d' & added & Hd & Hd' & Hlast & Hrows).
    simpl. unfold lastBlockOf. simpl. rewrite Hd'. split; [exact Hlast|].
    exists d, d', added. auto.
  - subst a. simpl.
    destruct (Pool.reportFailure now _ e pool1) as [[[]|e'] pool']; reflexivity.
Qed.

Lemma indexBlocks_progress_or_same fuel W config now contractConfig from upTo st :
  match indexBlocks fuel W config now contractConfig from upTo st with
  | None => True
  | Some (Ok _, st') => lastBlockOf contractConfig st' = Some upTo
  | Some (Throw _, st') => storage st' = storage st
  end.
Proof.
  pose proof (indexBlocks_outcome fuel W config now contractConfig from upTo st) as H.
  destruct (indexBlocks fuel W config now contractConfig from upTo st)
    as [[[[]|e] st']|]; [apply H | exact H | exact I].
Qed.


(** [indexBlocks] either commits or leaves the storage alone: when it
    returns, the stored [last_block] of the contract is the end of the
    window and the rows that were in [events] are still there, in place;
    when it throws, whatever failed (checkout, ABI, fetch, decoding,
    commit), the storage is exactly as before. It fails to come back
    only if the fetch loop it starts does. *)
Theorem indexBlocks_all_or_nothing (fuel : nat) (W : World) (config : Config) (now : Z)
    (contractConfig : ContractConfig) (from upTo : Z) (st : State) :
  match indexBlocks fuel W config now contractConfig from upTo st with
  | None =>
    exists provider pool iface,
      Pool.getProvider now (providerPool st) = (Ok provider, pool) /\
      getABI W (Js.toLowerCase (address contractConfig)) (CHAIN_IDS (chain config))
             (abi contractConfig) = Ok iface /\
      Fetcher.fetchEvents fuel (endpoint W (Pool.info_url provider))
                          (Fetcher.new (Pool.info_id provider) iface
                                       (batch_size (options config)))
                          (Js.toLowerCase (address contractConfig))
                          (Indexer.events contractConfig) from upTo (trace st) = None
  | Some (Ok _, st') =>
    lastBlockOf contractConfig st' = Some upTo /\
    exists d d' added,
      Storage.db (storage st) = Some d /\ Storage.db (storage st') = Some d' /\
      Storage.events d' = (Storage.events d ++ added)%list
  | Some (Throw _, st') => storage st' = storage st
  end.
Proof.
  exact (indexBlocks_outcome fuel W config now contractConfig from upTo st).
Qed.

(** After an [indexBlocks] that returned for a window ending at [upTo],
    a restart of [watchContract] with a configured [from_block] of at most
    [upTo] resumes at [upTo + 1]. *)
Theorem resume_after_indexBlocks (fuel : nat) (W W' : World) (config : Config)
    (now now' : Z) (contractConfig : ContractConfig) (from upTo configured : Z)
    (st st' : State)
    (Hfrom : from_block contractConfig = Some configured)
    (Hbelow : configured <= upTo)
    (Hindexed : indexBlocks fuel W config now contractConfig from upTo st
                = Some (Ok tt, st')) :
  startBlock W' now' contractConfig st' = (Ok (upTo + 1), st').
Proof.
  pose proof (indexBlocks_progress_or_same fuel W config now contractConfig from upTo st)
    as H.
  rewrite Hindexed in H. unfold lastBlockOf in H.
  destruct (Storage.db (storage st')) as [d'|] eqn:Hd'; [|discriminate].
  unfold startBlock. rewrite Hfrom.
  unfold Storage.getLastSyncedBlock, Storage.ensureDb. rewrite Hd'. simpl. rewrite H.
  destruct (Z.leb_spec configured upTo); [reflexivity | lia].
Qed.

Lemma resume_after_indexBlocks_quiet :
  exists st',
    indexBlocks 10 quietWorld mainnet 1700000000000 uniToken 17000501 17002000 resumed
      = Some (Ok tt, st') /\
    startBlock quietWorld 1700000060000 uniToken st' = (Ok 17002001, st').
Proof.
  eexists. split; [vm_compute; reflexivity|].
  apply (resume_after_indexBlocks 10 quietWorld quietWorld mainnet 1700000000000
           1700000060000 uniToken 17000501 17002000 17000000 resumed).
  - reflexivity.
  - lia.
  - vm_compute. reflexivity.
Defined.

(** One run of the polling loop never lets an exception out. Either it
    keeps the cursor and the storage as they are, or the endpoint it
    checked out told a head with [cursor <= head - confirmations], the
    window from the cursor to [head - confirmations] was indexed and
    committed, and the cursor moves just past it. *)
Theorem pollLoop_step (fuel : nat) (W : World) (config : Config) (now : Z)
    (contractConfig : ContractConfig) (currentBlock next : Z) (st st' : State)
    (Hrun : pollLoop fuel W config now contractConfig currentBlock st = Some (next, st')) :
  (next = currentBlock /\ storage st' = storage st) \/
  (exists provider pool head,
      Pool.getProvider now (providerPool st) = (Ok provider, pool) /\
      Fetcher.getBlockNumber (endpoint W (Pool.info_url provider)) (length (trace st))
        = Ok head /\
      currentBlock <= head - confirmations (options config) /\
      next = head - confirmations (options config) + 1 /\
      lastBlockOf contractConfig st' = Some (head - confirmations (options config))).
Proof.
  revert Hrun. unfold pollLoop.
  destruct (Pool.getProvider now (providerPool st)) as [[provider|e] pool];
    [|intros [= <- <-]; left; split; reflexivity].
  destruct (Fetcher.getBlockNumber _ _) as [head|e] eqn:Hhead.
  2:{ simpl. destruct (Pool.reportFailure now _ e pool) as [o pool'].
      intros [= <- <-]. left. auto. }
  destruct (Pool.reportSuccess now (Pool.info_id provider) pool) as [[[]|e] pool1].
  2:{ simpl. destruct (Pool.reportFailure now _ e pool1) as [o pool'].
      intros [= <- <-]. left. auto. }
  destruct (Z.leb_spec currentBlock (head - confirmations (options config))) as [Hle|Hgt].
  2:{ intros [= <- <-]. left. auto. }
  set (st1 := mkState (storage st) pool1 (trace st ++ [Fetcher.GetBlockNumber])).
  pose proof (indexBlocks_progress_or_same fuel W config now contractConfig currentBlock
                (head - confirmations (options config)) st1) as H.
  destruct (indexBlocks fuel W config now contractConfig currentBlock _ st1)
    as [[[[]|e] st2]|]; [| |discriminate].
  - intros [= <- <-]. right. exists provider, pool, head. auto.
  - destruct (Pool.reportFailure now _ e (providerPool st2)) as [o pool'].
    intros [= <- <-]. left. split; [reflexivity|]. simpl. exact H.
Qed.

Lemma pollLoop_step_quiet :
  exists st',
    pollLoop 10 quietWorld mainnet 1700000000000 uniToken 17000501 resumed
      = Some (17002001, st') /\
    lastBlockOf uniToken st' = Some 17002000.
Proof.
  destruct (pollLoop 10 quietWorld mainnet 1700000000000 uniToken 17000501 resumed)
    as [[next st']|] eqn:Hrun.
  - assert (Hnext : next = 17002001).
    { assert (H : fst <$> pollLoop 10 quietWorld mainnet 1700000000000 uniToken 17000501
                                   resumed = Some 17002001) by (vm_compute; reflexivity).
      rewrite Hrun in H. simpl in H. congruence. }
    subst next. exists st'. split; [reflexivity|].
    destruct (pollLoop_step 10 quietWorld mainnet 1700000000000 uniToken 17000501
                17002001 resumed st' Hrun)
      as [[Hsame _] | (provider & pool & head & _ & _ & _ & Hnext & Hlast)].
    + discriminate.
    + replace (head - confirmations (options mainnet)) with 17002000 in Hlast by lia.
      exact Hlast.
  - exfalso. vm_compute in Hrun. discriminate.
Defined.



End IndexerFacts.

(** ** The polling loop on a pool of one endpoint *)

Section SoleProviderFacts.
Import Pool PoolSpec Decoder Indexer IndexerSpec Poll PollSpec.

Lemma soleHealthy_weaken i u n m p :
  n <= m -> soleHealthy i u n p -> soleHealthy i u m p.
Proof.
  intros Hnm (e & Hsole & Hi & Hu & Hh & Hcf & Hthr).
  exists e. repeat split; try apply Hsole; auto. lia.
Qed.

Lemma soleHealthy_getProvider i u n p now :
  soleHealthy i u n p ->
  exists info p',
    getProvider now p = (Ok info, p') /\ info_id info = i /\ info_url info = u /\
    soleHealthy i u n p'.
Proof.
  intros (e & (Hstore & Hmap & Hlist) & Hi & Hu & Hh & Hcf & Hthr).
  assert (Hhealthy : healthyProviders p <> []).
  { unfold healthyProviders, isHealthy. rewrite Hlist, Hstore. simpl. rewrite Hh.
    discriminate. }
  destruct (getProvider_advances now p Hhealthy) as (r & e' & _ & He' & Hget).
  rewrite Hstore in He'. destruct r as [|r]; [|discriminate].
  inversion He'; subst e'.
  exists (infoOf e), (CheckoutSpec.advanced p).
  split; [exact Hget|]. split; [exact Hi|]. split; [exact Hu|].
  exists e. repeat split; auto.
Qed.

Lemma soleHealthy_reportSuccess i u n p now :
  soleHealthy i u n p ->
  exists p', reportSuccess now i p = (Ok tt, p') /\ soleHealthy i u 0 p'.
Proof.
  intros (e & (Hstore & Hmap & Hlist) & Hi & Hu & Hh & Hcf & Hthr).
  unfold reportSuccess. rewrite <- Hi, Hmap. simpl. rewrite Hstore. simpl.
  eexists. split; [reflexivity|].
  exists {| id := id e; url := url e; priority := priority e; healthy := true;
            consecutiveFailures := 0; lastFailure := lastFailure e;
            lastSuccess := Some now; lastError := None |}.
  unfold sole, setEntry. simpl. rewrite Hstore. simpl. repeat split; auto. lia.
Qed.

Lemma soleHealthy_reportFailure i u n p now error :
  soleHealthy i u n p -> n <= 1 ->
  exists p', reportFailure now i error p = (Ok tt, p') /\ soleHealthy i u (n + 1) p'.
Proof.
  intros (e & (Hstore & Hmap & Hlist) & Hi & Hu & Hh & Hcf & Hthr) Hn.
  unfold reportFailure. rewrite <- Hi, Hmap. simpl. rewrite Hstore. simpl.
  eexists. split; [reflexivity|].
  exists {| id := id e; url := url e; priority := priority e;
            healthy := if failureThreshold p <=? consecutiveFailures e + 1 then false
                       else healthy e;
            consecutiveFailures := consecutiveFailures e + 1; lastFailure := Some now;
            lastSuccess := lastSuccess e; lastError := Some (err_message error) |}.
  unfold sole, setEntry. simpl. rewrite Hstore. simpl. repeat split; auto; [|lia].
  destruct (Z.leb_spec (failureThreshold p) (consecutiveFailures e + 1)); [lia | exact Hh].
Qed.

Lemma soleHealthy_indexBlocks i u fuel W config now contractConfig from upTo st :
  soleHealthy i u 0 (providerPool st) ->
  match indexBlocks fuel W config now contractConfig from upTo st with
  | None => True
  | Some (_, st') => soleHealthy i u 1 (providerPool st')
  end.
Proof.
  intros Hsh. unfold indexBlocks.
  destruct (soleHealthy_getProvider i u 0 _ now Hsh) as (info & pool & -> & Hid & Hurl & Hsh1).
  rewrite Hid.
  destruct (getABI W _ _ _) as [iface|e].
  2:{ simpl. destruct (soleHealthy_reportFailure i u 0 pool now e Hsh1) as (p' & -> & Hp');
        [lia|]. exact Hp'. }
  destruct (Fetcher.fetchEvents _ _ _ _ _ _ _ _) as [[[[evs|e] fx] tr]|]; [| |exact I].
  2:{ simpl. destruct (soleHealthy_reportFailure i u 0 pool now e Hsh1) as (p' & -> & Hp');
        [lia|]. exact Hp'. }
  destruct (soleHealthy_reportSuccess i u 0 pool now Hsh1) as (pool1 & -> & Hsh2).
  destruct (Storage.updateSyncStateAndInsertEvents now _ _ upTo evs (storage st))
    as [[[]|e] a].
  - simpl. eapply soleHealthy_weaken; [|exact Hsh2]. lia.
  - simpl. destruct (soleHealthy_reportFailure i u 0 pool1 now e Hsh2) as (p' & -> & Hp');
      [lia|]. exact Hp'.
Qed.

Lemma soleHealthy_pollLoop i u fuel W config now contractConfig currentBlock st :
  (forall k, is_ok (Fetcher.getBlockNumber (endpoint W u) k) = true) ->
  soleHealthy i u 2 (providerPool st) ->
  match pollLoop fuel W config now contractConfig currentBlock st with
  | None => True
  | Some (_, st') => soleHealthy i u 2 (providerPool st')
  end.
Proof.
  intros Hhead Hsh. unfold pollLoop.
  destruct (soleHealthy_getProvider i u 2 _ now Hsh) as (info & pool & -> & Hid & Hurl & Hsh1).
  rewrite Hid, Hurl.
  specialize (Hhead (length (trace st))).
  destruct (Fetcher.getBlockNumber _ _) as [head|e]; [|discriminate].
  destruct (soleHealthy_reportSuccess i u 2 pool now Hsh1) as (pool1 & -> & Hsh2).
  destruct (currentBlock <=? head - confirmations (options config)).
  2:{ simpl. eapply soleHealthy_weaken; [|exact Hsh2]. lia. }
  set (st1 := mkState (storage st) pool1 (trace st ++ [Fetcher.GetBlockNumber])).
  pose proof (soleHealthy_indexBlocks i u fuel W config now contractConfig currentBlock
                (head - confirmations (options config)) st1 Hsh2) as H.
  destruct (indexBlocks fuel W config now contractConfig currentBlock _ st1)
    as [[[[]|e] st2]|]; [| |exact I].
  - eapply soleHealthy_weaken; [|exact H]. lia.
  - destruct (soleHealthy_reportFailure i u 1 (providerPool st2) now e H) as (p' & -> & Hp');
      [lia|]. exact Hp'.
Qed.

Lemma soleHealthy_pollLoops i u fuel W config contractConfig ticks :
  (forall k, is_ok (Fetcher.getBlockNumber (endpoint W u) k) = true) ->
  forall currentBlock st,
    soleHealthy i u 2 (providerPool st) ->
    match pollLoops fuel W config ticks contractConfig currentBlock st with
    | None => True
    | Some (_, st') => soleHealthy i u 2 (providerPool st')
    end.
Proof.
  intros Hhead. induction ticks as [|now rest IH]; intros currentBlock st Hsh; simpl.
  - exact Hsh.
  - pose proof (soleHealthy_pollLoop i u fuel W config now contractConfig currentBlock st
                  Hhead Hsh) as H.
    destruct (pollLoop fuel W config now contractConfig currentBlock st) as [[next st1]|];
      [|exact I].
    apply IH. exact H.
Qed.

(** When one contract is watched, so that a single polling loop is the
    only user of the pool, with a single configured endpoint and a failure
    threshold of at least 3 (the default), the polling loop never marks
    the endpoint unhealthy as long as it tells its head: every run starts
    by reporting a success for the head, which resets the failure count,
    and a failed [indexBlocks] is reported twice (once by [indexBlocks],
    once by the loop), so the count is at most 2 between runs, whatever
    [getLogs], the ABI lookup or the storage do. (Several watchers on one
    pool interleave their reports, and the count can then reach 3.) *)
Theorem sole_provider_stays_healthy (fuel : nat) (W : World) (config : Config)
    (ticks : list Z) (contractConfig : ContractConfig) (currentBlock : Z) (st : State)
    (providerConfig : ProviderConfig) (poolOptions : option ProviderPoolOptions)
    (Hpool : constructor [providerConfig] poolOptions = Ok (providerPool st))
    (Hthreshold : 3 <= failureThreshold (providerPool st))
    (Hhead : forall k,
        is_ok (Fetcher.getBlockNumber (endpoint W (cfg_url providerConfig)) k) = true) :
  match pollLoops fuel W config ticks contractConfig currentBlock st with
  | None => True
  | Some (_, st') =>
    exists e,
      getHealthStatus (providerPool st') = [e] /\
      url e = cfg_url providerConfig /\ healthy e = true /\ consecutiveFailures e <= 2
  end.
Proof.
  assert (Hsh : soleHealthy (generateProviderId (cfg_url providerConfig))
                            (cfg_url providerConfig) 2 (providerPool st)).
  { revert Hpool Hthreshold. unfold constructor. simpl. intros [= <-] Hthr.
    exists (newEntry providerConfig). simpl. repeat split; auto; try lia.
    simpl. apply lookup_insert_eq. }
  pose proof (soleHealthy_pollLoops _ _ fuel W config contractConfig ticks Hhead
                currentBlock st Hsh) as H.
  destruct (pollLoops fuel W config ticks contractConfig currentBlock st) as [[next st']|];
    [|exact I].
  destruct H as (e & (Hstore & Hmap & Hlist) & Hi & Hu & Hh & Hcf & Hthr).
  exists (healthOf e). unfold getHealthStatus. rewrite Hlist, Hstore. auto.
Qed.

Lemma sole_provider_stays_healthy_broken_logs :
  exists next st' e,
    pollLoops 10 brokenLogsWorld mainnet
              [1700000000000; 1700000015000; 1700000030000; 1700000045000]
              uniToken 17000501 soloState = Some (next, st') /\
    next = 17000501 /\
    getHealthStatus (providerPool st') = [e] /\ healthy e = true.
Proof.
  pose proof (sole_provider_stays_healthy 10 brokenLogsWorld mainnet
                [1700000000000; 1700000015000; 1700000030000; 1700000045000]
                uniToken 17000501 soloState soloProvider None) as H.
  destruct (pollLoops 10 brokenLogsWorld mainnet
                      [1700000000000; 1700000015000; 1700000030000; 1700000045000]
                      uniToken 17000501 soloState) as [[next st']|] eqn:Hrun.
  - destruct H as (e & Hstatus & _ & Hh & _).
    + vm_compute. reflexivity.
    + vm_compute. discriminate.
    + intros k. reflexivity.
    + exists next, st', e. split; [reflexivity|]. split; [|auto].
      assert (Hn : fst <$> pollLoops 10 brokenLogsWorld mainnet
                     [1700000000000; 1700000015000; 1700000030000; 1700000045000]
                     uniToken 17000501 soloState = Some 17000501)
        by (vm_compute; reflexivity).
      rewrite Hrun in Hn. simpl in Hn. congruence.
  - exfalso. vm_compute in Hrun. discriminate.
Defined.

End SoleProviderFacts.

(** ** Starting from the head *)

Section StartFacts.
Import Pool Decoder Indexer IndexerSpec.

(** With [from_block: null] and a pool built by the constructor,
    [watchContract] starts at the head told by the endpoint it checks
    out, and the storage is not consulted or changed. When the head
    cannot be read the error is an [RPCError] "Failed to get current
    block number: ..." carrying the endpoint's message; when no endpoint
    can be checked out the pool's own error comes out and no request is
    made. *)
Theorem startBlock_from_head (W : World) (now : Z) (contractConfig : ContractConfig)
    (st : State) (configs : list ProviderConfig) (poolOptions : option ProviderPoolOptions)
    (pool : ProviderPool) (calls : list call)
    (Hpool : constructor configs poolOptions = Ok pool)
    (Hst : providerPool st = run pool calls)
    (Hfrom : from_block contractConfig = None) :
  storage (snd (startBlock W now contractConfig st)) = storage st /\
  match getProvider now (providerPool st) with
  | (Throw e, _) =>
    fst (startBlock W now contractConfig st) = Throw e /\
    trace (snd (startBlock W now contractConfig st)) = trace st
  | (Ok provider, _) =>
    trace (snd (startBlock W now contractConfig st))
      = (trace st ++ [Fetcher.GetBlockNumber])%list /\
    match Fetcher.getBlockNumber (endpoint W (info_url provider)) (length (trace st)) with
    | Ok head => fst (startBlock W now contractConfig st) = Ok head
    | Throw error =>
      fst (startBlock W now contractConfig st)
        = Throw (RPCError ("Failed to get current block number: " ++ err_message error))
    end
  end.
Proof.
  unfold startBlock. rewrite Hfrom, Hst.
  destruct (getProvider now (run pool calls)) as [[provider|e] pool1] eqn:Hget;
    [|simpl; auto].
  destruct (Fetcher.getBlockNumber _ _) as [head|error].
  - destruct (checkout_reports_ok configs poolOptions pool calls now provider pool1 Hpool
                Hget now (mkError "Error" "")) as [[p2 ->] _]. simpl. auto.
  - destruct (checkout_reports_ok configs poolOptions pool calls now provider pool1 Hpool
                Hget now error) as [_ [p2 ->]]. simpl. auto.
Qed.

Lemma startBlock_from_head_quiet :
  fst (startBlock quietWorld 1700000000000 PollSpec.fromHead resumed) = Ok 17002012 /\
  storage (snd (startBlock quietWorld 1700000000000 PollSpec.fromHead resumed))
    = storage resumed.
Proof.
  assert (Hpool : constructor localProviders None = Ok localPool)
    by (vm_compute; reflexivity).
  destruct (startBlock_from_head quietWorld 1700000000000 PollSpec.fromHead resumed
              localProviders None localPool [] Hpool eq_refl eq_refl) as [Hstorage Hhead].
  split; [|exact Hstorage].
  destruct (getProvider 1700000000000 (providerPool resumed)) as [[provider|e] pool1] eqn:Hget.
  - destruct Hhead as [_ Hhead]. exact Hhead.
  - exfalso. vm_compute in Hget. discriminate.
Defined.

End StartFacts.
